(** * srsRAN control-plane core: segmented byte buffer, procedures, adapters

    Shallow embedding of
    - [include/srsgnb/adt/detail/byte_buffer_segment.h]
      (the fixed-size segment, the byte iterator over a list of segments,
      the segment-list iterator and the segment range),
    - [lib/cu_cp/routines/pdu_session_resource_modification_routine.cpp],
    - [lib/cu_cp/routine_managers/cu_cp_routine_manager.cpp],
    - [lib/ngap/procedures/ngap_pdu_session_resource_release_procedure.cpp],
    - [apps/gnb/adapters/e2ap_adapter.h],
    - [lib/phy/signal_processors/pss_processor_impl.h] (the sequence shift),
    followed by the properties proved about them.

    Conventions.  A [size_t] is a [Z] with the wrap-around modulo [2^64]
    written out; a pointer into the [buffer] array of a segment is the [Z]
    offset from [buffer.data()]; a pointer to a segment is an index into the
    heap (a list of segments), [None] being [nullptr]. *)

From Stdlib Require Import ZArith Lia String.
From Stdlib.Strings Require Import Byte.
From stdpp Require Import base option list gmap strings.
From ITree Require Import ITree Eq.Shallow.

Local Open Scope Z_scope.

(** ** Machine integers *)

Definition to_size_t (z : Z) : Z := z mod 2 ^ 64.
Definition to_ptrdiff_t (z : Z) : Z := (z + 2 ^ 63) mod 2 ^ 64 - 2 ^ 63.
Definition to_unsigned (z : Z) : Z := z mod 2 ^ 32.

(** ** Outcome of a call

    A call either returns to its caller ([Done]), or an assertion fails and
    the process is terminated with a diagnostic ([Abort]), or it dereferences
    a null or out-of-bounds pointer ([Undefined]). *)

Inductive outcome (A : Type) : Type :=
| Done (a : A)
| Abort (diagnostic : string)
| Undefined.
Arguments Done {A} a.
Arguments Abort {A} diagnostic.
Arguments Undefined {A}.

#[global] Instance outcome_ret : MRet outcome := fun A a => Done a.
#[global] Instance outcome_bind : MBind outcome := fun A B f m =>
  match m with
  | Done a => f a
  | Abort d => Abort d
  | Undefined => Undefined
  end.

(** The call returned to its caller. *)
Definition returns {A} (o : outcome A) : Prop :=
  match o with Done _ => True | _ => False end.

(** Whatever the call returns satisfies [P]. *)
Definition on_return {A} (P : A → Prop) (o : outcome A) : Prop :=
  match o with Done a => P a | _ => True end.

Definition of_option {A} (o : option A) : outcome A :=
  match o with Some a => Done a | None => Undefined end.

(** Modelled from the spec: the assertion macros [srsgnb_assert] and
    [srsgnb_sanity_check] of [srsgnb/support/srsgnb_assert.h] are not part of
    the sources.  The spec classes a violated contract as fatal: the process
    is aborted with a diagnostic and no recovery is attempted.  Both macros
    are taken as checked. *)
Definition srsgnb_assert (condition : bool) (msg : string) : outcome unit :=
  if condition then Done tt else Abort msg.
Definition srsgnb_sanity_check (condition : bool) (msg : string) : outcome unit :=
  srsgnb_assert condition msg.

#[global] Instance byte_eq_decision : EqDecision byte := Byte.byte_eq_dec.

(** Address of a segment: an index into the heap. *)
Abbreviation addr := nat.

(** ** [class byte_buffer_segment] *)

Module byte_buffer_segment.

Definition SEGMENT_SIZE : Z := 256.
Definition DEFAULT_HEADROOM : Z := 16.

(** Segment header where metadata gets stored. *)
Record metadata_storage : Type := {
  next : option addr;
  tail : option addr;
  pkt_len : Z
}.

(** The default member initialisers of [metadata_storage]. *)
Definition metadata_default : metadata_storage :=
  {| next := None; tail := None; pkt_len := 0 |}.

Record t : Type := {
  metadata_ : metadata_storage;
  buffer : list byte;
  payload_data_ : Z;
  payload_data_end_ : Z
}.

Definition capacity : Z := SEGMENT_SIZE.

Definition begin (s : t) : Z := payload_data_ s.
Definition end_ (s : t) : Z := payload_data_end_ s.
Definition data (s : t) : Z := begin s.

Definition empty (s : t) : bool := begin s =? end_ s.

(** [data() - buffer.data()], [buffer.data()] being offset 0. *)
Definition headroom (s : t) : Z := to_size_t (data s - 0).

(** [buffer.end() - end()]. *)
Definition tailroom (s : t) : Z := to_size_t (SEGMENT_SIZE - end_ s).

Definition metadata (s : t) : metadata_storage := metadata_ s.

(** [std::copy(first, last, buffer.data() + dst)]: the bytes are written in
    place and the array keeps its size; a destination range that leaves the
    array has no defined behaviour. *)
Definition std_copy (src : list byte) (buf : list byte) (dst : Z) : outcome (list byte) :=
  if decide (0 ≤ dst ∧ dst + Z.of_nat (List.length src) ≤ Z.of_nat (List.length buf))
  then Done (list_inserts (Z.to_nat dst) src buf)
  else Undefined.

(** [end() - begin()]. *)
Definition length (s : t) : Z := to_size_t (end_ s - begin s).

Definition tailroom_start (s : t) : Z := to_size_t (headroom s + length s).

(** The bytes of the range [begin(), end()). *)
Definition payload (s : t) : list byte :=
  take (Z.to_nat (length s)) (drop (Z.to_nat (begin s)) (buffer s)).

(** [byte_buffer_segment(size_t headroom = DEFAULT_HEADROOM)]; [raw] is the
    indeterminate initial content of the [buffer] array.  The argument is
    converted to [size_t] and added to [buffer.data()]; the constructor does
    not compare it with the size of the array, and returns. *)
Definition make (raw : list byte) (headroom : Z) : outcome t :=
  let headroom := to_size_t headroom in
  Done {| metadata_ := metadata_default;
          buffer := raw;
          payload_data_ := 0 + headroom;
          payload_data_end_ := 0 + headroom |}.

Definition make_default (raw : list byte) : outcome t := make raw DEFAULT_HEADROOM.

(** Reading the range [other.begin(), other.end()) as the source of a copy. *)
Definition read_payload (s : t) : outcome (list byte) :=
  if decide (0 ≤ begin s ∧ begin s ≤ end_ s ∧ end_ s ≤ Z.of_nat (List.length (buffer s)))
  then Done (payload s)
  else Undefined.

(** [byte_buffer_segment(const byte_buffer_segment& other)]. *)
Definition copy_construct (raw : list byte) (other : t) : outcome t :=
  let payload_data := 0 + headroom other in
  let payload_data_end := 0 + tailroom_start other in
  src ← read_payload other;
  buf ← std_copy src raw payload_data;
  mret {| metadata_ := metadata_default;
          buffer := buf;
          payload_data_ := payload_data;
          payload_data_end_ := payload_data_end |}.

(** [byte_buffer_segment(byte_buffer_segment&& other)]: the same body. *)
Definition move_construct (raw : list byte) (other : t) : outcome t :=
  let payload_data := 0 + headroom other in
  let payload_data_end := 0 + tailroom_start other in
  src ← read_payload other;
  buf ← std_copy src raw payload_data;
  mret {| metadata_ := metadata_default;
          buffer := buf;
          payload_data_ := payload_data;
          payload_data_end_ := payload_data_end |}.

(** The three statements shared by both assignment operators: [metadata_]
    is not assigned. *)
Definition assign_body (this other : t) : outcome t :=
  let payload_data := 0 + headroom other in
  let payload_data_end := 0 + tailroom_start other in
  src ← read_payload other;
  buf ← std_copy src (buffer this) payload_data;
  mret {| metadata_ := metadata_ this;
          buffer := buf;
          payload_data_ := payload_data;
          payload_data_end_ := payload_data_end |}.

(** [append(It it_begin, It it_end)] and [append(span<const uint8_t>)]. *)
Definition append (s : t) (bytes : list byte) : outcome t :=
  _ ← srsgnb_sanity_check (Z.of_nat (List.length bytes) <=? tailroom s)
        "There is not enough tailroom for append.";
  buf ← std_copy bytes (buffer s) (end_ s);
  mret {| metadata_ := metadata_ s;
          buffer := buf;
          payload_data_ := payload_data_ s;
          payload_data_end_ := end_ s + Z.of_nat (List.length bytes) |}.

(** [append(uint8_t byte)]: the byte is stored at [buffer[tailroom_start()]]. *)
Definition append_byte (s : t) (b : byte) : outcome t :=
  _ ← srsgnb_assert (1 <=? tailroom s) "There is not enough tailroom space.";
  buf ← std_copy [b] (buffer s) (tailroom_start s);
  mret {| metadata_ := metadata_ s;
          buffer := buf;
          payload_data_ := payload_data_ s;
          payload_data_end_ := payload_data_end_ s + 1 |}.

Definition prepend (s : t) (bytes : list byte) : outcome t :=
  _ ← srsgnb_assert (Z.of_nat (List.length bytes) <=? headroom s)
        "There is not enough headroom space.";
  let payload_data := payload_data_ s - Z.of_nat (List.length bytes) in
  buf ← std_copy bytes (buffer s) payload_data;
  mret {| metadata_ := metadata_ s;
          buffer := buf;
          payload_data_ := payload_data;
          payload_data_end_ := payload_data_end_ s |}.

Definition reserve_prepend (s : t) (nof_bytes : Z) : outcome t :=
  let nof_bytes := to_size_t nof_bytes in
  _ ← srsgnb_assert (nof_bytes <=? headroom s) "There is not enough headroom space.";
  mret {| metadata_ := metadata_ s;
          buffer := buffer s;
          payload_data_ := payload_data_ s - nof_bytes;
          payload_data_end_ := payload_data_end_ s |}.

Definition trim_head (s : t) (nof_bytes : Z) : outcome t :=
  let nof_bytes := to_size_t nof_bytes in
  _ ← srsgnb_assert (nof_bytes <=? length s) "There is not enough headroom space.";
  mret {| metadata_ := metadata_ s;
          buffer := buffer s;
          payload_data_ := payload_data_ s + nof_bytes;
          payload_data_end_ := payload_data_end_ s |}.

Definition trim_tail (s : t) (nof_bytes : Z) : outcome t :=
  let nof_bytes := to_size_t nof_bytes in
  _ ← srsgnb_assert (nof_bytes <=? length s) "There is not enough headroom space.";
  mret {| metadata_ := metadata_ s;
          buffer := buffer s;
          payload_data_ := payload_data_ s;
          payload_data_end_ := payload_data_end_ s - nof_bytes |}.

Definition resize (s : t) (nof_bytes : Z) : outcome t :=
  let nof_bytes := to_size_t nof_bytes in
  _ ← srsgnb_assert (nof_bytes <=? to_size_t (capacity - headroom s))
        "There is not enough space for provided size";
  mret {| metadata_ := metadata_ s;
          buffer := buffer s;
          payload_data_ := payload_data_ s;
          payload_data_end_ := payload_data_ s + nof_bytes |}.

(** Reading [buffer.data()[i]]. *)
Definition load (s : t) (i : Z) : outcome byte :=
  if decide (0 ≤ i) then of_option (buffer s !! Z.to_nat i) else Undefined.

(** [operator[](size_t idx)]. *)
Definition at_ (s : t) (idx : Z) : outcome byte :=
  let idx := to_size_t idx in
  _ ← srsgnb_assert (idx <? length s) "Out-of-bound access";
  load s (begin s + idx).

(** [back()]: [*(payload_data_end_ - 1)]. *)
Definition back (s : t) : outcome byte :=
  _ ← srsgnb_assert (negb (empty s)) "back() called for empty segment.";
  load s (payload_data_end_ s - 1).

(** [std::equal(first1, last1, first2, last2)] on two ranges of bytes. *)
Fixpoint std_equal (r1 r2 : list byte) : bool :=
  match r1, r2 with
  | [], [] => true
  | b1 :: r1', b2 :: r2' => bool_decide (b1 = b2) && std_equal r1' r2'
  | _, _ => false
  end.

(** [operator==(const Container& other)]; [other] is the range
    [other.begin(), other.end()). *)
Definition equal (s : t) (other : list byte) : outcome bool :=
  r ← read_payload s;
  mret (std_equal r other).

(** [operator!=(const Container& other)]. *)
Definition not_equal (s : t) (other : list byte) : outcome bool :=
  b ← equal s other;
  mret (negb b).

Definition set_metadata (m : metadata_storage) (s : t) : t :=
  {| metadata_ := m;
     buffer := buffer s;
     payload_data_ := payload_data_ s;
     payload_data_end_ := payload_data_end_ s |}.

(** *** Heap of segments *)

Abbreviation heap := (list t).

(** [next()]: [metadata().next.get()]. *)
Definition next_ (s : t) : option addr := next (metadata s).

(** [operator=(const byte_buffer_segment& other)] on the objects at
    addresses [this] and [other]. *)
Definition copy_assign (h : heap) (this other : addr) : outcome heap :=
  d ← of_option (h !! this);
  s ← of_option (h !! other);
  if decide (this ≠ other)
  then d' ← assign_body d s; mret (<[this := d']> h)
  else mret h.

(** [operator=(byte_buffer_segment&& other)]: no identity test. *)
Definition move_assign (h : heap) (this other : addr) : outcome heap :=
  d ← of_option (h !! this);
  s ← of_option (h !! other);
  d' ← assign_body d s;
  mret (<[this := d']> h).

End byte_buffer_segment.

(** ** [class detail::byte_buffer_iterator_impl] *)

Module byte_buffer_iterator_impl.

Record t : Type := {
  current_segment : option addr;
  offset : Z
}.

(** [byte_buffer_iterator_impl(start_segment = nullptr, offset_ = 0)]. *)
Definition make (start_segment : option addr) (offset_ : Z) : t :=
  {| current_segment := start_segment; offset := offset_ |}.

(** [operator*]: [*(current_segment->data() + offset)]. *)
Definition deref (h : byte_buffer_segment.heap) (it : t) : outcome byte :=
  a ← of_option (current_segment it);
  s ← of_option (h !! a);
  byte_buffer_segment.load s (byte_buffer_segment.data s + offset it).

(** [operator++]. *)
Definition incr (h : byte_buffer_segment.heap) (it : t) : outcome t :=
  let offset1 := to_size_t (offset it + 1) in
  a ← of_option (current_segment it);
  s ← of_option (h !! a);
  if byte_buffer_segment.length s <=? offset1
  then mret {| current_segment := byte_buffer_segment.next_ s; offset := 0 |}
  else mret {| current_segment := Some a; offset := offset1 |}.

(** The [while] loop of [operator+=].  A walk longer than the heap has
    segments goes round a cycle of segments; the model gives it no
    result. *)
Fixpoint advance_loop (fuel : nat) (h : byte_buffer_segment.heap)
    (cur : option addr) (off : Z) : outcome t :=
  match fuel with
  | O => Undefined
  | S fuel' =>
      match cur with
      | None => Done {| current_segment := None; offset := off |}
      | Some a =>
          s ← of_option (h !! a);
          if byte_buffer_segment.length s <=? off
          then advance_loop fuel' h (byte_buffer_segment.next_ s)
                 (to_size_t (off - byte_buffer_segment.length s))
          else Done {| current_segment := Some a; offset := off |}
      end
  end.

(** [operator+=(unsigned n)]: the argument is converted to [unsigned]. *)
Definition plus_assign (h : byte_buffer_segment.heap) (it : t) (n : Z) : outcome t :=
  let n := to_unsigned n in
  it' ← advance_loop (S (List.length h)) h (current_segment it) (to_size_t (offset it + n));
  _ ← srsgnb_assert (bool_decide (current_segment it' ≠ None) || (offset it' =? 0))
        "Out-of-bounds Access";
  mret it'.

(** [operator+(unsigned n)]. *)
Definition plus (h : byte_buffer_segment.heap) (it : t) (n : Z) : outcome t :=
  plus_assign h it n.

(** The [for] loop of [operator-]. *)
Fixpoint distance_loop (fuel : nat) (h : byte_buffer_segment.heap)
    (seg target : option addr) (diff : Z) : outcome Z :=
  match fuel with
  | O => Undefined
  | S fuel' =>
      if decide (seg = target) then Done diff
      else
        a ← of_option seg;
        s ← of_option (h !! a);
        distance_loop fuel' h (byte_buffer_segment.next_ s) target
          (to_ptrdiff_t (diff + byte_buffer_segment.length s))
  end.

(** [operator-(other)]: distance between two iterators. *)
Definition minus (h : byte_buffer_segment.heap) (this other : t) : outcome Z :=
  diff ← distance_loop (S (List.length h)) h (current_segment other) (current_segment this) 0;
  mret (to_ptrdiff_t (diff + to_size_t (offset this - offset other))).

(** [operator==]. *)
Definition eqb (this other : t) : bool :=
  bool_decide (current_segment this = current_segment other) && (offset this =? offset other).

(** Reading [n] bytes: [n] times [*it], [++it]. *)
Fixpoint read (h : byte_buffer_segment.heap) (it : t) (n : nat) : outcome (list byte) :=
  match n with
  | O => Done []
  | S n' =>
      b ← deref h it;
      it' ← incr h it;
      bs ← read h it' n';
      mret (b :: bs)
  end.

(** [n] times [++it]. *)
Fixpoint incr_n (h : byte_buffer_segment.heap) (it : t) (n : nat) : outcome t :=
  match n with
  | O => Done it
  | S n' => it' ← incr h it; incr_n h it' n'
  end.

End byte_buffer_iterator_impl.

(** ** [class detail::byte_buffer_segment_list_iterator_impl] *)

Module byte_buffer_segment_list_iterator_impl.

(** [offset] and [rem_bytes] are [unsigned]. *)
Record t : Type := {
  current_segment : option addr;
  offset : Z;
  rem_bytes : Z
}.

(** A [span<uint8_t>]: a pointer into the array of a segment and a number
    of bytes. *)
Record span : Type := {
  span_segment : addr;
  span_data : Z;
  span_size : Z
}.

(** [byte_buffer_segment_list_iterator_impl(seg, size_t offset_, size_t size_)]:
    the two [size_t] arguments initialise [unsigned] members. *)
Definition make (h : byte_buffer_segment.heap) (seg : option addr) (offset_ size_ : Z)
    : outcome t :=
  let offset := to_unsigned (to_size_t offset_) in
  let rem_bytes := to_unsigned (to_size_t size_) in
  _ ← srsgnb_assert (bool_decide (seg ≠ None) || ((offset =? 0) && (rem_bytes =? 0)))
        "Positive offset or length for empty segment";
  _ ← match seg with
      | None => srsgnb_assert true "Invalid offset"
      | Some a =>
          s ← of_option (h !! a);
          srsgnb_assert (offset <? byte_buffer_segment.length s) "Invalid offset"
      end;
  mret {| current_segment := seg; offset := offset; rem_bytes := rem_bytes |}.

(** [byte_buffer_segment_list_iterator_impl(const byte_buffer_iterator_impl<U>& it, size_t size_)]. *)
Definition make_from_iterator (h : byte_buffer_segment.heap)
    (it : byte_buffer_iterator_impl.t) (size_ : Z) : outcome t :=
  make h (byte_buffer_iterator_impl.current_segment it)
    (byte_buffer_iterator_impl.offset it) size_.

(** [std::min(rem_bytes, (unsigned)current_segment->length() - offset)]. *)
Definition span_length (s : byte_buffer_segment.t) (it : t) : Z :=
  Z.min (rem_bytes it)
        (to_unsigned (to_unsigned (byte_buffer_segment.length s) - offset it)).

(** [operator*]. *)
Definition deref (h : byte_buffer_segment.heap) (it : t) : outcome span :=
  a ← of_option (current_segment it);
  s ← of_option (h !! a);
  mret {| span_segment := a;
          span_data := byte_buffer_segment.data s + offset it;
          span_size := span_length s it |}.

(** [operator++]. *)
Definition incr (h : byte_buffer_segment.heap) (it : t) : outcome t :=
  _ ← srsgnb_assert (bool_decide (current_segment it ≠ None)) "operator++ called after end()";
  a ← of_option (current_segment it);
  s ← of_option (h !! a);
  let rem_bytes1 := to_unsigned (rem_bytes it - span_length s it) in
  if rem_bytes1 =? 0
  then mret {| current_segment := None; offset := 0; rem_bytes := rem_bytes1 |}
  else mret {| current_segment := byte_buffer_segment.next_ s; offset := 0;
               rem_bytes := rem_bytes1 |}.

(** [operator++(int)]: the value returned and the iterator afterwards. *)
Definition post_incr (h : byte_buffer_segment.heap) (it : t) : outcome (t * t) :=
  let tmp := it in
  it' ← incr h it;
  mret (tmp, it').

(** [operator==]: only the segment pointers are compared. *)
Definition eqb (this other : t) : bool :=
  bool_decide (current_segment this = current_segment other).

(** Reading the bytes a span refers to. *)
Definition span_bytes (h : byte_buffer_segment.heap) (sp : span) : outcome (list byte) :=
  s ← of_option (h !! span_segment sp);
  if decide (0 ≤ span_data sp ∧ 0 ≤ span_size sp ∧
             span_data sp + span_size sp
               ≤ Z.of_nat (List.length (byte_buffer_segment.buffer s)))
  then Done (take (Z.to_nat (span_size sp))
               (drop (Z.to_nat (span_data sp)) (byte_buffer_segment.buffer s)))
  else Undefined.

(** Reading the bytes of a sequence of spans, one after the other. *)
Fixpoint read_spans (h : byte_buffer_segment.heap) (sps : list span) : outcome (list byte) :=
  match sps with
  | [] => Done []
  | sp :: sps' =>
      bs ← span_bytes h sp;
      rest ← read_spans h sps';
      mret (bs ++ rest)
  end.

End byte_buffer_segment_list_iterator_impl.

(** ** [class detail::byte_buffer_segment_range_impl] *)

Module byte_buffer_segment_range_impl.

Record t : Type := {
  begin_ : byte_buffer_segment_list_iterator_impl.t
}.

(** [byte_buffer_segment_range_impl(seg, offset, size)]. *)
Definition make (h : byte_buffer_segment.heap) (seg : option addr) (offset size : Z)
    : outcome t :=
  it ← byte_buffer_segment_list_iterator_impl.make h seg offset size;
  mret {| begin_ := it |}.

(** [byte_buffer_segment_range_impl(const byte_buffer_iterator_impl<U>& it, size_t size)]. *)
Definition make_from_iterator (h : byte_buffer_segment.heap)
    (it : byte_buffer_iterator_impl.t) (size : Z) : outcome t :=
  it' ← byte_buffer_segment_list_iterator_impl.make_from_iterator h it size;
  mret {| begin_ := it' |}.

Definition begin (r : t) : byte_buffer_segment_list_iterator_impl.t := begin_ r.

(** [end()]: the iterator constructed from [(nullptr, 0, 0)]. *)
Definition end_ (h : byte_buffer_segment.heap)
    : outcome byte_buffer_segment_list_iterator_impl.t :=
  byte_buffer_segment_list_iterator_impl.make h None 0 0.

(** [empty()]: [begin() == end()]. *)
Definition empty (h : byte_buffer_segment.heap) (r : t) : outcome bool :=
  e ← end_ h;
  mret (byte_buffer_segment_list_iterator_impl.eqb (begin r) e).

(** The loop [for (it = begin(); it != end(); ++it)] collecting [*it].  A
    walk longer than the heap has segments goes round a cycle of segments;
    the model gives it no result. *)
Fixpoint spans_loop (fuel : nat) (h : byte_buffer_segment.heap)
    (it e : byte_buffer_segment_list_iterator_impl.t)
    : outcome (list byte_buffer_segment_list_iterator_impl.span) :=
  match fuel with
  | O => Undefined
  | S fuel' =>
      if negb (byte_buffer_segment_list_iterator_impl.eqb it e)
      then
        sp ← byte_buffer_segment_list_iterator_impl.deref h it;
        it' ← byte_buffer_segment_list_iterator_impl.incr h it;
        sps ← spans_loop fuel' h it' e;
        mret (sp :: sps)
      else Done []
  end.

Definition spans (h : byte_buffer_segment.heap) (r : t)
    : outcome (list byte_buffer_segment_list_iterator_impl.span) :=
  e ← end_ h;
  spans_loop (S (List.length h)) h (begin r) e.

End byte_buffer_segment_range_impl.

(** ** The list of segments behind a buffer *)

Module byte_buffer.

Import byte_buffer_segment.

(** Modelled from the spec: [class byte_buffer] is not part of the sources.
    Spec, data model: a buffer is the concatenation of the payloads of its
    segment list; only the head segment stores the list-wide metadata (the
    pointer to the tail segment and the total length); a buffer with zero
    segments is a valid, empty buffer. *)
Record t : Type := { head : option addr }.

Definition empty_buffer : t := {| head := None |}.

Definition set_next (n : option addr) (s : byte_buffer_segment.t) : byte_buffer_segment.t :=
  set_metadata {| next := n; tail := tail (metadata s); pkt_len := pkt_len (metadata s) |} s.
Definition set_tail (tl : option addr) (s : byte_buffer_segment.t) : byte_buffer_segment.t :=
  set_metadata {| next := next (metadata s); tail := tl; pkt_len := pkt_len (metadata s) |} s.
Definition add_pkt_len (n : Z) (s : byte_buffer_segment.t) : byte_buffer_segment.t :=
  set_metadata {| next := next (metadata s); tail := tail (metadata s);
                  pkt_len := to_size_t (pkt_len (metadata s) + n) |} s.

(** The tail segment, found through the head's metadata. *)
Definition tail_of (h : heap) (b : t) : outcome addr :=
  hd ← of_option (head b);
  hs ← of_option (h !! hd);
  of_option (tail (metadata hs)).

(** Modelled from the spec: a new segment, constructed with the default
    headroom, is linked after the current tail and becomes the tail; [raw]
    gives the indeterminate content of newly allocated memory. *)
Definition append_segment (raw : addr → list byte) (h : heap) (b : t) : outcome (heap * t) :=
  let a := List.length h in
  fresh ← make_default (raw a);
  match head b with
  | None => mret (h ++ [set_tail (Some a) fresh], {| head := Some a |})
  | Some hd =>
      tl ← tail_of h b;
      let h1 := alter (set_next (Some a)) tl h in
      let h2 := alter (set_tail (Some a)) hd h1 in
      mret (h2 ++ [fresh], b)
  end.

(** Does the next byte need a new segment? *)
Definition tail_full (h : heap) (b : t) : outcome bool :=
  match head b with
  | None => mret true
  | Some _ =>
      tl ← tail_of h b;
      ts ← of_option (h !! tl);
      mret (tailroom ts =? 0)
  end.

(** Modelled from the spec: a new segment is allocated when the current tail
    is full (or when there is no segment yet). *)
Definition reserve_tail (raw : addr → list byte) (h : heap) (b : t) : outcome (heap * t) :=
  full ← tail_full h b;
  if full : bool then append_segment raw h b else mret (h, b).

(** Modelled from the spec: as many of [bytes] as fit are copied into the
    tailroom of the tail segment, through [byte_buffer_segment::append], and
    added to the total length kept in the head.  The result is the heap and
    the number of bytes written. *)
Definition fill_tail (h : heap) (b : t) (bytes : list byte) : outcome (heap * nat) :=
  hd ← of_option (head b);
  tl ← tail_of h b;
  ts ← of_option (h !! tl);
  let to_write := Z.to_nat (Z.min (tailroom ts) (Z.of_nat (List.length bytes))) in
  ts' ← byte_buffer_segment.append ts (take to_write bytes);
  mret (alter (add_pkt_len (Z.of_nat to_write)) hd (<[tl := ts']> h), to_write).

(** Modelled from the spec, 4.1: [append(bytes)] copies [bytes] into the
    tailroom, allocating new segments as needed. *)
Fixpoint append_loop (fuel : nat) (raw : addr → list byte) (h : heap) (b : t)
    (bytes : list byte) : outcome (heap * t) :=
  match bytes with
  | [] => mret (h, b)
  | _ :: _ =>
      match fuel with
      | O => Undefined
      | S fuel' =>
          '(h1, b1) ← reserve_tail raw h b;
          '(h2, written) ← fill_tail h1 b1 bytes;
          append_loop fuel' raw h2 b1 (drop written bytes)
      end
  end.

Definition append (raw : addr → list byte) (h : heap) (b : t) (bytes : list byte)
    : outcome (heap * t) :=
  append_loop (List.length bytes) raw h b bytes.

(** Total length, kept in the head segment. *)
Definition length (h : heap) (b : t) : outcome Z :=
  match head b with
  | None => mret 0
  | Some hd => hs ← of_option (h !! hd); mret (pkt_len (metadata hs))
  end.

(** [begin()]: the byte iterator at the head segment, offset 0. *)
Definition begin (b : t) : byte_buffer_iterator_impl.t :=
  byte_buffer_iterator_impl.make (head b) 0.

(** [end()]. *)
Definition end_ (b : t) : byte_buffer_iterator_impl.t :=
  byte_buffer_iterator_impl.make None 0.

End byte_buffer.

(** ** Procedures as interaction trees

    A procedure body is an interaction tree over the calls it makes on the
    objects it holds references to.  A call that is awaited is an event whose
    answer is the value delivered when the procedure is resumed. *)

#[global] Instance itree_ret {E} : MRet (itree E) := fun A a => Ret a.
#[global] Instance itree_bind {E} : MBind (itree E) := fun A B k t => ITree.bind t k.

(** One call made by a procedure, with the answer it received. *)
Inductive observed (E : Type → Type) : Type :=
| Obs {X : Type} (e : E X) (answer : X).
Arguments Obs {E X} e answer.

(** [runs t tr r]: the procedure [t] makes the calls of [tr], in this order
    and with these answers, and completes with the result [r]. *)
Inductive runs {E : Type → Type} {R : Type} : itree E R → list (observed E) → R → Prop :=
| runs_ret t r :
    observe t = RetF r → runs t [] r
| runs_tau t t' tr r :
    observe t = TauF t' → runs t' tr r → runs t tr r
| runs_vis t {X} (e : E X) k x tr r :
    observe t = VisF e k → runs (k x) tr r → runs t (Obs e x :: tr) r.

Variant log_level : Type := debug | info | warning | error.

(** ** Text of the log lines and diagnostics

    The character written [\042] in a C++ string literal, and the line
    feed. *)
Definition double_quote : string := String (Ascii.ascii_of_nat 34) EmptyString.
Definition line_feed : string := String (Ascii.ascii_of_nat 10) EmptyString.

(** The format strings of [pdu_session_resource_modification_routine.cpp],
    lines 103, 107, 113, 145 and 151. *)
Definition fmt_ue_initialized : string :=
  "ue={}: " +:+ double_quote +:+ "{}" +:+ double_quote +:+ " initialized.".
Definition fmt_ue_skipping_empty : string :=
  "ue={}: " +:+ double_quote +:+ "{}" +:+ double_quote
    +:+ " Skipping empty PDU Session Resource Modification".
Definition fmt_ue_no_such_session : string :=
  "ue={}: " +:+ double_quote +:+ "{}" +:+ double_quote
    +:+ " PDU session ID {} doesn't exist.".
Definition fmt_ue_finalized : string :=
  "ue={}: " +:+ double_quote +:+ "{}" +:+ double_quote +:+ " finalized.".
Definition fmt_ue_failed : string :=
  "ue={}: " +:+ double_quote +:+ "{}" +:+ double_quote +:+ " failed.".

(** The format strings of [ngap_pdu_session_resource_release_procedure.cpp],
    lines 50 and 59. *)
Definition fmt_initialized : string :=
  double_quote +:+ "{}" +:+ double_quote +:+ " initialized".
Definition fmt_finalized : string :=
  double_quote +:+ "{}" +:+ double_quote +:+ " finalized".

(** The diagnostic of [e2ap_adapter.h], line 42. *)
Definition msg_sctp_gateway_failed : string :=
  "Failed to create SCTP gateway." +:+ line_feed.

(** ** [pdu_session_resource_modification_routine] *)

Module pdu_session_resource_modification_routine.

Definition pdu_session_id_t := nat.
Definition ue_index_t := nat.

(** Modelled from the spec: the message types of [cu_cp_types.h] are not
    part of the sources; they are given the fields the routine reads or
    writes.  The items of a request are listed in iteration order. *)
Record modify_item : Type := {
  pdu_session_id : pdu_session_id_t;
  transfer : list nat
}.
Record cu_cp_pdu_session_resource_modify_request : Type := {
  ue_index : ue_index_t;
  pdu_session_res_modify_items : list modify_item
}.
Record cu_cp_pdu_session_resource_failed_to_modify_item : Type := {
  failed_pdu_session_id : pdu_session_id_t
}.
Record cu_cp_pdu_session_resource_modify_response : Type := {
  pdu_session_res_modify_list : list pdu_session_id_t;
  pdu_session_res_failed_to_modify_list : list cu_cp_pdu_session_resource_failed_to_modify_item
}.

(** A default-constructed response. *)
Definition response_default : cu_cp_pdu_session_resource_modify_response :=
  {| pdu_session_res_modify_list := []; pdu_session_res_failed_to_modify_list := [] |}.

(** Modelled from the spec: [up_resource_manager] is not part of the
    sources; validation asks it whether a session id exists. *)
Record up_resource_manager : Type := { pdu_sessions : gset pdu_session_id_t }.
Definition has_pdu_session (m : up_resource_manager) (id : pdu_session_id_t) : bool :=
  bool_decide (id ∈ pdu_sessions m).

(** The calls the routine can make: on its logger, on the UP resource
    manager, and on the two peer notifiers it holds. *)
Variant routineE : Type → Type :=
| logger_log (l : log_level) (fmt : string) : routineE unit
| apply_config_update : routineE unit
| e1ap_ctrl_notifier (method : string) : routineE unit
| f1ap_ue_ctxt_notifier (method : string) : routineE unit.

(** The members of the routine object. *)
Record t : Type := {
  modify_request : cu_cp_pdu_session_resource_modify_request;
  rrc_ue_up_resource_manager : up_resource_manager;
  response_msg : cu_cp_pdu_session_resource_modify_response
}.

(** The constructor: [response_msg] is default-constructed. *)
Definition make (modify_request_ : cu_cp_pdu_session_resource_modify_request)
    (rrc_ue_up_resource_manager_ : up_resource_manager) : t :=
  {| modify_request := modify_request_;
     rrc_ue_up_resource_manager := rrc_ue_up_resource_manager_;
     response_msg := response_default |}.

(** Helper to mark all PDU sessions that were requested to be set up as
    failed: one [push_back] per item of the request. *)
Definition mark_all_sessions_as_failed
    (response_msg : cu_cp_pdu_session_resource_modify_response)
    (modify_request : cu_cp_pdu_session_resource_modify_request)
    : cu_cp_pdu_session_resource_modify_response :=
  foldl (fun resp modify_item =>
           {| pdu_session_res_modify_list := pdu_session_res_modify_list resp;
              pdu_session_res_failed_to_modify_list :=
                pdu_session_res_failed_to_modify_list resp ++
                [ {| failed_pdu_session_id := pdu_session_id modify_item |} ] |})
        response_msg (pdu_session_res_modify_items modify_request).

Definition generate_pdu_session_resource_modify_response (r : t) (success : bool)
    : itree routineE cu_cp_pdu_session_resource_modify_response :=
  if success then
    _ ← ITree.trigger (logger_log debug fmt_ue_finalized);
    _ ← ITree.trigger apply_config_update;
    mret (response_msg r)
  else
    _ ← ITree.trigger (logger_log error fmt_ue_failed);
    mret (mark_all_sessions_as_failed (response_msg r) (modify_request r)).

(** The [for] loop over the requested items, with its early return;
    [rest] is what follows the loop. *)
Fixpoint check_sessions (r : t) (items : list modify_item)
    (rest : itree routineE cu_cp_pdu_session_resource_modify_response)
    : itree routineE cu_cp_pdu_session_resource_modify_response :=
  match items with
  | [] => rest
  | modify_item :: items' =>
      if negb (has_pdu_session (rrc_ue_up_resource_manager r) (pdu_session_id modify_item))
      then
        _ ← ITree.trigger (logger_log error fmt_ue_no_such_session);
        generate_pdu_session_resource_modify_response r false
      else check_sessions r items' rest
  end.

(** [operator()]. *)
Definition run (r : t) : itree routineE cu_cp_pdu_session_resource_modify_response :=
  _ ← ITree.trigger (logger_log debug fmt_ue_initialized);
  if bool_decide (pdu_session_res_modify_items (modify_request r) = [])
  then
    _ ← ITree.trigger
          (logger_log info fmt_ue_skipping_empty);
    generate_pdu_session_resource_modify_response r false
  else
    check_sessions r (pdu_session_res_modify_items (modify_request r))
      (generate_pdu_session_resource_modify_response r true).

(** The calls on a peer notifier. *)
Definition is_peer_call (o : observed routineE) : bool :=
  match o with
  | Obs (e1ap_ctrl_notifier _) _ => true
  | Obs (f1ap_ue_ctxt_notifier _) _ => true
  | _ => false
  end.

(** The calls on the UP resource manager that change it. *)
Definition is_config_update (o : observed routineE) : bool :=
  match o with
  | Obs apply_config_update _ => true
  | _ => false
  end.

End pdu_session_resource_modification_routine.

(** ** [ngap_pdu_session_resource_release_procedure] *)

Module ngap_pdu_session_resource_release_procedure.

Section procedure.

(** The message types [cu_cp_pdu_session_resource_release_command] and
    [cu_cp_pdu_session_resource_release_response], and the information
    elements of the ASN.1 response, are not part of the sources. *)
Context {release_command release_response asn1_ies : Type}.

(** [fill_asn1_pdu_session_resource_release_response] of
    [ngap_asn1_helpers.h], not part of the sources: [None] when it returns
    [false], otherwise the information elements it wrote. *)
Variable fill_asn1_pdu_session_resource_release_response :
  release_response → option asn1_ies.

Record ngap_ue_ids : Type := { ran_ue_id : Z; amf_ue_id : Z }.

(** The successful-outcome PDU of [ASN1_NGAP_ID_PDU_SESSION_RES_RELEASE]. *)
Record ngap_message : Type := {
  amf_ue_ngap_id : Z;
  ran_ue_ngap_id : Z;
  pdu_session_res_release_resp : asn1_ies
}.

(** The calls the procedure can make: on its logger, on the DU processor
    control notifier (awaited: the answer is the response delivered to the
    procedure), and on the AMF notifier. *)
Variant procedureE : Type → Type :=
| logger_log (l : log_level) (fmt : string) : procedureE unit
| on_new_pdu_session_resource_release_command (command : release_command)
    : procedureE release_response
| on_new_message (msg : ngap_message) : procedureE unit.

(** The members of the procedure object that its body reads. *)
Record t : Type := {
  command : release_command;
  ue_ids : ngap_ue_ids
}.

Definition send_pdu_session_resource_release_response (p : t) (response : release_response)
    : itree procedureE unit :=
  match fill_asn1_pdu_session_resource_release_response response with
  | None =>
      ITree.trigger
        (logger_log warning "Cannot fill ASN1 PDU Session Resource Release Response")
  | Some ies =>
      let ngap_msg := {| amf_ue_ngap_id := amf_ue_id (ue_ids p);
                         ran_ue_ngap_id := ran_ue_id (ue_ids p);
                         pdu_session_res_release_resp := ies |} in
      _ ← ITree.trigger (logger_log info "Sending PduSessionResourceReleaseResponse");
      ITree.trigger (on_new_message ngap_msg)
  end.

(** [operator()]. *)
Definition run (p : t) : itree procedureE unit :=
  _ ← ITree.trigger (logger_log debug fmt_initialized);
  response ← ITree.trigger (on_new_pdu_session_resource_release_command (command p));
  _ ← send_pdu_session_resource_release_response p response;
  _ ← ITree.trigger (logger_log debug fmt_finalized);
  mret tt.

(** The messages handed to the AMF notifier in a run. *)
Definition amf_messages (tr : list (observed procedureE)) : list ngap_message :=
  omap (fun o => match o with
                 | Obs (on_new_message msg) _ => Some msg
                 | _ => None
                 end) tr.

(** The responses delivered by the DU processor control notifier. *)
Definition du_responses (tr : list (observed procedureE)) : list release_response :=
  omap (fun o => match o with
                 | Obs e answer =>
                     match e in procedureE X return X → option release_response with
                     | on_new_pdu_session_resource_release_command _ =>
                         fun response => Some response
                     | _ => fun _ => None
                     end answer
                 end) tr.

End procedure.

End ngap_pdu_session_resource_release_procedure.

(** ** [cu_cp_routine_manager] *)

Module task_pool.

(** Modelled from the spec: the class of [main_ctrl_loop] is not part of the
    sources.  Spec, 4.3: a bounded pool of capacity [K] serves the
    entity-agnostic tasks; scheduling beyond capacity fails with a capacity
    error rather than deadlocking, and succeeds once enough prior tasks
    complete.  The pool holds the tasks admitted and not yet completed. *)
Record t (task : Type) : Type := {
  capacity : nat;
  tasks : list task
}.
Arguments capacity {task} _.
Arguments tasks {task} _.

Definition make {task} (queue_size : nat) : t task :=
  {| capacity := queue_size; tasks := [] |}.

Definition schedule {task} (p : t task) (tk : task) : t task * bool :=
  if bool_decide (List.length (tasks p) < capacity p)%nat
  then ({| capacity := capacity p; tasks := tasks p ++ [tk] |}, true)
  else (p, false).

(** The [i]-th task of the pool completes and leaves it. *)
Definition complete {task} (p : t task) (i : nat) : t task :=
  {| capacity := capacity p; tasks := delete i (tasks p) |}.

End task_pool.

Module cu_cp_routine_manager.

Section manager.

Context {task : Type}.

Record t : Type := { main_ctrl_loop : task_pool.t task }.

(** The constructor: [main_ctrl_loop(128)]. *)
Definition make : t := {| main_ctrl_loop := task_pool.make 128 |}.

(** [schedule_async_task]: the manager after the call and the value
    returned to the caller. *)
Definition schedule_async_task (m : t) (tk : task) : t * bool :=
  let '(loop, ok) := task_pool.schedule (main_ctrl_loop m) tk in
  ({| main_ctrl_loop := loop |}, ok).

(** What happens to a manager: a task is scheduled on it, or a task of its
    main control loop completes. *)
Inductive event : Type :=
| ev_schedule (tk : task)
| ev_complete (i : nat).

Definition step (m : t) (e : event) : t :=
  match e with
  | ev_schedule tk => fst (schedule_async_task m tk)
  | ev_complete i => {| main_ctrl_loop := task_pool.complete (main_ctrl_loop m) i |}
  end.

Definition after (es : list event) : t := foldl step make es.

Definition pending (m : t) : nat := List.length (task_pool.tasks (main_ctrl_loop m)).

End manager.

Arguments t : clear implicits.

End cu_cp_routine_manager.

(** ** [e2ap_network_adapter] *)

Module e2ap_network_adapter.

(** Modelled from the spec: [report_fatal_error_if_not] and [report_error]
    are not part of the sources; a violated contract aborts the process
    with a diagnostic. *)
Definition report_fatal_error_if_not (condition : bool) (msg : string) : outcome unit :=
  if condition then Done tt else Abort msg.
Definition report_error {A} (msg : string) : outcome A := Abort msg.

Section adapter.

Context {e2_message byte_buffer : Type}.

(** The pointers held by the adapter; [None] is [nullptr]. *)
Record t : Type := {
  packer : option addr;
  gateway_ctrl_handler : option addr;
  gateway_data_handler : option addr;
  e2ap_msg_handler : option addr;
  event_handler : option addr
}.

(** The calls the adapter makes on other objects. *)
Inductive call : Type :=
| broker_register_fd (gateway : addr)
| broker_unregister_fd (gateway : addr)
| packer_handle_message (msg : e2_message)
| packer_handle_packed_pdu (pdu : byte_buffer)
| e2ap_handle_message (handler : addr) (msg : e2_message)
| event_handle_connection_loss (handler : addr)
| logger_debug (msg : string).

(** The constructor: every pointer is null, so nothing is unregistered. *)
Definition make : t :=
  {| packer := None; gateway_ctrl_handler := None; gateway_data_handler := None;
     e2ap_msg_handler := None; event_handler := None |}.

(** [connect_gateway]; [connected] is what [create_and_connect] returns. *)
Definition connect_gateway (a : t) (gateway_ctrl_handler_ gateway_data_handler_ : option addr)
    (connected : bool) : outcome (t * list call) :=
  data ← of_option gateway_data_handler_;
  let a' := {| packer := Some data;
               gateway_ctrl_handler := gateway_ctrl_handler_;
               gateway_data_handler := gateway_data_handler_;
               e2ap_msg_handler := e2ap_msg_handler a;
               event_handler := event_handler a |} in
  ctrl ← of_option gateway_ctrl_handler_;
  _ ← (if connected then mret tt else report_error msg_sctp_gateway_failed);
  mret (a', [broker_register_fd ctrl]).

Definition connect_e2ap (a : t) (e2ap_msg_handler_ event_handler_ : option addr) : t :=
  {| packer := packer a;
     gateway_ctrl_handler := gateway_ctrl_handler a;
     gateway_data_handler := gateway_data_handler a;
     e2ap_msg_handler := e2ap_msg_handler_;
     event_handler := event_handler_ |}.

Definition disconnect_gateway (a : t) : outcome (t * list call) :=
  _ ← report_fatal_error_if_not (bool_decide (is_Some (gateway_ctrl_handler a)))
        "Gateway handler not set.";
  ctrl ← of_option (gateway_ctrl_handler a);
  mret ({| packer := None;
           gateway_ctrl_handler := None;
           gateway_data_handler := None;
           e2ap_msg_handler := e2ap_msg_handler a;
           event_handler := event_handler a |},
        [broker_unregister_fd ctrl]).

(** E2AP calls interface to send (unpacked) E2AP PDUs. *)
Definition on_new_message (a : t) (msg : e2_message) : outcome (list call) :=
  match packer a with
  | Some _ => mret [packer_handle_message msg]
  | None => mret [logger_debug "E2AP ASN1 packer disconnected, dropping msg"]
  end.

(** SCTP network gateway calls interface to inject received PDUs. *)
Definition on_new_pdu (a : t) (pdu : byte_buffer) : outcome (list call) :=
  match packer a with
  | Some _ => mret [packer_handle_packed_pdu pdu]
  | None => mret [logger_debug "E2AP ASN1 packer disconnected, dropping pdu"]
  end.

(** The packer calls this interface to inject unpacked E2AP PDUs. *)
Definition handle_message (a : t) (msg : e2_message) : outcome (list call) :=
  _ ← report_fatal_error_if_not (bool_decide (is_Some (e2ap_msg_handler a)))
        "E2AP handler not set.";
  handler ← of_option (e2ap_msg_handler a);
  mret [e2ap_handle_message handler msg].

Definition on_connection_loss (a : t) : outcome (list call) :=
  _ ← report_fatal_error_if_not (bool_decide (is_Some (event_handler a)))
        "E2AP handler not set.";
  handler ← of_option (event_handler a);
  mret [event_handle_connection_loss handler].

Definition on_connection_established (a : t) : outcome (list call) :=
  mret [logger_debug "on_connection_established"].

(** The life of an adapter before [connect_e2ap]: the gateway is
    connected or disconnected, and messages go out. *)
Inductive setup_step : Type :=
| do_connect_gateway (ctrl data : option addr) (connected : bool)
| do_disconnect_gateway
| do_on_new_message (msg : e2_message)
| do_on_new_pdu (pdu : byte_buffer)
| do_on_connection_established.

Definition setup (a : t) (s : setup_step) : outcome t :=
  match s with
  | do_connect_gateway ctrl data connected =>
      r ← connect_gateway a ctrl data connected; mret (fst r)
  | do_disconnect_gateway => r ← disconnect_gateway a; mret (fst r)
  | do_on_new_message msg => _ ← on_new_message a msg; mret a
  | do_on_new_pdu pdu => _ ← on_new_pdu a pdu; mret a
  | do_on_connection_established => _ ← on_connection_established a; mret a
  end.

Fixpoint setups (a : t) (ss : list setup_step) : outcome t :=
  match ss with
  | [] => mret a
  | s :: ss' => a' ← setup a s; setups a' ss'
  end.

End adapter.

Arguments t : clear implicits.
Arguments call : clear implicits.
Arguments setup_step : clear implicits.

End e2ap_network_adapter.

(** ** [pss_processor_impl] *)

Module pss_processor_impl.

(** First subcarrier in the SS/PBCH block. *)
Definition SSB_K_BEGIN : Z := 56.
(** Symbol index in the SSB where the PSS is mapped. *)
Definition SSB_L : Z := 0.
(** PSS sequence length in the SSB. *)
Definition SEQUENCE_LEN : Z := 127.

(** [M(unsigned N_id_2)]: [(43U * N_id_2) % SEQUENCE_LEN] in [unsigned]
    arithmetic. *)
Definition M (N_id_2 : Z) : Z :=
  to_unsigned (to_unsigned (43 * to_unsigned N_id_2) mod SEQUENCE_LEN).

End pss_processor_impl.

(** * Specification predicates *)

(** The segment equation of the spec, on the values the accessors return,
    without wrap-around of the sum. *)
Definition segment_invariant (s : byte_buffer_segment.t) : Prop :=
  byte_buffer_segment.headroom s + byte_buffer_segment.length s
    + byte_buffer_segment.tailroom s = byte_buffer_segment.capacity.

(** An operation keeps the segment equation whenever it returns. *)
Definition preserves_invariant {A : Type}
    (op : byte_buffer_segment.t → A → outcome byte_buffer_segment.t) : Prop :=
  ∀ s a, segment_invariant s → on_return segment_invariant (op s a).

(** The two payload pointers point into the array, in order, and the array
    has its declared size. *)
Definition segment_wf (s : byte_buffer_segment.t) : Prop :=
  0 ≤ byte_buffer_segment.begin s ∧
  byte_buffer_segment.begin s ≤ byte_buffer_segment.end_ s ∧
  byte_buffer_segment.end_ s ≤ byte_buffer_segment.SEGMENT_SIZE ∧
  Z.of_nat (List.length (byte_buffer_segment.buffer s)) = byte_buffer_segment.SEGMENT_SIZE.

(** A mutating operation guarded by the assertion [pre]: it returns a segment
    whose pointers are in bounds when [pre] holds and aborts when it does not;
    it never touches memory outside the array. *)
Definition guarded (pre : Prop) (o : outcome byte_buffer_segment.t) : Prop :=
  match o with
  | Done s' => pre ∧ segment_wf s'
  | Abort _ => ¬ pre
  | Undefined => False
  end.

(** What an assignment to the segment at [this] from the segment at [other]
    leaves behind: the destination has the payload and the headroom of the
    source, and keeps its metadata and the bytes outside the payload; every
    other segment of the heap is as before. *)
Definition assigned (h : byte_buffer_segment.heap) (this other : addr)
    (h' : byte_buffer_segment.heap) : Prop :=
  ∃ d s d',
    h !! this = Some d ∧ h !! other = Some s ∧ h' !! this = Some d' ∧
    byte_buffer_segment.metadata d' = byte_buffer_segment.metadata d ∧
    byte_buffer_segment.payload d' = byte_buffer_segment.payload s ∧
    byte_buffer_segment.headroom d' = byte_buffer_segment.headroom s ∧
    byte_buffer_segment.length d' = byte_buffer_segment.length s ∧
    (∀ i, (Z.of_nat i < byte_buffer_segment.headroom s ∨
           byte_buffer_segment.headroom s + byte_buffer_segment.length s ≤ Z.of_nat i) →
          byte_buffer_segment.buffer d' !! i = byte_buffer_segment.buffer d !! i) ∧
    (∀ a, a ≠ this → h' !! a = h !! a) ∧
    List.length h' = List.length h.

(** ** Lists of segments in the heap *)

(** [is_chain h start addrs]: following the [next] pointers from [start]
    visits the segments at [addrs], in this order, and then reaches
    [nullptr]. *)
Fixpoint is_chain (h : byte_buffer_segment.heap) (start : option addr)
    (addrs : list addr) : Prop :=
  match addrs with
  | [] => start = None
  | a :: rest =>
      start = Some a ∧
      ∃ s, h !! a = Some s ∧ is_chain h (byte_buffer_segment.next_ s) rest
  end.

(** Every segment of the list has its pointers in bounds and holds at least
    one byte. *)
Definition chain_ok (h : byte_buffer_segment.heap) (addrs : list addr) : Prop :=
  Forall (fun a => ∃ s, h !! a = Some s ∧ segment_wf s ∧ 0 < byte_buffer_segment.length s)
         addrs.

(** The payload of the segment at an address. *)
Definition payload_at (h : byte_buffer_segment.heap) (a : addr) : list byte :=
  from_option byte_buffer_segment.payload [] (h !! a).

(** The logical byte sequence of a list of segments: the concatenation of
    the payloads, in order. *)
Definition contents (h : byte_buffer_segment.heap) (addrs : list addr) : list byte :=
  concat (map (payload_at h) addrs).

(** The number of bytes of a list of segments. *)
Definition total_length (h : byte_buffer_segment.heap) (addrs : list addr) : Z :=
  Z.of_nat (List.length (contents h addrs)).

(** The position [off] bytes after the start of the first segment of
    [addrs], as the pair of a segment and an offset inside its payload; the
    position after the last byte is [(nullptr, 0)]. *)
Fixpoint seek (h : byte_buffer_segment.heap) (addrs : list addr) (off : Z)
    : byte_buffer_iterator_impl.t :=
  match addrs with
  | [] => byte_buffer_iterator_impl.make None off
  | a :: rest =>
      match h !! a with
      | Some s =>
          if byte_buffer_segment.length s <=? off
          then seek h rest (off - byte_buffer_segment.length s)
          else byte_buffer_iterator_impl.make (Some a) off
      | None => byte_buffer_iterator_impl.make None off
      end
  end.

(** [it] is a byte iterator into the list of segments [addrs], which starts
    at the segment [it] is in: it points at a byte of the payload of that
    segment, or it is the end iterator [(nullptr, 0)]. *)
Definition iterator_in (h : byte_buffer_segment.heap) (it : byte_buffer_iterator_impl.t)
    (addrs : list addr) : Prop :=
  is_chain h (byte_buffer_iterator_impl.current_segment it) addrs ∧
  chain_ok h addrs ∧
  it = seek h addrs (byte_buffer_iterator_impl.offset it) ∧
  0 ≤ byte_buffer_iterator_impl.offset it ∧
  (addrs = [] → byte_buffer_iterator_impl.offset it = 0).

(** The buffer [b] is the list of segments [addrs]: the head's metadata
    points at the last segment. *)
Definition buffer_rep (h : byte_buffer_segment.heap) (b : byte_buffer.t)
    (addrs : list addr) : Prop :=
  is_chain h (byte_buffer.head b) addrs ∧
  chain_ok h addrs ∧
  ∀ hd, byte_buffer.head b = Some hd →
    ∃ hs, h !! hd = Some hs ∧
          byte_buffer_segment.tail (byte_buffer_segment.metadata hs) = last addrs.

(** The buffer [b] is the list [front ++ [tl]] whose last segment may still
    be without payload. *)
Definition buffer_rep_open (h : byte_buffer_segment.heap) (b : byte_buffer.t)
    (front : list addr) (tl : addr) : Prop :=
  is_chain h (byte_buffer.head b) (front ++ [tl]) ∧
  chain_ok h front ∧
  (∃ ts, h !! tl = Some ts ∧ segment_wf ts) ∧
  ∃ hd hs, byte_buffer.head b = Some hd ∧ h !! hd = Some hs ∧
           byte_buffer_segment.tail (byte_buffer_segment.metadata hs) = Some tl.

(** The content of newly allocated memory is arbitrary, its size is not. *)
Definition raw_memory (raw : addr → list byte) : Prop :=
  ∀ a, Z.of_nat (List.length (raw a)) = byte_buffer_segment.SEGMENT_SIZE.

(** ** Procedures *)

(** The calls [send_pdu_session_resource_release_response] is expected to make
    for a response: a warning when the ASN.1 response cannot be filled,
    otherwise an info line and the message for the AMF. *)
Definition send_calls {release_command release_response asn1_ies : Type}
    (fill : release_response → option asn1_ies)
    (p : @ngap_pdu_session_resource_release_procedure.t release_command)
    (response : release_response)
    : list (observed (@ngap_pdu_session_resource_release_procedure.procedureE
                        release_command release_response asn1_ies)) :=
  match fill response with
  | None =>
      [Obs (ngap_pdu_session_resource_release_procedure.logger_log warning
              "Cannot fill ASN1 PDU Session Resource Release Response") tt]
  | Some ies =>
      [Obs (ngap_pdu_session_resource_release_procedure.logger_log info
              "Sending PduSessionResourceReleaseResponse") tt;
       Obs (ngap_pdu_session_resource_release_procedure.on_new_message
              {| ngap_pdu_session_resource_release_procedure.amf_ue_ngap_id :=
                   ngap_pdu_session_resource_release_procedure.amf_ue_id
                     (ngap_pdu_session_resource_release_procedure.ue_ids p);
                 ngap_pdu_session_resource_release_procedure.ran_ue_ngap_id :=
                   ngap_pdu_session_resource_release_procedure.ran_ue_id
                     (ngap_pdu_session_resource_release_procedure.ue_ids p);
                 ngap_pdu_session_resource_release_procedure.pdu_session_res_release_resp :=
                   ies |}) tt]
  end.

(** * Test data *)

(** Bytes 0, 1, ..., 250, 0, 1, ... *)
Definition pattern (n : nat) : list byte :=
  (fun k => default x00 (Byte.of_nat (k mod 251))) <$> seq 0 n.

Definition raw_zeros : addr → list byte := fun _ => repeat x00 256.

(** Append [pattern n] to the empty buffer and read [n] bytes back from
    [begin()]. *)
Definition append_then_read (n : nat) : outcome (list byte) :=
  '(h, b) ← byte_buffer.append raw_zeros [] byte_buffer.empty_buffer (pattern n);
  byte_buffer_iterator_impl.read h (byte_buffer.begin b) n.

Definition zeros : list byte := repeat x00 256.

(** A default-constructed segment: headroom 16, no payload. *)
Definition segment_16 : byte_buffer_segment.t :=
  {| byte_buffer_segment.metadata_ := byte_buffer_segment.metadata_default;
     byte_buffer_segment.buffer := zeros;
     byte_buffer_segment.payload_data_ := 16;
     byte_buffer_segment.payload_data_end_ := 16 |}.

(** A linked segment with three bytes of payload. *)
Definition segment_abc : byte_buffer_segment.t :=
  {| byte_buffer_segment.metadata_ :=
       {| byte_buffer_segment.next := Some 1%nat;
          byte_buffer_segment.tail := Some 1%nat;
          byte_buffer_segment.pkt_len := 3 |};
     byte_buffer_segment.buffer := list_inserts 16 [x61; x62; x63] zeros;
     byte_buffer_segment.payload_data_ := 16;
     byte_buffer_segment.payload_data_end_ := 19 |}.

(** Two linked segments: the bytes "abc", then the bytes "de". *)
Definition segment_de : byte_buffer_segment.t :=
  {| byte_buffer_segment.metadata_ := byte_buffer_segment.metadata_default;
     byte_buffer_segment.buffer := list_inserts 0 [x64; x65] zeros;
     byte_buffer_segment.payload_data_ := 0;
     byte_buffer_segment.payload_data_end_ := 2 |}.

Definition heap_abcde : byte_buffer_segment.heap := [segment_abc; segment_de].

(** A linked segment without payload, as [trim_tail] or [resize] leave one. *)
Definition segment_payloadless : byte_buffer_segment.t :=
  {| byte_buffer_segment.metadata_ :=
       {| byte_buffer_segment.next := Some 2%nat;
          byte_buffer_segment.tail := None;
          byte_buffer_segment.pkt_len := 0 |};
     byte_buffer_segment.buffer := zeros;
     byte_buffer_segment.payload_data_ := 16;
     byte_buffer_segment.payload_data_end_ := 16 |}.

(** Three linked segments: "abc", no payload, "de". *)
Definition heap_abc_gap_de : byte_buffer_segment.heap :=
  [segment_abc; segment_payloadless; segment_de].

(** A segment whose 256 bytes are all payload. *)
Definition full_segment (nxt : option addr) : byte_buffer_segment.t :=
  {| byte_buffer_segment.metadata_ :=
       {| byte_buffer_segment.next := nxt;
          byte_buffer_segment.tail := None;
          byte_buffer_segment.pkt_len := 0 |};
     byte_buffer_segment.buffer := zeros;
     byte_buffer_segment.payload_data_ := 0;
     byte_buffer_segment.payload_data_end_ := 256 |}.

(** A heap of [N] full segments, each linked to the following one. *)
Definition full_heap (N : nat) : byte_buffer_segment.heap :=
  (fun k => full_segment (if decide (S k < N)%nat then Some (S k) else None)) <$> seq 0 N.

(** 2^24 + 1 segments: 4 GiB and 256 bytes of payload. *)
Definition nof_segments_4GiB : nat := Z.to_nat (2 ^ 24 + 1).

(** 2^32, as a number of advances. *)
Definition nof_bytes_4GiB : nat := Z.to_nat (2 ^ 32).

(** Append [pattern 300] to the buffer of [heap_abcde] and read 7 bytes back
    from [begin()]. *)
Definition append_abcde_then_read : outcome (list byte) :=
  '(h, b) ← byte_buffer.append raw_zeros heap_abcde {| byte_buffer.head := Some 0%nat |}
              (pattern 300);
  byte_buffer_iterator_impl.read h (byte_buffer.begin b) 7.

(** A request for the sessions 2 and 5, and a UP resource manager that has
    the session 2 only. *)
Definition request_2_5 :
    pdu_session_resource_modification_routine.cu_cp_pdu_session_resource_modify_request :=
  {| pdu_session_resource_modification_routine.ue_index := 0%nat;
     pdu_session_resource_modification_routine.pdu_session_res_modify_items :=
       [ {| pdu_session_resource_modification_routine.pdu_session_id := 2%nat;
            pdu_session_resource_modification_routine.transfer := [] |};
         {| pdu_session_resource_modification_routine.pdu_session_id := 5%nat;
            pdu_session_resource_modification_routine.transfer := [] |} ] |}.

(** A request for the session 2 only. *)
Definition request_2 :
    pdu_session_resource_modification_routine.cu_cp_pdu_session_resource_modify_request :=
  {| pdu_session_resource_modification_routine.ue_index := 0%nat;
     pdu_session_resource_modification_routine.pdu_session_res_modify_items :=
       [ {| pdu_session_resource_modification_routine.pdu_session_id := 2%nat;
            pdu_session_resource_modification_routine.transfer := [] |} ] |}.

Definition request_empty :
    pdu_session_resource_modification_routine.cu_cp_pdu_session_resource_modify_request :=
  {| pdu_session_resource_modification_routine.ue_index := 0%nat;
     pdu_session_resource_modification_routine.pdu_session_res_modify_items := [] |}.

Definition manager_2 : pdu_session_resource_modification_routine.up_resource_manager :=
  {| pdu_session_resource_modification_routine.pdu_sessions := {[ 2%nat ]} |}.

(** A release procedure whose responses are booleans: the ASN.1 response can
    be filled for [true] only. *)
Definition fill_if_true (response : bool) : option nat :=
  if response then Some 7%nat else None.

Definition release_procedure_3 : @ngap_pdu_session_resource_release_procedure.t nat :=
  {| ngap_pdu_session_resource_release_procedure.command := 3%nat;
     ngap_pdu_session_resource_release_procedure.ue_ids :=
       {| ngap_pdu_session_resource_release_procedure.ran_ue_id := 1;
          ngap_pdu_session_resource_release_procedure.amf_ue_id := 2 |} |}.

(** * Properties *)

(** ** Machine integers *)

Lemma to_size_t_range z : 0 ≤ to_size_t z < 2 ^ 64.
Proof. unfold to_size_t. apply Z.mod_pos_bound. lia. Qed.

Lemma to_size_t_small z : 0 ≤ z < 2 ^ 64 → to_size_t z = z.
Proof. intros. unfold to_size_t. by apply Z.mod_small. Qed.

Lemma to_size_t_idemp z : to_size_t (to_size_t z) = to_size_t z.
Proof. apply to_size_t_small, to_size_t_range. Qed.

(** Adding [k] to a pointer moves the wrapped value by [k] as long as the
    result stays a [size_t]. *)
Lemma to_size_t_shift z k :
  0 ≤ to_size_t z + k < 2 ^ 64 → to_size_t (z + k) = to_size_t z + k.
Proof.
  intros Hr. unfold to_size_t in *.
  rewrite <- Zplus_mod_idemp_l. by apply Z.mod_small.
Qed.

Lemma to_size_t_sub_r a z : to_size_t (a - to_size_t z) = to_size_t (a - z).
Proof. unfold to_size_t. by rewrite Zminus_mod_idemp_r. Qed.

Lemma to_ptrdiff_t_small z : - 2 ^ 63 ≤ z < 2 ^ 63 → to_ptrdiff_t z = z.
Proof. intros. unfold to_ptrdiff_t. rewrite Z.mod_small; lia. Qed.

Lemma to_ptrdiff_t_mod z : to_ptrdiff_t z mod 2 ^ 64 = z mod 2 ^ 64.
Proof.
  unfold to_ptrdiff_t.
  rewrite Zminus_mod_idemp_l. f_equal. lia.
Qed.

Lemma to_ptrdiff_t_congr x y : x mod 2 ^ 64 = y mod 2 ^ 64 → to_ptrdiff_t x = to_ptrdiff_t y.
Proof.
  intros Heq. unfold to_ptrdiff_t.
  rewrite <- (Zplus_mod_idemp_l x), <- (Zplus_mod_idemp_l y). by rewrite Heq.
Qed.

Lemma to_size_t_mod z : to_size_t z mod 2 ^ 64 = z mod 2 ^ 64.
Proof. unfold to_size_t. apply Z.mod_mod. lia. Qed.

Lemma to_unsigned_small z : 0 ≤ z < 2 ^ 32 → to_unsigned z = z.
Proof. intros. unfold to_unsigned. by apply Z.mod_small. Qed.

(** ** Writing a range into an array *)

Section array_facts.

Context {A : Type}.
Implicit Types (buf k : list A) (p e : nat).

Local Open Scope nat_scope.

Lemma list_inserts_split p k buf :
  p + List.length k ≤ List.length buf →
  list_inserts p k buf = take p buf ++ k ++ drop (p + List.length k) buf.
Proof.
  intros Hle.
  rewrite <- (take_drop p buf) at 1.
  replace p with (List.length (take p buf) + 0) at 1 by (rewrite length_take; lia).
  rewrite list_inserts_app_r. f_equal.
  rewrite <- (take_drop (List.length k) (drop p buf)) at 1.
  rewrite list_inserts_0_r, drop_drop; [done|].
  rewrite length_take, length_drop. lia.
Qed.

(** Reading back a range that was just written. *)
Lemma sublist_inserts_exact p k buf :
  p + List.length k ≤ List.length buf →
  take (List.length k) (drop p (list_inserts p k buf)) = k.
Proof.
  intros Hle. rewrite list_inserts_split by done.
  rewrite drop_app_length' by (rewrite length_take; lia).
  by rewrite take_app_length.
Qed.

(** Writing [k] right after the range [p, e) extends it at its end. *)
Lemma sublist_inserts_append p e k buf :
  p ≤ e → e + List.length k ≤ List.length buf →
  take (e - p + List.length k) (drop p (list_inserts e k buf))
  = take (e - p) (drop p buf) ++ k.
Proof.
  intros Hpe Hle. rewrite list_inserts_split by done.
  rewrite drop_app_le by (rewrite length_take; lia).
  rewrite (assoc_L (++)).
  rewrite take_app_length'.
  - f_equal. rewrite take_drop_commute. do 2 f_equal. lia.
  - rewrite length_app, length_drop, length_take. lia.
Qed.

(** Writing [k] right before the range [p, e) extends it at its start. *)
Lemma sublist_inserts_prepend p e k buf :
  List.length k ≤ p → p ≤ e → e ≤ List.length buf →
  take (e - (p - List.length k))
    (drop (p - List.length k) (list_inserts (p - List.length k) k buf))
  = k ++ take (e - p) (drop p buf).
Proof.
  intros Hk Hpe Hle. rewrite list_inserts_split by lia.
  rewrite drop_app_length' by (rewrite length_take; lia).
  replace (e - (p - List.length k)) with (List.length k + (e - p)) by lia.
  rewrite take_app_add. f_equal.
  by replace (p - List.length k + List.length k) with p by lia.
Qed.

(** A write leaves the cells outside its range alone. *)
Lemma list_inserts_outside p k buf i :
  i < p ∨ p + List.length k ≤ i →
  list_inserts p k buf !! i = buf !! i.
Proof.
  intros [Hlt|Hge].
  - by apply list_lookup_inserts_lt.
  - by apply list_lookup_inserts_ge.
Qed.

End array_facts.

(** ** The segment *)

Section segment_facts.

Import byte_buffer_segment.

Implicit Types (s : byte_buffer_segment.t) (bytes : list byte).

Lemma headroom_eq s : headroom s = to_size_t (payload_data_ s).
Proof. unfold headroom, data, begin. f_equal. lia. Qed.

Lemma length_nonneg s : 0 ≤ length s.
Proof. unfold length. apply to_size_t_range. Qed.

Lemma headroom_nonneg s : 0 ≤ headroom s.
Proof. unfold headroom. apply to_size_t_range. Qed.

Lemma tailroom_nonneg s : 0 ≤ tailroom s.
Proof. unfold tailroom. apply to_size_t_range. Qed.

(** The accessors of a segment whose pointers are in bounds. *)
Lemma wf_accessors s :
  segment_wf s →
  headroom s = payload_data_ s ∧
  length s = payload_data_end_ s - payload_data_ s ∧
  tailroom s = SEGMENT_SIZE - payload_data_end_ s ∧
  tailroom_start s = payload_data_end_ s.
Proof.
  intros (H0 & H1 & H2 & _). unfold begin, end_, SEGMENT_SIZE in *.
  assert (Hh : headroom s = payload_data_ s).
  { rewrite headroom_eq. apply to_size_t_small. lia. }
  assert (Hl : length s = payload_data_end_ s - payload_data_ s).
  { unfold length, begin, end_. apply to_size_t_small. lia. }
  repeat split; [done | done | |].
  - unfold tailroom, end_, SEGMENT_SIZE. apply to_size_t_small. lia.
  - unfold tailroom_start. rewrite Hh, Hl, to_size_t_small; lia.
Qed.

Lemma wf_invariant s : segment_wf s → segment_invariant s.
Proof.
  intros Hwf. destruct (wf_accessors s Hwf) as (Hh & Hl & Ht & _).
  unfold segment_invariant, capacity. lia.
Qed.

Lemma wf_invariant_ptrs s :
  0 ≤ payload_data_ s ∧ payload_data_ s ≤ payload_data_end_ s ∧
  payload_data_end_ s ≤ SEGMENT_SIZE →
  segment_invariant s.
Proof.
  intros (H0 & H1 & H2). unfold SEGMENT_SIZE in *.
  unfold segment_invariant, capacity, headroom, length, tailroom, data, begin, end_,
    SEGMENT_SIZE.
  rewrite !to_size_t_small; lia.
Qed.

(** Conversely, representable pointers that satisfy the equation are in
    bounds and in order. *)
Lemma invariant_in_bounds s :
  segment_invariant s →
  0 ≤ payload_data_ s < 2 ^ 64 → 0 ≤ payload_data_end_ s < 2 ^ 64 →
  0 ≤ begin s ∧ begin s ≤ end_ s ∧ end_ s ≤ SEGMENT_SIZE.
Proof.
  unfold segment_invariant, capacity, headroom, length, tailroom, data, begin, end_,
    SEGMENT_SIZE, to_size_t.
  intros Heq Hp He.
  rewrite Z.sub_0_r, (Z.mod_small (payload_data_ s)) in Heq by lia.
  assert (H1 := Z.mod_pos_bound (payload_data_end_ s - payload_data_ s) (2 ^ 64) ltac:(lia)).
  assert (H2 := Z.mod_pos_bound (256 - payload_data_end_ s) (2 ^ 64) ltac:(lia)).
  destruct (decide (payload_data_end_ s ≤ 256)) as [Hle|Hgt].
  - rewrite (Z.mod_small (256 - _)) in Heq by lia.
    destruct (decide (payload_data_ s ≤ payload_data_end_ s)) as [|Hlt]; [lia|].
    exfalso.
    replace (payload_data_end_ s - payload_data_ s)
      with ((payload_data_end_ s - payload_data_ s + 2 ^ 64) + (-1) * 2 ^ 64) in Heq by lia.
    rewrite Z.mod_add, Z.mod_small in Heq; lia.
  - exfalso.
    replace (256 - payload_data_end_ s)
      with ((256 - payload_data_end_ s + 2 ^ 64) + (-1) * 2 ^ 64) in Heq by lia.
    rewrite Z.mod_add, (Z.mod_small (256 - _ + _)) in Heq; lia.
Qed.

(** Moving the two payload pointers keeps the equation as long as none of
    the three regions becomes negative. *)
Lemma invariant_move s s' dp de :
  payload_data_ s' = payload_data_ s + dp →
  payload_data_end_ s' = payload_data_end_ s + de →
  segment_invariant s →
  0 ≤ headroom s + dp → 0 ≤ length s + (de - dp) → 0 ≤ tailroom s - de →
  headroom s' = headroom s + dp ∧
  length s' = length s + (de - dp) ∧
  tailroom s' = tailroom s - de ∧
  segment_invariant s'.
Proof.
  intros Hp He Hinv Hh Hl Ht.
  unfold segment_invariant, capacity, SEGMENT_SIZE in *.
  assert (Hh' : headroom s' = headroom s + dp).
  { rewrite !headroom_eq, Hp. apply to_size_t_shift. rewrite <- headroom_eq. lia. }
  assert (Hl' : length s' = length s + (de - dp)).
  { unfold length, begin, end_. rewrite Hp, He.
    replace (payload_data_end_ s + de - (payload_data_ s + dp))
      with (payload_data_end_ s - payload_data_ s + (de - dp)) by lia.
    apply to_size_t_shift.
    change (to_size_t (payload_data_end_ s - payload_data_ s)) with (length s). lia. }
  assert (Ht' : tailroom s' = tailroom s - de).
  { unfold tailroom, end_, SEGMENT_SIZE. rewrite He.
    replace (256 - (payload_data_end_ s + de)) with (256 - payload_data_end_ s + - de) by lia.
    rewrite to_size_t_shift; [lia|].
    change (to_size_t (256 - payload_data_end_ s)) with (tailroom s). lia. }
  repeat split; [done..|]. lia.
Qed.

Lemma assert_bind {A} (c : bool) (msg : string) (k : unit → outcome A) :
  srsgnb_assert c msg ≫= k = if c then k tt else Abort msg.
Proof. by destruct c. Qed.

Lemma sanity_check_bind {A} (c : bool) (msg : string) (k : unit → outcome A) :
  srsgnb_sanity_check c msg ≫= k = if c then k tt else Abort msg.
Proof. by destruct c. Qed.

Lemma make_invariant raw h :
  to_size_t h ≤ capacity →
  ∃ s, make raw h = Done s ∧ segment_invariant s.
Proof.
  intros Hh. unfold make. eexists. split; [reflexivity|].
  apply wf_invariant_ptrs; simpl; unfold capacity, SEGMENT_SIZE in *.
  pose proof (to_size_t_range h). lia.
Qed.


Lemma copy_construct_invariant raw other :
  segment_invariant other →
  on_return segment_invariant (copy_construct raw other) ∧
  on_return segment_invariant (move_construct raw other).
Proof.
  intros Hinv. unfold copy_construct, move_construct.
  destruct (read_payload other) as [src| |]; simpl; [|done..].
  destruct (std_copy _ _ _) as [buf| |]; simpl; [|done..].
  pose proof (headroom_nonneg other). pose proof (length_nonneg other).
  pose proof (tailroom_nonneg other).
  unfold segment_invariant, capacity, SEGMENT_SIZE in Hinv.
  assert (Hts : tailroom_start other = headroom other + length other).
  { unfold tailroom_start. apply to_size_t_small. lia. }
  split; apply wf_invariant_ptrs; simpl; unfold SEGMENT_SIZE; lia.
Qed.

Lemma append_invariant : preserves_invariant append.
Proof.
  intros s bytes Hinv. unfold append. rewrite sanity_check_bind.
  destruct (_ <=? _) eqn:Hc; [|done]. apply Z.leb_le in Hc.
  destruct (std_copy _ _ _) as [buf| |]; [|done..]. simpl.
  pose proof (headroom_nonneg s). pose proof (length_nonneg s).
  eapply (invariant_move s _ 0 (Z.of_nat (List.length bytes))); simpl; unfold end_; first [done | lia].
Qed.

Lemma append_byte_invariant : preserves_invariant append_byte.
Proof.
  intros s b Hinv. unfold append_byte. rewrite assert_bind.
  destruct (_ <=? _) eqn:Hc; [|done]. apply Z.leb_le in Hc.
  destruct (std_copy _ _ _) as [buf| |]; [|done..]. simpl.
  pose proof (headroom_nonneg s). pose proof (length_nonneg s).
  eapply (invariant_move s _ 0 1); simpl; first [done | lia].
Qed.

Lemma prepend_invariant : preserves_invariant prepend.
Proof.
  intros s bytes Hinv. unfold prepend. rewrite assert_bind.
  destruct (_ <=? _) eqn:Hc; [|done]. apply Z.leb_le in Hc.
  destruct (std_copy _ _ _) as [buf| |]; [|done..]. simpl.
  pose proof (tailroom_nonneg s). pose proof (length_nonneg s).
  eapply (invariant_move s _ (- Z.of_nat (List.length bytes)) 0); simpl; first [done | lia].
Qed.

Lemma reserve_prepend_invariant : preserves_invariant reserve_prepend.
Proof.
  intros s n Hinv. unfold reserve_prepend. rewrite assert_bind.
  destruct (_ <=? _) eqn:Hc; [|done]. apply Z.leb_le in Hc. simpl.
  pose proof (tailroom_nonneg s). pose proof (length_nonneg s).
  pose proof (to_size_t_range n).
  eapply (invariant_move s _ (- to_size_t n) 0); simpl; first [done | lia].
Qed.

Lemma trim_head_invariant : preserves_invariant trim_head.
Proof.
  intros s n Hinv. unfold trim_head. rewrite assert_bind.
  destruct (_ <=? _) eqn:Hc; [|done]. apply Z.leb_le in Hc. simpl.
  pose proof (tailroom_nonneg s). pose proof (headroom_nonneg s).
  pose proof (to_size_t_range n).
  eapply (invariant_move s _ (to_size_t n) 0); simpl; first [done | lia].
Qed.

Lemma trim_tail_invariant : preserves_invariant trim_tail.
Proof.
  intros s n Hinv. unfold trim_tail. rewrite assert_bind.
  destruct (_ <=? _) eqn:Hc; [|done]. apply Z.leb_le in Hc. simpl.
  pose proof (tailroom_nonneg s). pose proof (headroom_nonneg s).
  pose proof (to_size_t_range n).
  eapply (invariant_move s _ 0 (- to_size_t n)); simpl; first [done | lia].
Qed.

Lemma resize_invariant : preserves_invariant resize.
Proof.
  intros s n Hinv. unfold resize. rewrite assert_bind.
  destruct (_ <=? _) eqn:Hc; [|done]. apply Z.leb_le in Hc. simpl.
  pose proof (tailroom_nonneg s). pose proof (headroom_nonneg s).
  pose proof (length_nonneg s). pose proof (to_size_t_range n).
  assert (Hcap : to_size_t (capacity - headroom s) = capacity - headroom s).
  { apply to_size_t_small. unfold segment_invariant, capacity, SEGMENT_SIZE in *. lia. }
  rewrite Hcap in Hc.
  unfold segment_invariant, capacity, SEGMENT_SIZE in *.
  assert (Hl' : length {| metadata_ := metadata_ s; buffer := buffer s;
                          payload_data_ := payload_data_ s;
                          payload_data_end_ := payload_data_ s + to_size_t n |}
                = to_size_t n).
  { unfold length, begin, end_; simpl.
    replace (payload_data_ s + to_size_t n - payload_data_ s) with (to_size_t n) by lia.
    apply to_size_t_idemp. }
  assert (Ht' : tailroom {| metadata_ := metadata_ s; buffer := buffer s;
                            payload_data_ := payload_data_ s;
                            payload_data_end_ := payload_data_ s + to_size_t n |}
                = 256 - headroom s - to_size_t n).
  { unfold tailroom, end_, SEGMENT_SIZE; simpl.
    replace (256 - (payload_data_ s + to_size_t n))
      with (256 - to_size_t n - payload_data_ s) by lia.
    rewrite <- to_size_t_sub_r, <- headroom_eq, to_size_t_small; lia. }
  rewrite Hl', Ht'.
  assert (Hh' : headroom {| metadata_ := metadata_ s; buffer := buffer s;
                            payload_data_ := payload_data_ s;
                            payload_data_end_ := payload_data_ s + to_size_t n |}
                = headroom s) by done.
  rewrite Hh'. lia.
Qed.

(** *** What the operations do on a segment whose pointers are in bounds *)

Lemma std_copy_done src buf dst :
  0 ≤ dst → dst + Z.of_nat (List.length src) ≤ Z.of_nat (List.length buf) →
  std_copy src buf dst = Done (list_inserts (Z.to_nat dst) src buf).
Proof. intros. unfold std_copy. by rewrite decide_True. Qed.

Lemma read_payload_done s : segment_wf s → read_payload s = Done (payload s).
Proof.
  intros (H0 & H1 & H2 & Hlen). unfold read_payload.
  rewrite decide_True; [done|]. lia.
Qed.

Lemma payload_wf s :
  segment_wf s →
  payload s = take (Z.to_nat (payload_data_end_ s) - Z.to_nat (payload_data_ s))%nat
                (drop (Z.to_nat (payload_data_ s)) (buffer s)).
Proof.
  intros Hwf. destruct (wf_accessors s Hwf) as (_ & Hl & _).
  destruct Hwf as (H0 & H1 & _). unfold begin, end_ in *.
  unfold payload, begin. rewrite Hl. f_equal. lia.
Qed.

Lemma payload_length s :
  segment_wf s → Z.of_nat (List.length (payload s)) = length s.
Proof.
  intros Hwf. rewrite payload_wf by done.
  destruct (wf_accessors s Hwf) as (_ & Hl & _).
  destruct Hwf as (H0 & H1 & H2 & Hlen). unfold begin, end_, SEGMENT_SIZE in *.
  rewrite length_take, length_drop. lia.
Qed.

(** The payload, byte by byte. *)
Lemma payload_lookup s i :
  segment_wf s → (Z.of_nat i < length s) →
  payload s !! i = buffer s !! Z.to_nat (data s + Z.of_nat i).
Proof.
  intros Hwf Hi. unfold payload.
  destruct Hwf as (H0 & _). unfold data, begin in *.
  rewrite lookup_take_lt by lia. rewrite lookup_drop. f_equal. lia.
Qed.

Lemma append_spec s bytes :
  segment_wf s → Z.of_nat (List.length bytes) ≤ tailroom s →
  ∃ s', append s bytes = Done s' ∧
        segment_wf s' ∧
        payload s' = payload s ++ bytes ∧
        metadata_ s' = metadata_ s ∧
        payload_data_ s' = payload_data_ s ∧
        payload_data_end_ s' = payload_data_end_ s + Z.of_nat (List.length bytes).
Proof.
  intros Hwf Hn. destruct (wf_accessors s Hwf) as (Hh & Hl & Ht & _).
  pose proof Hwf as (H0 & H1 & H2 & Hlen). unfold begin, end_, SEGMENT_SIZE in *.
  unfold append. rewrite sanity_check_bind.
  rewrite (proj2 (Z.leb_le _ _) Hn).
  rewrite std_copy_done by (unfold end_; lia). simpl.
  eexists. split; [reflexivity|].
  assert (Hwf' : segment_wf
    {| metadata_ := metadata_ s;
       buffer := list_inserts (Z.to_nat (end_ s)) bytes (buffer s);
       payload_data_ := payload_data_ s;
       payload_data_end_ := end_ s + Z.of_nat (List.length bytes) |}).
  { unfold segment_wf, begin, end_, SEGMENT_SIZE; simpl. rewrite length_inserts. lia. }
  split; [done|]. split; [|done].
  rewrite (payload_wf _ Hwf'), (payload_wf _ Hwf); simpl. unfold end_.
  rewrite <- sublist_inserts_append by lia.
  f_equal. lia.
Qed.

Lemma prepend_spec s bytes :
  segment_wf s → Z.of_nat (List.length bytes) ≤ headroom s →
  ∃ s', prepend s bytes = Done s' ∧
        segment_wf s' ∧
        payload s' = bytes ++ payload s ∧
        metadata_ s' = metadata_ s ∧
        payload_data_ s' = payload_data_ s - Z.of_nat (List.length bytes) ∧
        payload_data_end_ s' = payload_data_end_ s.
Proof.
  intros Hwf Hn. destruct (wf_accessors s Hwf) as (Hh & Hl & Ht & _).
  pose proof Hwf as (H0 & H1 & H2 & Hlen). unfold begin, end_, SEGMENT_SIZE in *.
  unfold prepend. rewrite assert_bind.
  rewrite (proj2 (Z.leb_le _ _) Hn).
  rewrite std_copy_done by lia. simpl.
  eexists. split; [reflexivity|].
  assert (Hwf' : segment_wf
    {| metadata_ := metadata_ s;
       buffer := list_inserts (Z.to_nat (payload_data_ s - Z.of_nat (List.length bytes)))
                   bytes (buffer s);
       payload_data_ := payload_data_ s - Z.of_nat (List.length bytes);
       payload_data_end_ := payload_data_end_ s |}).
  { unfold segment_wf, begin, end_, SEGMENT_SIZE; simpl. rewrite length_inserts. lia. }
  split; [done|]. split; [|done].
  rewrite (payload_wf _ Hwf'), (payload_wf _ Hwf); simpl.
  replace (Z.to_nat (payload_data_ s - Z.of_nat (List.length bytes)))
    with (Z.to_nat (payload_data_ s) - List.length bytes)%nat by lia.
  apply sublist_inserts_prepend; lia.
Qed.

Lemma prepend_abort s bytes :
  headroom s < Z.of_nat (List.length bytes) →
  prepend s bytes = Abort "There is not enough headroom space.".
Proof.
  intros Hn. unfold prepend. rewrite assert_bind.
  by rewrite (proj2 (Z.leb_gt _ _) Hn).
Qed.

(** On a segment whose pointers are in bounds, every mutating operation
    returns exactly when its assertion holds, and leaves the pointers in
    bounds. *)
Lemma mutators_guarded s :
  segment_wf s →
  (∀ bytes, guarded (Z.of_nat (List.length bytes) ≤ tailroom s) (append s bytes)) ∧
  (∀ b, guarded (1 ≤ tailroom s) (append_byte s b)) ∧
  (∀ bytes, guarded (Z.of_nat (List.length bytes) ≤ headroom s) (prepend s bytes)) ∧
  (∀ n, guarded (to_size_t n ≤ headroom s) (reserve_prepend s n)) ∧
  (∀ n, guarded (to_size_t n ≤ length s) (trim_head s n)) ∧
  (∀ n, guarded (to_size_t n ≤ length s) (trim_tail s n)) ∧
  (∀ n, guarded (to_size_t n ≤ capacity - headroom s) (resize s n)).
Proof.
  intros Hwf. destruct (wf_accessors s Hwf) as (Hh & Hl & Ht & Hts).
  pose proof Hwf as (H0 & H1 & H2 & Hlen).
  unfold begin, end_, SEGMENT_SIZE, capacity in *.
  split_and!.
  - intros bytes. unfold append. rewrite sanity_check_bind.
    destruct (Z.leb_spec (Z.of_nat (List.length bytes)) (tailroom s)); simpl; [|lia].
    rewrite std_copy_done by (unfold end_; lia). simpl. split; [done|].
    unfold segment_wf, begin, end_, SEGMENT_SIZE; simpl. rewrite length_inserts. lia.
  - intros b. unfold append_byte. rewrite assert_bind.
    destruct (Z.leb_spec 1 (tailroom s)); simpl; [|lia].
    rewrite std_copy_done by (simpl; lia). simpl. split; [done|].
    unfold segment_wf, begin, end_, SEGMENT_SIZE; simpl. rewrite length_insert. lia.
  - intros bytes. unfold prepend. rewrite assert_bind.
    destruct (Z.leb_spec (Z.of_nat (List.length bytes)) (headroom s)); simpl; [|lia].
    rewrite std_copy_done by lia. simpl. split; [done|].
    unfold segment_wf, begin, end_, SEGMENT_SIZE; simpl. rewrite length_inserts. lia.
  - intros n. pose proof (to_size_t_range n). unfold reserve_prepend. rewrite assert_bind.
    destruct (Z.leb_spec (to_size_t n) (headroom s)); simpl; [|lia]. split; [done|].
    unfold segment_wf, begin, end_, SEGMENT_SIZE; simpl. lia.
  - intros n. pose proof (to_size_t_range n). unfold trim_head. rewrite assert_bind.
    destruct (Z.leb_spec (to_size_t n) (length s)); simpl; [|lia]. split; [done|].
    unfold segment_wf, begin, end_, SEGMENT_SIZE; simpl. lia.
  - intros n. pose proof (to_size_t_range n). unfold trim_tail. rewrite assert_bind.
    destruct (Z.leb_spec (to_size_t n) (length s)); simpl; [|lia]. split; [done|].
    unfold segment_wf, begin, end_, SEGMENT_SIZE; simpl. lia.
  - intros n. pose proof (to_size_t_range n). unfold resize, capacity, SEGMENT_SIZE.
    rewrite assert_bind. rewrite (to_size_t_small (256 - headroom s)) by lia.
    destruct (Z.leb_spec (to_size_t n) (256 - headroom s)); simpl; [|lia]. split; [done|].
    unfold segment_wf, begin, end_, SEGMENT_SIZE; simpl. lia.
Qed.

(** The body shared by the copy and move operations. *)
Lemma copy_body_spec (m : metadata_storage) (raw : list byte) other :
  segment_wf other → Z.of_nat (List.length raw) = SEGMENT_SIZE →
  ∃ s', (src ← read_payload other;
         buf ← std_copy src raw (0 + headroom other);
         mret {| metadata_ := m; buffer := buf;
                 payload_data_ := 0 + headroom other;
                 payload_data_end_ := 0 + tailroom_start other |}) = Done s' ∧
        segment_wf s' ∧
        metadata_ s' = m ∧
        payload s' = payload other ∧
        payload_data_ s' = payload_data_ other ∧
        payload_data_end_ s' = payload_data_end_ other ∧
        List.length (buffer s') = List.length raw ∧
        (∀ i, (Z.of_nat i < payload_data_ other ∨ payload_data_end_ other ≤ Z.of_nat i) →
              buffer s' !! i = raw !! i).
Proof.
  intros Hwf Hraw. destruct (wf_accessors other Hwf) as (Hh & Hl & Ht & Hts).
  pose proof (payload_length other Hwf) as Hpl.
  pose proof Hwf as (H0 & H1 & H2 & Hlen). unfold begin, end_, SEGMENT_SIZE in *.
  rewrite read_payload_done by done. simpl.
  rewrite std_copy_done by lia. simpl.
  eexists. split; [reflexivity|].
  rewrite Hh, Hts, !Z.add_0_l.
  assert (Hwf' : segment_wf
    {| metadata_ := m;
       buffer := list_inserts (Z.to_nat (payload_data_ other)) (payload other) raw;
       payload_data_ := payload_data_ other;
       payload_data_end_ := payload_data_end_ other |}).
  { unfold segment_wf, begin, end_, SEGMENT_SIZE; simpl. rewrite length_inserts. lia. }
  split; [done|]. split; [done|]. split.
  { rewrite (payload_wf _ Hwf'); simpl.
    replace (Z.to_nat (payload_data_end_ other) - Z.to_nat (payload_data_ other))%nat
      with (List.length (payload other)) by lia.
    apply sublist_inserts_exact. lia. }
  repeat split; simpl.
  - by rewrite length_inserts.
  - intros i Hi. apply list_inserts_outside. lia.
Qed.

End segment_facts.


(** Where the code keeps the segment equation.  headroom() + length() +
    tailroom() equals capacity(), which is 256, after construction with a
    headroom that does not exceed the capacity, by default, by copy or by
    move, and each mutating operation (append of a range, append of a byte,
    prepend, reserve_prepend, trim_head, trim_tail, resize) that returns
    leaves a segment in which the equation holds again; length() is never
    negative.  The equation is stated on the values of the three accessors,
    without wrap-around of the sum. *)
Theorem segment_equation_invariant :
  byte_buffer_segment.capacity = 256 ∧
  (∀ raw headroom,
     to_size_t headroom ≤ byte_buffer_segment.capacity →
     ∃ s, byte_buffer_segment.make raw headroom = Done s ∧ segment_invariant s) ∧
  (∀ raw, ∃ s, byte_buffer_segment.make_default raw = Done s ∧ segment_invariant s) ∧
  (∀ raw other, segment_invariant other →
     on_return segment_invariant (byte_buffer_segment.copy_construct raw other) ∧
     on_return segment_invariant (byte_buffer_segment.move_construct raw other)) ∧
  preserves_invariant byte_buffer_segment.append ∧
  preserves_invariant byte_buffer_segment.append_byte ∧
  preserves_invariant byte_buffer_segment.prepend ∧
  preserves_invariant byte_buffer_segment.reserve_prepend ∧
  preserves_invariant byte_buffer_segment.trim_head ∧
  preserves_invariant byte_buffer_segment.trim_tail ∧
  preserves_invariant byte_buffer_segment.resize ∧
  (∀ s, 0 ≤ byte_buffer_segment.length s).
Proof.
  split; [done|]. split; [apply make_invariant|]. split.
  { intros raw. apply (make_invariant raw byte_buffer_segment.DEFAULT_HEADROOM). done. }
  split; [apply copy_construct_invariant|].
  auto 10 using append_invariant, append_byte_invariant, prepend_invariant,
    reserve_prepend_invariant, trim_head_invariant, trim_tail_invariant,
    resize_invariant, length_nonneg.
Qed.


Lemma segment_equation_invariant_witness :
  segment_invariant segment_abc ∧
  on_return segment_invariant (byte_buffer_segment.trim_head segment_abc 2) ∧
  on_return segment_invariant (byte_buffer_segment.append segment_abc [x64; x65]).
Proof.
  assert (H : segment_invariant segment_abc) by reflexivity.
  destruct segment_equation_invariant as (_ & _ & _ & _ & Happend & _ & _ & _ & Htrim & _).
  split; [exact H|]. split.
  - exact (Htrim segment_abc 2 H).
  - exact (Happend segment_abc [x64; x65] H).
Defined.


(** C5, as the code has it.  prepend(bytes) asserts headroom() >= len(bytes):
    when the headroom is insufficient the assertion fails and the process is
    aborted with the diagnostic "There is not enough headroom space."; the
    call does not return to its caller.  Under the precondition
    headroom() >= len(bytes), after prepend the payload is bytes followed by
    the previous payload, headroom() has decreased by len(bytes) and length()
    has increased by len(bytes). *)
Theorem prepend_contract (s : byte_buffer_segment.t) (bytes : list byte) :
  segment_wf s →
  (byte_buffer_segment.headroom s < Z.of_nat (List.length bytes) →
     byte_buffer_segment.prepend s bytes = Abort "There is not enough headroom space.") ∧
  (Z.of_nat (List.length bytes) ≤ byte_buffer_segment.headroom s →
     ∃ s', byte_buffer_segment.prepend s bytes = Done s' ∧
           byte_buffer_segment.payload s' = bytes ++ byte_buffer_segment.payload s ∧
           byte_buffer_segment.headroom s' =
             byte_buffer_segment.headroom s - Z.of_nat (List.length bytes) ∧
           byte_buffer_segment.length s' =
             byte_buffer_segment.length s + Z.of_nat (List.length bytes)).
Proof.
  intros Hwf. split; [apply prepend_abort|].
  intros Hn. destruct (prepend_spec s bytes Hwf Hn) as (s' & Hs' & Hwf' & Hp & _ & Hb & He).
  exists s'. split; [done|]. split; [done|].
  destruct (wf_accessors s Hwf) as (Hh & Hl & _).
  destruct (wf_accessors s' Hwf') as (Hh' & Hl' & _).
  rewrite Hh', Hl', Hh, Hl, Hb, He. lia.
Qed.

Lemma prepend_contract_witness :
  segment_wf segment_abc ∧
  byte_buffer_segment.prepend segment_16 (repeat x01 17)
    = Abort "There is not enough headroom space." ∧
  ∃ s', byte_buffer_segment.prepend segment_abc [x30; x31] = Done s' ∧
        byte_buffer_segment.payload s' = [x30; x31; x61; x62; x63] ∧
        byte_buffer_segment.headroom s' = 14 ∧
        byte_buffer_segment.length s' = 5.
Proof.
  assert (Hwf : segment_wf segment_abc) by (vm_compute; intuition discriminate).
  assert (Hwf16 : segment_wf segment_16) by (vm_compute; intuition discriminate).
  split; [exact Hwf|]. split.
  - apply (proj1 (prepend_contract segment_16 (repeat x01 17) Hwf16)). reflexivity.
  - apply (proj2 (prepend_contract segment_abc [x30; x31] Hwf)). vm_compute. discriminate.
Defined.

(** C5 as stated does not hold: with 16 bytes of headroom and 17 bytes to
    prepend, no error comes back to the caller; the call does not return. *)
Lemma prepend_error_not_returned :
  byte_buffer_segment.headroom segment_16 < Z.of_nat (List.length (repeat x01 17)) ∧
  ¬ returns (byte_buffer_segment.prepend segment_16 (repeat x01 17)).
Proof. split; [reflexivity|]. vm_compute. tauto. Qed.

(** ** Copying a segment *)

Section copy_facts.

Import byte_buffer_segment.

Lemma same_pointers_same_accessors (s s' : byte_buffer_segment.t) :
  payload_data_ s' = payload_data_ s → payload_data_end_ s' = payload_data_end_ s →
  headroom s' = headroom s ∧ length s' = length s ∧ tailroom s' = tailroom s.
Proof.
  intros Hp He. unfold headroom, length, tailroom, data, begin, end_.
  by rewrite Hp, He.
Qed.

Lemma assign_body_spec (d s : byte_buffer_segment.t) :
  segment_wf s → Z.of_nat (List.length (buffer d)) = SEGMENT_SIZE →
  ∃ d', assign_body d s = Done d' ∧
        metadata d' = metadata d ∧
        payload d' = payload s ∧
        headroom d' = headroom s ∧
        length d' = length s ∧
        (∀ i, (Z.of_nat i < headroom s ∨ headroom s + length s ≤ Z.of_nat i) →
              buffer d' !! i = buffer d !! i).
Proof.
  intros Hwf Hlen.
  destruct (copy_body_spec (metadata_ d) (buffer d) s Hwf Hlen)
    as (d' & Hd' & _ & Hm & Hpay & Hp & He & _ & Hout).
  destruct (same_pointers_same_accessors s d' Hp He) as (Hh & Hl & _).
  destruct (wf_accessors s Hwf) as (Hhs & Hls & _).
  exists d'. unfold assign_body. rewrite Hd'. repeat split; try done.
  intros i Hi. apply Hout. lia.
Qed.

Lemma assigned_insert (h : heap) (this other : addr) (d s d' : byte_buffer_segment.t) :
  h !! this = Some d → h !! other = Some s →
  metadata d' = metadata d → payload d' = payload s →
  headroom d' = headroom s → length d' = length s →
  (∀ i, (Z.of_nat i < headroom s ∨ headroom s + length s ≤ Z.of_nat i) →
        buffer d' !! i = buffer d !! i) →
  assigned h this other (<[this := d']> h).
Proof.
  intros Hd Hs Hm Hp Hh Hl Hout. exists d, s, d'.
  pose proof (lookup_lt_Some _ _ _ Hd) as Hlt.
  repeat split; try done.
  - by apply list_lookup_insert_eq.
  - intros a Ha. by apply list_lookup_insert_ne.
  - apply length_insert.
Qed.

End copy_facts.

(** C10.  Copying a segment never copies the source's list metadata.  A copy-
    or move-constructed segment has the payload bytes and the headroom of the
    source and default metadata (next and tail null, pkt_len zero).  Copy and
    move assignment give the destination the payload bytes and the headroom of
    the source, and leave its metadata, the bytes of its array outside the
    payload, and every other segment as they were. *)
Theorem copy_leaves_metadata
    (h : byte_buffer_segment.heap) (this other : addr)
    (d s : byte_buffer_segment.t) (raw : list byte) :
  h !! this = Some d → h !! other = Some s →
  segment_wf s →
  Z.of_nat (List.length (byte_buffer_segment.buffer d)) = byte_buffer_segment.SEGMENT_SIZE →
  Z.of_nat (List.length raw) = byte_buffer_segment.SEGMENT_SIZE →
  (∃ s', byte_buffer_segment.copy_construct raw s = Done s' ∧
         byte_buffer_segment.move_construct raw s = Done s' ∧
         byte_buffer_segment.payload s' = byte_buffer_segment.payload s ∧
         byte_buffer_segment.headroom s' = byte_buffer_segment.headroom s ∧
         byte_buffer_segment.next (byte_buffer_segment.metadata s') = None ∧
         byte_buffer_segment.tail (byte_buffer_segment.metadata s') = None ∧
         byte_buffer_segment.pkt_len (byte_buffer_segment.metadata s') = 0) ∧
  (∃ h', byte_buffer_segment.copy_assign h this other = Done h' ∧ assigned h this other h') ∧
  (∃ h', byte_buffer_segment.move_assign h this other = Done h' ∧ assigned h this other h').
Proof.
  intros Hd Hs Hwf Hlen Hraw. split; [|split].
  - destruct (copy_body_spec byte_buffer_segment.metadata_default raw s Hwf Hraw)
      as (s' & Hs' & _ & Hm & Hpay & Hp & He & _).
    destruct (same_pointers_same_accessors s s' Hp He) as (Hh & _).
    exists s'. unfold byte_buffer_segment.copy_construct, byte_buffer_segment.move_construct.
    rewrite Hs'. unfold byte_buffer_segment.metadata. rewrite Hm. by repeat split.
  - unfold byte_buffer_segment.copy_assign. rewrite Hd, Hs. simpl.
    case_decide as Hne.
    + destruct (assign_body_spec d s Hwf Hlen) as (d' & Hd' & Hm & Hp & Hh & Hl & Hout).
      rewrite Hd'. simpl. eexists. split; [reflexivity|].
      by eapply assigned_insert.
    + assert (this = other) as <- by (destruct (decide (this = other)); tauto).
      assert (d = s) as <- by congruence.
      exists h. split; [done|]. exists d, d, d. by repeat split.
  - unfold byte_buffer_segment.move_assign. rewrite Hd, Hs. simpl.
    destruct (assign_body_spec d s Hwf Hlen) as (d' & Hd' & Hm & Hp & Hh & Hl & Hout).
    rewrite Hd'. simpl. eexists. split; [reflexivity|].
    by eapply assigned_insert.
Qed.

Lemma copy_leaves_metadata_witness :
  ∃ s', byte_buffer_segment.copy_construct zeros segment_abc = Done s' ∧
        byte_buffer_segment.payload s' = [x61; x62; x63] ∧
        byte_buffer_segment.metadata s' = byte_buffer_segment.metadata_default.
Proof.
  assert (Hwf : segment_wf segment_abc) by (vm_compute; intuition discriminate).
  destruct (copy_leaves_metadata [segment_16; segment_abc] 0%nat 1%nat
              segment_16 segment_abc zeros eq_refl eq_refl Hwf eq_refl eq_refl)
    as [(s' & Hc & _ & Hp & _ & Hn & Ht & Hl) _].
  exists s'. split; [exact Hc|]. split; [exact Hp|].
  destruct s' as [[n t l] b p e]; simpl in *. by rewrite Hn, Ht, Hl.
Defined.

(** ** Lists of segments *)

Section chain_facts.

Import byte_buffer_segment.

Implicit Types (h : heap) (a : addr) (addrs : list addr) (start : option addr).

Lemma is_chain_functional h start l1 l2 :
  is_chain h start l1 → is_chain h start l2 → l1 = l2.
Proof.
  revert start l2. induction l1 as [|a l1 IH]; intros start [|b l2]; simpl.
  - done.
  - intros -> [? _]. done.
  - intros [-> _] ?. done.
  - intros [-> (s & Hs & H1)] [[= <-] (s' & Hs' & H2)].
    assert (s' = s) as -> by congruence.
    f_equal. by eapply IH.
Qed.

Lemma is_chain_app h start l1 l2 :
  is_chain h start (l1 ++ l2) →
  ∃ mid, is_chain h mid l2 ∧
         (∀ a l1', l1 = l1' ++ [a] → ∃ s, h !! a = Some s ∧ next_ s = mid) ∧
         (l1 = [] → mid = start).
Proof.
  revert start. induction l1 as [|a l1 IH]; intros start; simpl.
  - intros H. exists start. split; [done|]. split; [|done].
    intros a l1' Heq. by destruct l1'.
  - intros [-> (s & Hs & Hch)].
    destruct (IH _ Hch) as (mid & Hmid & Hlast & Hnil).
    exists mid. split; [done|]. split; [|done].
    intros b l1' Heq. destruct l1' as [|c l1'].
    + simplify_eq/=. exists s. split; [done|]. symmetry. by apply Hnil.
    + simplify_eq/=. by eapply Hlast.
Qed.

Lemma is_chain_suffix h start l1 a l2 :
  is_chain h start (l1 ++ a :: l2) → is_chain h (Some a) (a :: l2).
Proof.
  intros H. destruct (is_chain_app _ _ _ _ H) as (mid & Hmid & _).
  simpl in *. destruct Hmid as [-> ?]. done.
Qed.

(** A list that reaches [nullptr] visits no segment twice. *)
Lemma is_chain_NoDup h start addrs : is_chain h start addrs → NoDup addrs.
Proof.
  revert start. induction addrs as [|a addrs IH]; intros start; simpl.
  - constructor.
  - intros [-> (s & Hs & Hch)]. constructor; [|by eapply IH].
    intros Hin. apply list_elem_of_split in Hin as (l1 & l2 & ->).
    pose proof (is_chain_suffix _ _ _ _ _ Hch) as Hsuf.
    assert (Hfull : is_chain h (Some a) (a :: l1 ++ a :: l2)) by (simpl; eauto).
    pose proof (is_chain_functional _ _ _ _ Hsuf Hfull) as Heq.
    apply (f_equal List.length) in Heq. simpl in Heq.
    rewrite length_app in Heq. simpl in Heq. lia.
Qed.

Lemma is_chain_allocated h start addrs :
  is_chain h start addrs → Forall (fun a => (a < List.length h)%nat) addrs.
Proof.
  revert start. induction addrs as [|a addrs IH]; intros start; simpl.
  - constructor.
  - intros [-> (s & Hs & Hch)]. constructor; [|by eapply IH].
    by eapply lookup_lt_Some.
Qed.

(** So the list is no longer than the heap. *)
Lemma is_chain_length h start addrs :
  is_chain h start addrs → (List.length addrs ≤ List.length h)%nat.
Proof.
  intros Hch.
  pose proof (is_chain_NoDup _ _ _ Hch) as Hnd.
  pose proof (is_chain_allocated _ _ _ Hch) as Hlt.
  assert (Hsub : addrs ⊆+ seq 0 (List.length h)).
  { apply NoDup_submseteq; [done|]. intros a Ha.
    rewrite Forall_forall in Hlt. apply elem_of_seq. specialize (Hlt a Ha). lia. }
  apply submseteq_length in Hsub. by rewrite length_seq in Hsub.
Qed.

(** The list only depends on the [next] pointers of its segments. *)
Lemma is_chain_ext h h' start addrs :
  (∀ a, a ∈ addrs → next_ <$> h' !! a = next_ <$> h !! a) →
  is_chain h start addrs → is_chain h' start addrs.
Proof.
  revert start. induction addrs as [|a addrs IH]; intros start Hext; simpl; [done|].
  intros [-> (s & Hs & Hch)]. split; [done|].
  pose proof (Hext a ltac:(left)) as Ha. rewrite Hs in Ha. simpl in Ha.
  destruct (h' !! a) as [s'|] eqn:Hs'; [|done]. simplify_eq/=.
  exists s'. split; [done|]. rewrite Ha. apply IH; [|done].
  intros b Hb. apply Hext. by right.
Qed.

Lemma contents_ext h h' addrs :
  (∀ a, a ∈ addrs → payload_at h' a = payload_at h a) →
  contents h' addrs = contents h addrs.
Proof.
  intros Hext. unfold contents. f_equal. apply map_ext_in.
  intros a Ha. apply Hext. by apply list_elem_of_In.
Qed.

Lemma contents_app h l1 l2 : contents h (l1 ++ l2) = contents h l1 ++ contents h l2.
Proof. unfold contents. by rewrite map_app, concat_app. Qed.

Lemma contents_cons h a l : contents h (a :: l) = payload_at h a ++ contents h l.
Proof. done. Qed.

End chain_facts.

(** ** The byte iterator *)

Section iterator_facts.

Import byte_buffer_segment.
Import byte_buffer_iterator_impl.

Implicit Types (h : heap) (a : addr) (addrs : list addr) (start : option addr).

Lemma chain_ok_cons h a addrs :
  chain_ok h (a :: addrs) ↔
  (∃ s, h !! a = Some s ∧ segment_wf s ∧ 0 < byte_buffer_segment.length s) ∧
  chain_ok h addrs.
Proof. unfold chain_ok. by rewrite Forall_cons. Qed.

Lemma payload_at_length h a s :
  h !! a = Some s → segment_wf s →
  Z.of_nat (List.length (payload_at h a)) = byte_buffer_segment.length s.
Proof. intros Hs Hwf. unfold payload_at. rewrite Hs. simpl. by apply payload_length. Qed.

Lemma total_length_nil h : total_length h [] = 0.
Proof. done. Qed.

Lemma total_length_cons h a s addrs :
  h !! a = Some s → segment_wf s →
  total_length h (a :: addrs) = byte_buffer_segment.length s + total_length h addrs.
Proof.
  intros Hs Hwf. unfold total_length. rewrite contents_cons, length_app.
  rewrite <- (payload_at_length h a s) by done. lia.
Qed.

Lemma total_length_nonneg h addrs : 0 ≤ total_length h addrs.
Proof. unfold total_length. lia. Qed.

Lemma seek_cons_lt h a s addrs off :
  h !! a = Some s → off < byte_buffer_segment.length s →
  seek h (a :: addrs) off = make (Some a) off.
Proof. intros Hs Hlt. simpl. rewrite Hs. by rewrite (proj2 (Z.leb_gt _ _)). Qed.

Lemma seek_cons_ge h a s addrs off :
  h !! a = Some s → byte_buffer_segment.length s ≤ off →
  seek h (a :: addrs) off = seek h addrs (off - byte_buffer_segment.length s).
Proof. intros Hs Hlt. simpl. rewrite Hs. by rewrite (proj2 (Z.leb_le _ _)). Qed.

(** Offset 0 is the start of the list. *)
Lemma seek_zero h start addrs :
  is_chain h start addrs → chain_ok h addrs → seek h addrs 0 = make start 0.
Proof.
  destruct addrs as [|a addrs]; simpl.
  - by intros ->.
  - intros [-> _] [(s & Hs & _ & Hpos) _]%chain_ok_cons.
    rewrite Hs. by rewrite (proj2 (Z.leb_gt _ _)).
Qed.

(** The position after the last byte is the end iterator. *)
Lemma seek_total h addrs :
  chain_ok h addrs → seek h addrs (total_length h addrs) = make None 0.
Proof.
  induction addrs as [|a addrs IH]; [done|].
  intros [(s & Hs & Hwf & Hpos) Hok]%chain_ok_cons.
  rewrite (total_length_cons h a s) by done.
  pose proof (total_length_nonneg h addrs).
  rewrite (seek_cons_ge h a s) by (done || lia).
  replace (_ + _ - _) with (total_length h addrs) by lia. by apply IH.
Qed.

(** A position before the end is in a segment of the list, at an offset
    inside its payload. *)
Lemma seek_inside h addrs off :
  chain_ok h addrs → 0 ≤ off < total_length h addrs →
  ∃ a s, current_segment (seek h addrs off) = Some a ∧ a ∈ addrs ∧ h !! a = Some s ∧
         0 ≤ offset (seek h addrs off) < byte_buffer_segment.length s.
Proof.
  revert off. induction addrs as [|a addrs IH]; intros off.
  - rewrite total_length_nil. lia.
  - intros [(s & Hs & Hwf & Hpos) Hok]%chain_ok_cons Hoff.
    rewrite (total_length_cons h a s) in Hoff by done.
    destruct (decide (off < byte_buffer_segment.length s)) as [Hlt|Hge].
    + rewrite (seek_cons_lt h a s) by done. exists a, s. simpl.
      repeat split; (done || lia || by left).
    + rewrite (seek_cons_ge h a s) by (done || lia).
      destruct (IH (off - byte_buffer_segment.length s) Hok ltac:(lia))
        as (b & sb & Hb & Hin & Hsb & Hrange).
      exists b, sb. repeat split; (done || lia || by right).
Qed.

Lemma seek_segment_in h addrs off a :
  current_segment (seek h addrs off) = Some a → a ∈ addrs.
Proof.
  revert off. induction addrs as [|b addrs IH]; intros off; simpl; [done|].
  destruct (h !! b) as [s|]; [|done].
  destruct (_ <=? _).
  - intros H. right. by eapply IH.
  - simpl. intros [= ->]. by left.
Qed.

(** The loop of [operator+=] computes the position. *)
Lemma advance_loop_seek fuel h start addrs off :
  is_chain h start addrs → (List.length addrs < fuel)%nat → 0 ≤ off < 2 ^ 64 →
  advance_loop fuel h start off = Done (seek h addrs off).
Proof.
  revert fuel start off. induction addrs as [|a addrs IH]; intros fuel start off; simpl.
  - intros -> Hf _. destruct fuel; [lia|]. done.
  - intros [-> (s & Hs & Hch)] Hf Hoff. destruct fuel as [|fuel]; [lia|]. simpl.
    rewrite Hs. simpl.
    destruct (Z.leb_spec (byte_buffer_segment.length s) off); [|done].
    pose proof (length_nonneg s).
    rewrite to_size_t_small by lia. apply IH; [done|lia|lia].
Qed.

(** [operator*] reads the byte of the logical sequence at the position. *)
Lemma deref_seek h addrs off :
  chain_ok h addrs → 0 ≤ off < total_length h addrs →
  deref h (seek h addrs off) = of_option (contents h addrs !! Z.to_nat off).
Proof.
  revert off. induction addrs as [|a addrs IH]; intros off.
  - rewrite total_length_nil. lia.
  - intros [(s & Hs & Hwf & Hpos) Hok]%chain_ok_cons Hoff.
    rewrite (total_length_cons h a s) in Hoff by done.
    pose proof (payload_at_length h a s Hs Hwf) as Hlen.
    rewrite contents_cons.
    destruct (decide (off < byte_buffer_segment.length s)) as [Hlt|Hge].
    + rewrite (seek_cons_lt h a s) by done.
      rewrite lookup_app_l by lia.
      unfold deref; simpl. rewrite Hs; simpl.
      unfold load. pose proof Hwf as (H0 & ?). unfold data, begin in *.
      rewrite decide_True by lia. f_equal.
      unfold payload_at. rewrite Hs. simpl.
      replace off with (Z.of_nat (Z.to_nat off)) at 1 by lia.
      symmetry. apply payload_lookup; [done|lia].
    + rewrite (seek_cons_ge h a s) by (done || lia).
      rewrite lookup_app_r by lia.
      rewrite IH by (done || lia). do 2 f_equal. lia.
Qed.

(** [operator++] moves the position by one byte. *)
Lemma incr_seek h start addrs off :
  is_chain h start addrs → chain_ok h addrs → 0 ≤ off < total_length h addrs →
  incr h (seek h addrs off) = Done (seek h addrs (off + 1)).
Proof.
  revert start off. induction addrs as [|a addrs IH]; intros start off.
  - rewrite total_length_nil. lia.
  - intros [-> (s' & Hs' & Hch)] [(s & Hs & Hwf & Hpos) Hok]%chain_ok_cons Hoff.
    assert (s' = s) as -> by congruence.
    rewrite (total_length_cons h a s) in Hoff by done.
    destruct (wf_accessors s Hwf) as (_ & Hl & _).
    pose proof Hwf as (H0 & H1 & H2 & _). unfold begin, end_, SEGMENT_SIZE in *.
    destruct (decide (off < byte_buffer_segment.length s)) as [Hlt|Hge].
    + rewrite (seek_cons_lt h a s) by done.
      unfold incr; simpl. rewrite Hs; simpl.
      rewrite to_size_t_small by lia.
      destruct (Z.leb_spec (byte_buffer_segment.length s) (off + 1)).
      * replace (off + 1 - _) with 0 by lia.
        by rewrite (seek_zero h (next_ s)).
      * done.
    + rewrite !(seek_cons_ge h a s) by (done || lia).
      replace (off + 1 - byte_buffer_segment.length s)
        with (off - byte_buffer_segment.length s + 1) by lia.
      eapply IH; [done|done|lia].
Qed.

(** [n] times [operator++]. *)
Lemma incr_n_seek h start addrs off n :
  is_chain h start addrs → chain_ok h addrs →
  0 ≤ off → off + Z.of_nat n ≤ total_length h addrs →
  incr_n h (seek h addrs off) n = Done (seek h addrs (off + Z.of_nat n)).
Proof.
  intros Hch Hok. revert off. induction n as [|n IH]; intros off H0 Hn; simpl.
  - by rewrite Z.add_0_r.
  - rewrite (incr_seek h start) by (done || lia). simpl.
    rewrite IH by lia. do 2 f_equal. lia.
Qed.

(** Conversely, [n] advances that succeed stay inside the list. *)
Lemma incr_n_seek_inv h start addrs off n it :
  is_chain h start addrs → chain_ok h addrs →
  0 ≤ off ≤ total_length h addrs →
  incr_n h (seek h addrs off) n = Done it →
  off + Z.of_nat n ≤ total_length h addrs ∧ it = seek h addrs (off + Z.of_nat n).
Proof.
  intros Hch Hok. revert off. induction n as [|n IH]; intros off Hoff; simpl.
  - intros [= <-]. rewrite Z.add_0_r. split; [lia|done].
  - destruct (decide (off = total_length h addrs)) as [->|Hne].
    + rewrite seek_total by done. done.
    + rewrite (incr_seek h start) by (done || lia). simpl.
      intros Hit. apply IH in Hit as [Hle ->]; [|lia].
      split; [lia|]. f_equal. lia.
Qed.

(** Reading [n] bytes from a position gives the [n] bytes of the logical
    sequence that start there. *)
Lemma read_seek h start addrs off n :
  is_chain h start addrs → chain_ok h addrs →
  0 ≤ off → off + Z.of_nat n ≤ total_length h addrs →
  read h (seek h addrs off) n = Done (take n (drop (Z.to_nat off) (contents h addrs))).
Proof.
  intros Hch Hok. revert off. induction n as [|n IH]; intros off H0 Hn; simpl.
  - by rewrite take_0.
  - rewrite deref_seek by (done || lia).
    destruct (contents h addrs !! Z.to_nat off) as [b|] eqn:Hb.
    2:{ apply lookup_ge_None in Hb. unfold total_length in Hn. lia. }
    simpl. rewrite (incr_seek h start) by (done || lia). simpl.
    rewrite IH by lia. simpl.
    rewrite (drop_S _ b (Z.to_nat off)) by done. simpl.
    replace (Z.to_nat (off + 1)) with (S (Z.to_nat off)) by lia. done.
Qed.

(** A position splits the list into the segments passed and the segments
    from the iterator's segment on. *)
Lemma seek_split h start addrs pos :
  is_chain h start addrs → chain_ok h addrs → 0 ≤ pos ≤ total_length h addrs →
  ∃ passed rest,
    addrs = passed ++ rest ∧
    is_chain h (current_segment (seek h addrs pos)) rest ∧
    pos = total_length h passed + offset (seek h addrs pos).
Proof.
  revert start pos. induction addrs as [|a addrs IH]; intros start pos.
  - intros -> _ Hpos. exists [], []. rewrite total_length_nil in *.
    assert (pos = 0) as -> by lia. done.
  - intros Hch [(s & Hs & Hwf & Hlen) Hok]%chain_ok_cons Hpos.
    pose proof Hch as [-> (s' & Hs' & Hch')]. assert (s' = s) as -> by congruence.
    rewrite (total_length_cons h a s) in Hpos by done.
    destruct (decide (pos < byte_buffer_segment.length s)) as [Hlt|Hge].
    + rewrite (seek_cons_lt h a s) by done. exists [], (a :: addrs).
      rewrite total_length_nil. simpl. split; [done|]. split; [eauto|lia].
    + rewrite (seek_cons_ge h a s) by (done || lia).
      destruct (IH _ (pos - byte_buffer_segment.length s) Hch' Hok ltac:(lia))
        as (passed & rest & -> & Hrest & Hsum).
      exists (a :: passed), rest. split; [done|]. split; [done|].
      apply Forall_app in Hok as [Hok1 _].
      rewrite (total_length_cons h a s) by done. lia.
Qed.

(** The loop of [operator-] adds up the lengths of the segments passed. *)
Lemma distance_loop_seek fuel h start addrs pos acc :
  is_chain h start addrs → chain_ok h addrs → 0 ≤ pos ≤ total_length h addrs →
  (List.length addrs < fuel)%nat →
  ∃ d, distance_loop fuel h start (current_segment (seek h addrs pos)) acc = Done d ∧
       d mod 2 ^ 64 = (acc + (pos - offset (seek h addrs pos))) mod 2 ^ 64.
Proof.
  revert fuel start pos acc. induction addrs as [|a addrs IH]; intros fuel start pos acc.
  - intros -> _ Hpos Hf. destruct fuel; [simpl in Hf; lia|]. simpl.
    exists acc. split; [done|]. f_equal. lia.
  - intros Hch [(s & Hs & Hwf & Hlen) Hok]%chain_ok_cons Hpos Hf.
    pose proof (is_chain_NoDup _ _ _ Hch) as [Hnin _]%NoDup_cons.
    destruct Hch as [-> (s' & Hs' & Hch')]. assert (s' = s) as -> by congruence.
    rewrite (total_length_cons h a s) in Hpos by done.
    destruct fuel as [|fuel]; [simpl in Hf; lia|].
    destruct (decide (pos < byte_buffer_segment.length s)) as [Hlt|Hge].
    + rewrite (seek_cons_lt h a s) by done. simpl.
      rewrite decide_True by done. exists acc. split; [done|]. f_equal. lia.
    + rewrite (seek_cons_ge h a s) by (done || lia).
      cbn [distance_loop]. rewrite decide_False.
      2:{ intros Heq. symmetry in Heq. by apply seek_segment_in in Heq. }
      simpl. rewrite Hs. simpl.
      destruct (IH fuel _ (pos - byte_buffer_segment.length s)
                  (to_ptrdiff_t (acc + byte_buffer_segment.length s)) Hch' Hok
                  ltac:(lia) ltac:(simpl in Hf; lia)) as (d & Hd & Hmod).
      exists d. split; [done|]. rewrite Hmod.
      rewrite <- Zplus_mod_idemp_l, to_ptrdiff_t_mod, Zplus_mod_idemp_l.
      f_equal. lia.
Qed.

Lemma iterator_in_offset h it addrs :
  iterator_in h it addrs → 0 ≤ offset it ≤ total_length h addrs ∧ offset it ≤ 256.
Proof.
  intros (Hch & Hok & Hseek & H0 & Hnil).
  destruct addrs as [|a addrs].
  - rewrite Hnil by done. rewrite total_length_nil. lia.
  - apply chain_ok_cons in Hok as [(s & Hs & Hwf & Hlen) Hok].
    rewrite (total_length_cons h a s) by done.
    pose proof (total_length_nonneg h addrs).
    destruct (wf_accessors s Hwf) as (_ & Hl & _).
    destruct Hwf as (? & ? & ? & _). unfold begin, end_, SEGMENT_SIZE in *.
    destruct (decide (offset it < byte_buffer_segment.length s)) as [|Hge]; [lia|].
    exfalso. rewrite (seek_cons_ge h a s) in Hseek by (done || lia).
    pose proof (is_chain_NoDup _ _ _ Hch) as [Hnin _]%NoDup_cons.
    apply Hnin. eapply (seek_segment_in h addrs).
    rewrite <- Hseek. by destruct Hch as [-> _].
Qed.

(** [operator+=] moves the position by [n] bytes, for an [n] that is an
    [unsigned]. *)
Lemma plus_assign_seek h it addrs n :
  iterator_in h it addrs → 0 ≤ n < 2 ^ 32 → offset it + n ≤ total_length h addrs →
  plus_assign h it n = Done (seek h addrs (offset it + n)).
Proof.
  intros Hin Hn Hle. pose proof (iterator_in_offset _ _ _ Hin) as [Hoff H256].
  destruct Hin as (Hch & Hok & Hseek & H0 & Hnil).
  unfold plus_assign. rewrite (to_unsigned_small n) by done.
  rewrite to_size_t_small by lia.
  rewrite (advance_loop_seek _ h _ addrs); [|done| |lia].
  2:{ pose proof (is_chain_length _ _ _ Hch). lia. }
  simpl. rewrite assert_bind.
  destruct (decide (offset it + n = total_length h addrs)) as [Heq|Hne].
  - rewrite Heq, seek_total by done. done.
  - destruct (seek_inside h addrs (offset it + n) Hok ltac:(lia)) as (a & s & Ha & _).
    rewrite Ha. done.
Qed.

(** [operator-] between a position and a position [n] bytes before it. *)
Lemma minus_seek h it addrs n :
  iterator_in h it addrs → 0 ≤ n < 2 ^ 63 → offset it + n ≤ total_length h addrs →
  minus h (seek h addrs (offset it + n)) it = Done n.
Proof.
  intros Hin Hn Hle. pose proof (iterator_in_offset _ _ _ Hin) as [Hoff H256].
  destruct Hin as (Hch & Hok & Hseek & H0 & Hnil).
  unfold minus.
  destruct (distance_loop_seek (S (List.length h)) h _ addrs (offset it + n) 0 Hch Hok
              ltac:(lia) ltac:(pose proof (is_chain_length _ _ _ Hch); lia))
    as (d & Hd & Hmod).
  rewrite Hd. simpl. f_equal.
  rewrite <- (to_ptrdiff_t_small n) at 2 by lia.
  apply to_ptrdiff_t_congr.
  rewrite <- Zplus_mod_idemp_l, Hmod, Zplus_mod_idemp_l.
  rewrite <- Zplus_mod_idemp_r, to_size_t_mod, Zplus_mod_idemp_r.
  f_equal. lia.
Qed.

End iterator_facts.


(** C6, as the code has it.  Let j be a byte iterator into a list of
    segments each of which has its pointers in bounds and holds at least one
    payload byte, j pointing at a payload byte of its segment or being the
    end iterator, and let i be reached from j by n advances.  When n is below 2^63,
    i - j equals n, the number of payload bytes between the two positions: the
    payload lengths of the segments passed on the walk from j's segment to
    i's segment, plus the offset of i, minus the offset of j.  When n is below
    2^32, so that it fits the unsigned parameter of operator+=, advancing j by
    i - j yields i. *)
Theorem iterator_distance (h : byte_buffer_segment.heap)
    (j i : byte_buffer_iterator_impl.t) (addrs : list addr) (n : nat) :
  iterator_in h j addrs →
  byte_buffer_iterator_impl.incr_n h j n = Done i →
  Z.of_nat n < 2 ^ 63 →
  byte_buffer_iterator_impl.minus h i j = Done (Z.of_nat n) ∧
  (∃ passed rest,
     addrs = passed ++ rest ∧
     is_chain h (byte_buffer_iterator_impl.current_segment i) rest ∧
     Z.of_nat n = total_length h passed + byte_buffer_iterator_impl.offset i
                  - byte_buffer_iterator_impl.offset j) ∧
  (Z.of_nat n < 2 ^ 32 →
     ∃ d, byte_buffer_iterator_impl.minus h i j = Done d ∧
          byte_buffer_iterator_impl.plus_assign h j d = Done i).
Proof.
  intros Hin Hi Hn.
  pose proof (iterator_in_offset _ _ _ Hin) as [Hoff _].
  pose proof Hin as (Hch & Hok & Hseek & H0 & Hnil).
  rewrite Hseek in Hi.
  apply (incr_n_seek_inv h (byte_buffer_iterator_impl.current_segment j) addrs)
    in Hi as [Hle ->]; [|done..].
  pose proof (minus_seek h j addrs (Z.of_nat n) Hin ltac:(lia) Hle) as Hminus.
  split; [done|]. split.
  - destruct (seek_split h _ addrs (byte_buffer_iterator_impl.offset j + Z.of_nat n) Hch Hok
                ltac:(lia)) as (passed & rest & Happ & Hrest & Hsum).
    exists passed, rest. split; [done|]. split; [done|]. lia.
  - intros Hn32. exists (Z.of_nat n). split; [done|].
    apply plus_assign_seek; [done|lia|done].
Qed.

Lemma iterator_in_abcde :
  iterator_in heap_abcde (byte_buffer_iterator_impl.make (Some 0%nat) 1) [0%nat; 1%nat].
Proof.
  assert (Hwf1 : segment_wf segment_abc) by (vm_compute; intuition discriminate).
  assert (Hwf2 : segment_wf segment_de) by (vm_compute; intuition discriminate).
  split; [|split; [|split; [|split]]].
  - simpl. split; [done|]. eexists. split; [reflexivity|]. simpl.
    split; [done|]. eexists. split; [reflexivity|]. done.
  - repeat constructor; eexists; (split; [reflexivity|]); split; done.
  - reflexivity.
  - simpl. lia.
  - discriminate.
Defined.

Lemma iterator_distance_witness :
  byte_buffer_iterator_impl.minus heap_abcde
    (byte_buffer_iterator_impl.make (Some 1%nat) 1) (byte_buffer_iterator_impl.make (Some 0%nat) 1)
  = Done 3.
Proof.
  apply (iterator_distance heap_abcde (byte_buffer_iterator_impl.make (Some 0%nat) 1)
           (byte_buffer_iterator_impl.make (Some 1%nat) 1) [0%nat; 1%nat] 3
           iterator_in_abcde).
  - reflexivity.
  - reflexivity.
Defined.

(** ** A list of segments longer than 4 GiB *)

Section long_list.

Import byte_buffer_segment.
Import byte_buffer_iterator_impl.

Variable N : nat.

Lemma full_heap_lookup k :
  (k < N)%nat →
  full_heap N !! k = Some (full_segment (if decide (S k < N)%nat then Some (S k) else None)).
Proof.
  intros Hk. unfold full_heap.
  rewrite list_lookup_fmap, lookup_seq_lt by done. done.
Qed.

Lemma full_segment_wf nxt : segment_wf (full_segment nxt).
Proof. vm_compute. intuition discriminate. Qed.

Lemma full_segment_length nxt : byte_buffer_segment.length (full_segment nxt) = 256.
Proof. reflexivity. Qed.

Lemma full_heap_chain m k :
  (k + m = N)%nat → (0 < m)%nat → is_chain (full_heap N) (Some k) (seq k m).
Proof.
  revert k. induction m as [|m IH]; intros k Hkm Hm; [lia|].
  simpl. split; [done|]. eexists. split; [apply full_heap_lookup; lia|].
  unfold next_, metadata; simpl. case_decide as Hlt.
  - apply IH; lia.
  - assert (m = 0%nat) as -> by lia. done.
Qed.

Lemma full_heap_chain_ok m k :
  (k + m ≤ N)%nat → chain_ok (full_heap N) (seq k m).
Proof.
  intros Hkm. apply Forall_forall. intros a [? ?]%elem_of_seq.
  eexists. split; [apply full_heap_lookup; lia|].
  split; [apply full_segment_wf|]. by rewrite full_segment_length.
Qed.

Lemma full_heap_total m k :
  (k + m ≤ N)%nat → total_length (full_heap N) (seq k m) = 256 * Z.of_nat m.
Proof.
  revert k. induction m as [|m IH]; intros k Hkm; [done|].
  cbn [seq]. erewrite total_length_cons;
    [|apply full_heap_lookup; lia|apply full_segment_wf].
  rewrite IH, full_segment_length by lia. lia.
Qed.

Lemma full_heap_seek c m k :
  (k + m ≤ N)%nat → (c < m)%nat →
  seek (full_heap N) (seq k m) (256 * Z.of_nat c) = make (Some (k + c)%nat) 0.
Proof.
  revert m k. induction c as [|c IH]; intros m k Hkm Hc.
  - destruct m as [|m]; [lia|]. cbn [seq].
    erewrite seek_cons_lt; [|apply full_heap_lookup; lia|by rewrite full_segment_length].
    by rewrite Nat.add_0_r.
  - destruct m as [|m]; [lia|]. cbn [seq].
    erewrite seek_cons_ge;
      [|apply full_heap_lookup; lia|rewrite full_segment_length; lia].
    rewrite full_segment_length.
    replace (256 * Z.of_nat (S c) - 256) with (256 * Z.of_nat c) by lia.
    rewrite IH by lia. do 2 f_equal. lia.
Qed.

Variable n : nat.

Hypothesis HN : Z.of_nat N = 2 ^ 24 + 1.
Hypothesis Hn : Z.of_nat n = 2 ^ 32.

(** The iterator at the first byte, and the iterator 2^32 bytes later, at the
    first byte of the last segment: the distance between them is 2^32, and
    advancing the first by the distance gives the first again. *)
Lemma long_list_plus_truncates :
  let h := full_heap N in
  let j := make (Some 0%nat) 0 in
  let i := make (Some (N - 1)%nat) 0 in
  iterator_in h j (seq 0 N) ∧
  incr_n h j n = Done i ∧
  minus h i j = Done (2 ^ 32) ∧
  plus_assign h j (2 ^ 32) = Done j ∧
  j ≠ i.
Proof.
  intros h j i.
  assert (Hch : is_chain h (Some 0%nat) (seq 0 N)) by (apply full_heap_chain; lia).
  assert (Hok : chain_ok h (seq 0 N)) by (apply full_heap_chain_ok; lia).
  assert (Htot : total_length h (seq 0 N) = 2 ^ 32 + 256).
  { unfold h. rewrite full_heap_total by lia. lia. }
  assert (Hj : j = seek h (seq 0 N) 0) by (symmetry; by apply (seek_zero h (Some 0%nat))).
  assert (Hi : i = seek h (seq 0 N) (2 ^ 32)).
  { unfold h. replace (2 ^ 32) with (256 * Z.of_nat (N - 1)) by lia.
    rewrite full_heap_seek by lia. done. }
  assert (Hin : iterator_in h j (seq 0 N)).
  { split; [done|]. split; [done|]. split; [done|]. split; [done|]. done. }
  assert (Hoff : offset j = 0) by done.
  split; [done|]. split; [|split; [|split]].
  - rewrite Hj at 1. rewrite (incr_n_seek h (Some 0%nat)); [|done|done|lia|lia].
    rewrite Hi. do 2 f_equal. lia.
  - rewrite Hi. rewrite <- (Z.add_0_l (2 ^ 32)) at 1. rewrite <- Hoff.
    apply (minus_seek h j (seq 0 N) (2 ^ 32)); [done|lia|lia].
  - assert (Htrunc : plus_assign h j (2 ^ 32) = plus_assign h j 0) by done.
    rewrite Htrunc, (plus_assign_seek h j (seq 0 N) 0); [|done|lia|lia].
    rewrite Hoff. change (0 + 0) with 0. by rewrite <- Hj.
  - intros Heq. apply (f_equal current_segment) in Heq.
    assert (0 = N - 1)%nat by (unfold j, i, make in Heq; simpl in Heq; congruence). lia.
Qed.

End long_list.

(** C6 as stated does not hold: in a list of 2^24 + 1 full segments the
    iterator i at the first byte of the last segment is reached from the
    iterator j at the first byte by 2^32 advances and i - j is 2^32, but
    advancing j by i - j yields j, not i: operator+= takes an unsigned. *)
Lemma iterator_plus_distance_truncated :
  let h := full_heap nof_segments_4GiB in
  let j := byte_buffer_iterator_impl.make (Some 0%nat) 0 in
  let i := byte_buffer_iterator_impl.make (Some (nof_segments_4GiB - 1)%nat) 0 in
  iterator_in h j (seq 0 nof_segments_4GiB) ∧
  byte_buffer_iterator_impl.incr_n h j nof_bytes_4GiB = Done i ∧
  byte_buffer_iterator_impl.minus h i j = Done (2 ^ 32) ∧
  byte_buffer_iterator_impl.plus_assign h j (2 ^ 32) = Done j ∧
  j ≠ i.
Proof.
  apply long_list_plus_truncates.
  - unfold nof_segments_4GiB. by apply Z2Nat.id.
  - unfold nof_bytes_4GiB. by apply Z2Nat.id.
Qed.

(** Nor does C6 hold when a segment of the list holds no payload.  In the
    list "abc", no payload, "de", four advances from the first byte lead to
    the byte d and the distance is 3; three advances lead onto the segment
    without payload, the distance is 3 again, and advancing the first
    iterator by 3 skips that segment. *)
Lemma iterator_distance_payloadless_segment :
  let h := heap_abc_gap_de in
  let j := byte_buffer_iterator_impl.make (Some 0%nat) 0 in
  byte_buffer_iterator_impl.incr_n h j 4 = Done (byte_buffer_iterator_impl.make (Some 2%nat) 0) ∧
  byte_buffer_iterator_impl.minus h (byte_buffer_iterator_impl.make (Some 2%nat) 0) j = Done 3 ∧
  byte_buffer_iterator_impl.incr_n h j 3 = Done (byte_buffer_iterator_impl.make (Some 1%nat) 0) ∧
  byte_buffer_iterator_impl.minus h (byte_buffer_iterator_impl.make (Some 1%nat) 0) j = Done 3 ∧
  byte_buffer_iterator_impl.plus_assign h j 3
    = Done (byte_buffer_iterator_impl.make (Some 2%nat) 0).
Proof. intros h j. split_and!; vm_compute; reflexivity. Qed.

(** ** Appending to a list of segments *)

Section buffer_facts.

Import byte_buffer_segment.

Implicit Types (h : heap) (b : byte_buffer.t) (a tl hd : addr) (addrs front : list addr).

Lemma payload_at_Some h a s : h !! a = Some s → payload_at h a = payload s.
Proof. intros Hs. unfold payload_at. by rewrite Hs. Qed.

Lemma chain_ok_app h l1 l2 : chain_ok h (l1 ++ l2) ↔ chain_ok h l1 ∧ chain_ok h l2.
Proof. unfold chain_ok. apply Forall_app. Qed.

(** The heap after [fill_tail], address by address. *)
Lemma fill_tail_lookup h hd tl ts' n x :
  (tl < List.length h)%nat →
  alter (byte_buffer.add_pkt_len n) hd (<[tl := ts']> h) !! x
  = (if decide (x = hd) then byte_buffer.add_pkt_len n else id)
      <$> (if decide (x = tl) then Some ts' else h !! x).
Proof.
  intros Htl. rewrite list_lookup_alter, !list_lookup_insert.
  repeat case_decide; simplify_eq; try done; try (exfalso; intuition lia).
  - by rewrite option_fmap_id.
Qed.

Lemma fill_tail_spec h b front tl ts bytes :
  buffer_rep_open h b front tl → h !! tl = Some ts → 0 < tailroom ts → bytes ≠ [] →
  ∃ h' k,
    byte_buffer.fill_tail h b bytes = Done (h', k) ∧
    (1 ≤ k ≤ List.length bytes)%nat ∧
    buffer_rep h' b (front ++ [tl]) ∧
    contents h' (front ++ [tl]) = contents h (front ++ [tl]) ++ take k bytes.
Proof.
  intros (Hch & Hok & (ts0 & Hts0 & Hwf) & (hd & hs & Hhd & Hhs & Htail)) Hts Hroom Hbytes.
  assert (ts0 = ts) as -> by congruence. clear Hts0.
  assert (Hlen : (1 ≤ List.length bytes)%nat) by (destruct bytes; [done|simpl; lia]).
  unfold byte_buffer.fill_tail, byte_buffer.tail_of.
  rewrite Hhd; simpl. rewrite Hhs; simpl. rewrite Htail; simpl. rewrite Hts; simpl.
  set (k := Z.to_nat (Z.min (tailroom ts) (Z.of_nat (List.length bytes)))).
  assert (Hk : (1 ≤ k ≤ List.length bytes)%nat ∧ Z.of_nat k ≤ tailroom ts) by lia.
  destruct Hk as [Hk Hkroom].
  destruct (append_spec ts (take k bytes) Hwf) as (ts' & Happ & Hwf' & Hpay & Hmeta & Hp & He).
  { rewrite length_take. lia. }
  rewrite length_take in He.
  rewrite Happ; simpl. eexists _, k. split; [reflexivity|]. split; [done|].
  pose proof (lookup_lt_Some _ _ _ Hts) as Htl.
  pose proof (is_chain_NoDup _ _ _ Hch) as (_ & Hnin & _)%NoDup_app.
  assert (Hlen' : 0 < byte_buffer_segment.length ts').
  { destruct (wf_accessors ts' Hwf') as (_ & Hl' & _). rewrite Hl', Hp, He.
    destruct Hwf as (? & ? & ?). unfold begin, end_ in *. lia. }
  split; [split; [|split]|].
  - (* the links *)
    eapply is_chain_ext; [|exact Hch]. intros x _.
    rewrite fill_tail_lookup by done.
    destruct (decide (x = tl)) as [->|Hne].
    + rewrite Hts. simpl. unfold next_, metadata in *.
      case_decide; simpl; unfold metadata; by rewrite Hmeta.
    + destruct (h !! x); simpl; [|done]. by case_decide.
  - (* every segment holds bytes *)
    apply chain_ok_app. split.
    + apply Forall_forall. intros x Hx.
      unfold chain_ok in Hok. rewrite Forall_forall in Hok.
      destruct (Hok x Hx) as (s & Hs & Hwfs & Hls).
      assert (x ≠ tl) by (intros ->; apply (Hnin tl Hx); by left).
      rewrite fill_tail_lookup by done. rewrite (decide_False (P:=x = tl)) by done. rewrite Hs. simpl.
      eexists. split; [reflexivity|]. by case_decide.
    + apply Forall_singleton. rewrite fill_tail_lookup by done.
      rewrite (decide_True (P:=tl = tl)) by done. simpl.
      eexists. split; [reflexivity|]. by case_decide.
  - (* the tail pointer *)
    intros hd' Hhd'. assert (hd' = hd) as -> by congruence.
    rewrite fill_tail_lookup by done. rewrite (decide_True (P:=hd = hd)) by done.
    rewrite last_snoc.
    destruct (decide (hd = tl)) as [->|Hne]; simpl.
    + eexists. split; [reflexivity|].
      assert (hs = ts) as -> by congruence.
      simpl. unfold metadata in *. by rewrite Hmeta.
    + rewrite Hhs. simpl. eexists. split; [reflexivity|]. done.
  - (* the bytes *)
    rewrite !contents_app. rewrite <- (assoc_L (++)). f_equal.
    + apply contents_ext. intros x Hx.
      assert (x ≠ tl) by (intros ->; apply (Hnin tl Hx); by left).
      unfold payload_at. rewrite fill_tail_lookup by done. rewrite (decide_False (P:=x = tl)) by done.
      destruct (h !! x); simpl; [|done]. by case_decide.
    + unfold contents. simpl. rewrite !app_nil_r.
      rewrite (payload_at_Some h tl ts) by done.
      unfold payload_at. rewrite fill_tail_lookup by done.
      rewrite (decide_True (P:=tl = tl)) by done.
      simpl. by case_decide.
Qed.

(** A segment as the default constructor leaves it. *)
Lemma make_default_spec (raw : list byte) :
  Z.of_nat (List.length raw) = SEGMENT_SIZE →
  ∃ fresh, make_default raw = Done fresh ∧ segment_wf fresh ∧ payload fresh = [] ∧
           tailroom fresh = 240 ∧ next_ fresh = None ∧ tail (metadata fresh) = None.
Proof.
  intros Hraw. eexists. split; [reflexivity|].
  unfold segment_wf; simpl. unfold SEGMENT_SIZE in *. repeat split; try done.
Qed.

(** Linking a new last segment to a list. *)
Lemma is_chain_snoc h h1 start front tl a :
  is_chain h start (front ++ [tl]) →
  (∀ x, x ∈ front → next_ <$> h1 !! x = next_ <$> h !! x) →
  (∃ s, h1 !! tl = Some s ∧ next_ s = Some a) →
  (∃ s, h1 !! a = Some s ∧ next_ s = None) →
  is_chain h1 start ((front ++ [tl]) ++ [a]).
Proof.
  intros Hch Hfront (st & Hst & Hnt) (sa & Hsa & Hna).
  revert start Hch. induction front as [|x front IH]; intros start; simpl.
  - intros [-> _]. split; [done|]. exists st. split; [done|]. rewrite Hnt.
    split; [done|]. exists sa. by split.
  - intros [-> (s & Hs & Hch)]. split; [done|].
    pose proof (Hfront x ltac:(left)) as Hx. rewrite Hs in Hx. simpl in Hx.
    destruct (h1 !! x) as [s1|] eqn:Hs1; [|done]. simplify_eq/=.
    exists s1. split; [done|]. rewrite Hx. apply IH; [|done].
    intros y Hy. apply Hfront. by right.
Qed.

(** The heap after [append_segment] on a buffer that has segments, address
    by address. *)
Lemma append_segment_lookup h hd tl a fresh x :
  (x < List.length h)%nat →
  (alter (byte_buffer.set_tail (Some a)) hd (alter (byte_buffer.set_next (Some a)) tl h)
     ++ [fresh]) !! x
  = (if decide (x = hd) then byte_buffer.set_tail (Some a) else id)
      <$> ((if decide (x = tl) then byte_buffer.set_next (Some a) else id) <$> h !! x).
Proof.
  intros Hx. rewrite lookup_app_l by (by rewrite !length_alter).
  rewrite !list_lookup_alter.
  repeat case_decide; simplify_eq; try done; by rewrite ?option_fmap_id.
Qed.

Lemma append_segment_lookup_new h hd tl fresh :
  (alter (byte_buffer.set_tail (Some (List.length h))) hd
     (alter (byte_buffer.set_next (Some (List.length h))) tl h) ++ [fresh]) !! List.length h
  = Some fresh.
Proof.
  rewrite lookup_app_r by (by rewrite !length_alter).
  rewrite !length_alter, Nat.sub_diag. done.
Qed.

Lemma reserve_tail_spec raw h b addrs :
  raw_memory raw → buffer_rep h b addrs →
  ∃ h1 b1 front tl ts,
    byte_buffer.reserve_tail raw h b = Done (h1, b1) ∧
    buffer_rep_open h1 b1 front tl ∧
    h1 !! tl = Some ts ∧ 0 < tailroom ts ∧
    contents h1 (front ++ [tl]) = contents h addrs.
Proof.
  intros Hraw (Hch & Hok & Htail).
  destruct (make_default_spec (raw (List.length h)) (Hraw _))
    as (fresh & Hfresh & Hwff & Hpayf & Hroomf & Hnextf & Htailf).
  unfold byte_buffer.reserve_tail, byte_buffer.tail_full, byte_buffer.append_segment.
  rewrite Hfresh.
  destruct (byte_buffer.head b) as [hd|] eqn:Hhd.
  - (* the buffer has segments *)
    destruct (Htail hd eq_refl) as (hs & Hhs & Hlast).
    assert (∃ front tl, addrs = front ++ [tl]) as (front & tl & ->).
    { destruct addrs as [|x addrs]; [done|].
      destruct (last (x :: addrs)) as [tl|] eqn:Hl.
      - apply last_Some in Hl as [front ->]. eauto.
      - by apply last_None in Hl. }
    rewrite last_snoc in Hlast.
    pose proof Hok as [Hokf Hokt]%chain_ok_app.
    apply Forall_singleton in Hokt as (ts & Hts & Hwf & Hlen).
    unfold byte_buffer.tail_of. rewrite Hhd; simpl. rewrite Hhs; simpl.
    rewrite Hlast; simpl. rewrite Hts; simpl.
    destruct (Z.eqb_spec (tailroom ts) 0) as [Hfull|Hroom].
    + (* the tail is full: a segment is added *)
      set (a := List.length h).
      set (h1 := alter (byte_buffer.set_tail (Some a)) hd
                   (alter (byte_buffer.set_next (Some a)) tl h) ++ [fresh]).
      assert (Hnew : h1 !! a = Some fresh) by apply append_segment_lookup_new.
      assert (Hold : ∀ x s, h !! x = Some s →
                ∃ s', h1 !! x = Some s' ∧ payload s' = payload s ∧
                      byte_buffer_segment.length s' = byte_buffer_segment.length s ∧
                      (segment_wf s → segment_wf s') ∧
                      next_ s' = (if decide (x = tl) then Some a else next_ s) ∧
                      (x = hd → tail (metadata s') = Some a)).
      { intros x s Hs. unfold h1.
        rewrite append_segment_lookup by (by eapply lookup_lt_Some).
        rewrite Hs. simpl. eexists. split; [reflexivity|].
        repeat case_decide; simplify_eq; done. }
      exists h1, b, (front ++ [tl]), a, fresh.
      split; [done|]. split; [|split; [done|split; [lia|]]].
      * unfold buffer_rep_open. rewrite Hhd. split; [|split; [|split]].
        -- eapply is_chain_snoc; [exact Hch| | |].
           ++ intros x Hx.
              pose proof (is_chain_NoDup _ _ _ Hch) as (_ & Hnin & _)%NoDup_app.
              assert (x ≠ tl) by (intros ->; apply (Hnin tl Hx); by left).
              destruct (h !! x) as [s|] eqn:Hs.
              ** destruct (Hold x s Hs) as (s' & Hs' & _ & _ & _ & Hn & _).
                 rewrite Hs'. simpl. rewrite Hn. by rewrite decide_False.
              ** assert (List.length h ≤ x)%nat by (by apply lookup_ge_None).
                 exfalso.
                 pose proof (is_chain_allocated _ _ _ Hch) as Hall.
                 rewrite Forall_forall in Hall.
                 specialize (Hall x ltac:(apply elem_of_app; by left)). lia.
           ++ destruct (Hold tl ts Hts) as (s' & Hs' & _ & _ & _ & Hn & _).
              exists s'. split; [done|]. rewrite Hn. by rewrite decide_True.
           ++ exists fresh. by split.
        -- apply Forall_forall. intros x Hx.
           unfold chain_ok in Hok. rewrite Forall_forall in Hok.
           destruct (Hok x Hx) as (s & Hs & Hwfs & Hls).
           destruct (Hold x s Hs) as (s' & Hs' & _ & Hl' & Hwf' & _).
           exists s'. split; [done|]. split; [by apply Hwf'|]. by rewrite Hl'.
        -- exists fresh. by split.
        -- destruct (Hold hd hs Hhs) as (s' & Hs' & _ & _ & _ & _ & Ht').
           exists hd, s'. split; [done|]. split; [done|]. by apply Ht'.
      * rewrite contents_app. unfold contents at 2. simpl.
        rewrite (payload_at_Some h1 a fresh) by done. rewrite Hpayf, !app_nil_r.
        apply contents_ext. intros x Hx.
        unfold chain_ok in Hok. rewrite Forall_forall in Hok.
        destruct (Hok x Hx) as (s & Hs & _).
        destruct (Hold x s Hs) as (s' & Hs' & Hp' & _).
        by rewrite (payload_at_Some h1 x s'), (payload_at_Some h x s).
    + (* the tail has room *)
      exists h, b, front, tl, ts. split; [done|].
      pose proof (tailroom_nonneg ts).
      split; [|split; [done|split; [lia|done]]].
      unfold buffer_rep_open. rewrite Hhd.
      split; [done|]. split; [done|]. split; [eauto|]. exists hd, hs. by repeat split.
  - (* no segment yet: the first one is added *)
    assert (addrs = []) as ->.
    { destruct addrs; [done|]. by destruct Hch. }
    simpl.
    set (a := List.length h).
    set (ts := byte_buffer.set_tail (Some a) fresh).
    assert (Hnew : (h ++ [ts]) !! a = Some ts).
    { rewrite lookup_app_r by done. by rewrite Nat.sub_diag. }
    exists (h ++ [ts]), {| byte_buffer.head := Some a |}, [], a, ts.
    split; [done|]. split; [|split; [done|split;
      [change (tailroom ts) with (tailroom fresh); by rewrite Hroomf|]]].
    + split; [|split; [|split]].
      * simpl. split; [done|]. exists ts. by split.
      * constructor.
      * exists ts. by split.
      * exists a, ts. by repeat split.
    + unfold contents. simpl. rewrite (payload_at_Some _ a ts) by done.
      change (payload ts) with (payload fresh). by rewrite Hpayf.
Qed.

(** Appending [bytes] to a buffer extends its byte sequence by [bytes]. *)
Lemma append_loop_spec raw fuel bytes h b addrs :
  raw_memory raw → buffer_rep h b addrs → (List.length bytes ≤ fuel)%nat →
  ∃ h' b' addrs',
    byte_buffer.append_loop fuel raw h b bytes = Done (h', b') ∧
    buffer_rep h' b' addrs' ∧
    contents h' addrs' = contents h addrs ++ bytes.
Proof.
  intros Hraw. revert bytes h b addrs.
  induction fuel as [|fuel IH]; intros bytes h b addrs Hrep Hfuel.
  - destruct bytes; [|simpl in Hfuel; lia].
    exists h, b, addrs. by rewrite app_nil_r.
  - destruct bytes as [|x bytes].
    { exists h, b, addrs. by rewrite app_nil_r. }
    destruct (reserve_tail_spec raw h b addrs Hraw Hrep)
      as (h1 & b1 & front & tl & ts & Hres & Hopen & Hts & Hroom & Hc1).
    destruct (fill_tail_spec h1 b1 front tl ts (x :: bytes) Hopen Hts Hroom ltac:(done))
      as (h2 & k & Hfill & Hk & Hrep2 & Hc2).
    destruct (IH (drop k (x :: bytes)) h2 b1 (front ++ [tl]) Hrep2)
      as (h' & b' & addrs' & Hloop & Hrep' & Hc').
    { rewrite length_drop. simpl in *. lia. }
    exists h', b', addrs'.
    cbn [byte_buffer.append_loop]. rewrite Hres; simpl. rewrite Hfill; simpl.
    split; [done|]. split; [done|].
    rewrite Hc', Hc2, Hc1, <- (assoc_L (++)). by rewrite take_drop.
Qed.

End buffer_facts.


(** C2.  Let a buffer be a list of segments holding some bytes, and let the
    byte sequence B be appended to it, each round filling the tailroom of the
    tail segment and continuing in a new segment.  Then the append returns,
    and byte iteration from the position where B starts (the byte iterator
    advanced from begin() past the bytes the buffer held before) yields, in
    len(B) steps of operator* and operator++, exactly the bytes of B in order,
    whatever the number of segments B spans and whatever its length. *)
Theorem append_read_roundtrip (raw : addr → list byte) (h : byte_buffer_segment.heap)
    (b : byte_buffer.t) (addrs : list addr) (B : list byte) :
  raw_memory raw → buffer_rep h b addrs →
  ∃ h' b' it,
    byte_buffer.append raw h b B = Done (h', b') ∧
    byte_buffer_iterator_impl.incr_n h' (byte_buffer.begin b')
      (List.length (contents h addrs)) = Done it ∧
    byte_buffer_iterator_impl.read h' it (List.length B) = Done B.
Proof.
  intros Hraw Hrep.
  destruct (append_loop_spec raw (List.length B) B h b addrs Hraw Hrep ltac:(done))
    as (h' & b' & addrs' & Happ & (Hch & Hok & _) & Hc).
  assert (Htot : total_length h' addrs'
                 = Z.of_nat (List.length (contents h addrs)) + Z.of_nat (List.length B)).
  { unfold total_length. rewrite Hc, length_app. lia. }
  exists h', b', (seek h' addrs' (Z.of_nat (List.length (contents h addrs)))).
  split; [done|]. split.
  - unfold byte_buffer.begin.
    rewrite <- (seek_zero h' (byte_buffer.head b') addrs') by done.
    rewrite (incr_n_seek h' (byte_buffer.head b')); [done|done|done|lia|lia].
  - rewrite (read_seek h' (byte_buffer.head b')); [|done|done|lia|lia].
    rewrite Hc, Nat2Z.id, drop_app_length. by rewrite take_ge.
Qed.

Lemma append_read_roundtrip_witness :
  ∃ h' b' it,
    byte_buffer.append raw_zeros [] byte_buffer.empty_buffer (pattern 257) = Done (h', b') ∧
    byte_buffer_iterator_impl.incr_n h' (byte_buffer.begin b') 0 = Done it ∧
    byte_buffer_iterator_impl.read h' it 257 = Done (pattern 257).
Proof.
  assert (Hraw : raw_memory raw_zeros) by (intros a; reflexivity).
  assert (Hrep : buffer_rep [] byte_buffer.empty_buffer []).
  { split; [reflexivity|]. split; [constructor|]. intros hd Hhd. discriminate Hhd. }
  exact (append_read_roundtrip raw_zeros [] byte_buffer.empty_buffer [] (pattern 257)
           Hraw Hrep).
Defined.

(** The lengths the spec asks to test: 0, 1, capacity - 1, capacity,
    capacity + 1 and 10 * capacity bytes, appended to the empty buffer and
    read back from [begin()]. *)
Lemma append_then_read_lengths :
  Forall (fun n => append_then_read n = Done (pattern n))
         [0; 1; 255; 256; 257; 2560]%nat.
Proof.
  repeat (apply Forall_cons_2; [vm_compute; reflexivity|]). apply Forall_nil_2.
Qed.

(** An append to a buffer that already holds bytes in two segments. *)
Lemma append_after_abcde : append_abcde_then_read = Done [x61; x62; x63; x64; x65; x00; x01].
Proof. vm_compute. reflexivity. Qed.

(** ** Runs of a procedure *)

Section runs_facts.

Context {E : Type → Type}.

Lemma runs_Ret {R} (r r' : R) (tr : list (observed E)) :
  runs (Ret r) tr r' ↔ tr = [] ∧ r' = r.
Proof.
  split.
  - intros H. inversion H as [t r0 Hobs|t t' tr0 r0 Hobs|t X e k x tr0 r0 Hobs];
      simpl in Hobs; [|discriminate..]. by injection Hobs as ->.
  - intros [-> ->]. by constructor.
Qed.

Lemma runs_Vis {R X} (e : E X) (k : X → itree E R) (tr : list (observed E)) (r : R) :
  runs (Vis e k) tr r ↔ ∃ x tr', tr = Obs e x :: tr' ∧ runs (k x) tr' r.
Proof.
  split.
  - intros H. inversion H as [t r0 Hobs|t t' tr0 r0 Hobs|t X' e' k' x tr0 r0 Hobs Hk];
      simpl in Hobs; [discriminate..|]. subst.
    inv_Vis. simpl in *. subst. eauto.
  - intros (x & tr' & -> & Hk). by eapply runs_vis.
Qed.

Lemma runs_trigger {X} (e : E X) (tr : list (observed E)) (x : X) :
  runs (ITree.trigger e) tr x ↔ tr = [Obs e x].
Proof.
  unfold ITree.trigger. rewrite runs_Vis. split.
  - intros (x' & tr' & -> & [-> ->]%runs_Ret). done.
  - intros ->. exists x, []. split; [done|]. by apply runs_Ret.
Qed.

(** A run depends on the tree only through what [observe] shows. *)
Lemma runs_observe {R} (t u : itree E R) tr r :
  observe t = observe u → runs t tr r → runs u tr r.
Proof.
  intros Heq H. destruct H as [t r Hobs|t t' tr r Hobs Ht|t X e k x tr r Hobs Hk].
  - apply runs_ret. by rewrite <- Heq.
  - eapply runs_tau; [|done]. by rewrite <- Heq.
  - eapply runs_vis; [|done]. by rewrite <- Heq.
Qed.

Lemma runs_bind_intro {A B} (t : itree E A) (k : A → itree E B) tr1 a tr2 b :
  runs t tr1 a → runs (k a) tr2 b → runs (ITree.bind t k) (tr1 ++ tr2) b.
Proof.
  intros Ht Hk. induction Ht as [t r Hobs|t t' tr r Hobs Ht IH|t X e h x tr r Hobs Hh IH].
  - simpl. eapply runs_observe; [|exact Hk].
    by rewrite observe_bind, Hobs.
  - eapply runs_tau; [|exact (IH Hk)].
    by rewrite observe_bind, Hobs.
  - simpl. eapply (runs_vis _ e (fun x => ITree.bind (h x) k)); [|exact (IH Hk)].
    by rewrite observe_bind, Hobs.
Qed.

Lemma runs_bind_inv {A B} (t : itree E A) (k : A → itree E B) tr b :
  runs (ITree.bind t k) tr b →
  ∃ tr1 a tr2, runs t tr1 a ∧ runs (k a) tr2 b ∧ tr = tr1 ++ tr2.
Proof.
  intros H. remember (ITree.bind t k) as u eqn:Hu. revert t Hu.
  induction H as [u r Hobs|u u' tr r Hobs Hu' IH|u X e h x tr r Hobs Hh IH];
    intros t ->; rewrite observe_bind in Hobs;
    destruct (observe t) as [a|t'|Y e' h'] eqn:Ht; simpl in Hobs.
  - exists [], a, []. split_and!; [by apply runs_ret|by apply runs_ret|done].
  - discriminate.
  - discriminate.
  - exists [], a, tr. split_and!; [by apply runs_ret| |done].
    by eapply runs_tau.
  - injection Hobs as <-.
    destruct (IH t' eq_refl) as (tr1 & a & tr2 & H1 & H2 & ->).
    exists tr1, a, tr2. split_and!; [|done|done]. by eapply runs_tau.
  - discriminate.
  - exists [], a, (Obs e x :: tr). split_and!; [by apply runs_ret| |done].
    by eapply runs_vis.
  - discriminate.
  - inv_Vis. simpl in *. subst.
    destruct (IH (h' x) eq_refl) as (tr1 & a & tr2 & H1 & H2 & ->).
    exists (Obs e' x :: tr1), a, tr2. split_and!; [|done|done]. by eapply runs_vis.
Qed.

Lemma runs_bind {A B} (t : itree E A) (k : A → itree E B) tr b :
  runs (ITree.bind t k) tr b ↔
  ∃ tr1 a tr2, runs t tr1 a ∧ runs (k a) tr2 b ∧ tr = tr1 ++ tr2.
Proof.
  split; [apply runs_bind_inv|].
  intros (tr1 & a & tr2 & H1 & H2 & ->). by eapply runs_bind_intro.
Qed.

(** A call, then the rest. *)
Lemma runs_call {X B} (e : E X) (k : X → itree E B) tr b :
  runs (ITree.bind (ITree.trigger e) k) tr b ↔
  ∃ x tr', tr = Obs e x :: tr' ∧ runs (k x) tr' b.
Proof.
  rewrite runs_bind. split.
  - intros (tr1 & a & tr2 & ->%runs_trigger & H2 & ->). eauto.
  - intros (x & tr' & -> & Hk). exists [Obs e x], x, tr'.
    split; [by apply runs_trigger|]. done.
Qed.

End runs_facts.

(** ** The PDU session resource modification routine *)

Section modification_routine_facts.

Import pdu_session_resource_modification_routine.

Implicit Types (r : pdu_session_resource_modification_routine.t)
  (tr : list (observed routineE)) (resp : cu_cp_pdu_session_resource_modify_response).

Lemma mark_all_sessions_as_failed_spec resp req :
  pdu_session_res_modify_list (mark_all_sessions_as_failed resp req)
    = pdu_session_res_modify_list resp ∧
  pdu_session_res_failed_to_modify_list (mark_all_sessions_as_failed resp req)
    = pdu_session_res_failed_to_modify_list resp ++
      ((fun item => {| failed_pdu_session_id := pdu_session_id item |})
         <$> pdu_session_res_modify_items req).
Proof.
  unfold mark_all_sessions_as_failed.
  generalize (pdu_session_res_modify_items req). intros items. revert resp.
  induction items as [|item items IH]; intros resp; simpl.
  - by rewrite app_nil_r.
  - destruct (IH {| pdu_session_res_modify_list := pdu_session_res_modify_list resp;
                    pdu_session_res_failed_to_modify_list :=
                      pdu_session_res_failed_to_modify_list resp ++
                      [{| failed_pdu_session_id := pdu_session_id item |}] |})
      as [-> ->]. simpl. by rewrite <- (assoc_L (++)).
Qed.

(** The only run of [generate_pdu_session_resource_modify_response]. *)
Lemma generate_response_runs r (success : bool) tr resp :
  runs (generate_pdu_session_resource_modify_response r success) tr resp ↔
  if success
  then tr = [Obs (logger_log debug fmt_ue_finalized) tt; Obs apply_config_update tt] ∧
       resp = response_msg r
  else tr = [Obs (logger_log error fmt_ue_failed) tt] ∧
       resp = mark_all_sessions_as_failed (response_msg r) (modify_request r).
Proof.
  unfold generate_pdu_session_resource_modify_response. destruct success.
  - unfold mbind, itree_bind. rewrite runs_call. split.
    + intros ([] & tr' & -> & H). apply runs_call in H as ([] & tr'' & -> & H).
      apply runs_Ret in H as [-> ->]. done.
    + intros [-> ->]. exists tt, [Obs apply_config_update tt]. split; [done|].
      apply runs_call. exists tt, []. split; [done|]. by apply runs_Ret.
  - unfold mbind, itree_bind. rewrite runs_call. split.
    + intros ([] & tr' & -> & H). apply runs_Ret in H as [-> ->]. done.
    + intros [-> ->]. exists tt, []. split; [done|]. by apply runs_Ret.
Qed.

(** Are all the requested sessions known to the UP resource manager? *)
Lemma check_sessions_runs r items rest tr resp :
  runs (check_sessions r items rest) tr resp ↔
  if forallb (fun item => has_pdu_session (rrc_ue_up_resource_manager r) (pdu_session_id item))
       items
  then runs rest tr resp
  else tr = [Obs (logger_log error fmt_ue_no_such_session) tt;
             Obs (logger_log error fmt_ue_failed) tt] ∧
       resp = mark_all_sessions_as_failed (response_msg r) (modify_request r).
Proof.
  induction items as [|item items IH]; [done|].
  cbn [check_sessions forallb].
  destruct (has_pdu_session _ _); cbn [negb andb]; [exact IH|].
  unfold mbind, itree_bind. rewrite runs_call. split.
  - intros ([] & tr' & -> & H).
    apply (generate_response_runs r false) in H as [-> ->]. done.
  - intros [-> ->]. exists tt, [Obs (logger_log error fmt_ue_failed) tt].
    split; [done|]. by apply (generate_response_runs r false).
Qed.

(** The runs of the routine on a request that is empty or names a session
    the UP resource manager does not have. *)
Lemma run_failure_runs r tr resp :
  pdu_session_res_modify_items (modify_request r) = [] ∨
  Exists (fun item => has_pdu_session (rrc_ue_up_resource_manager r) (pdu_session_id item)
                      = false)
         (pdu_session_res_modify_items (modify_request r)) →
  runs (run r) tr resp ↔
  (∃ why, tr = [Obs (logger_log debug fmt_ue_initialized) tt; why;
                Obs (logger_log error fmt_ue_failed) tt] ∧
          why = (if bool_decide (pdu_session_res_modify_items (modify_request r) = [])
                 then Obs (logger_log info
                        fmt_ue_skipping_empty) tt
                 else Obs (logger_log error
                        fmt_ue_no_such_session) tt)) ∧
  resp = mark_all_sessions_as_failed (response_msg r) (modify_request r).
Proof.
  intros Hreq. unfold run. unfold mbind at 1, itree_bind at 1. rewrite runs_call.
  case_bool_decide as Hempty.
  - unfold mbind, itree_bind. split.
    + intros ([] & tr' & -> & H). apply runs_call in H as ([] & tr'' & -> & H).
      apply (generate_response_runs r false) in H as [-> ->]. eauto.
    + intros [(why & -> & ->) ->]. exists tt. eexists. split; [done|].
      apply runs_call. exists tt. eexists. split; [done|].
      by apply (generate_response_runs r false).
  - destruct Hreq as [?|Hex]; [done|].
    assert (Hall : forallb (fun item => has_pdu_session (rrc_ue_up_resource_manager r)
                                          (pdu_session_id item))
                     (pdu_session_res_modify_items (modify_request r)) = false).
    { apply not_true_is_false. intros Hall. rewrite forallb_forall in Hall.
      apply Exists_exists in Hex as (item & Hin & Hno).
      apply list_elem_of_In in Hin. specialize (Hall item Hin). congruence. }
    split.
    + intros ([] & tr' & -> & H). apply check_sessions_runs in H. rewrite Hall in H.
      destruct H as [-> ->]. eauto.
    + intros [(why & -> & ->) ->]. exists tt. eexists. split; [done|].
      apply check_sessions_runs. by rewrite Hall.
Qed.

End modification_routine_facts.

(** C3.  When some requested PDU session id is not known to the UP resource
    manager, the routine terminates, and every run of it ends with a response
    whose failed-to-modify list has exactly one entry per requested PDU
    session, in the order of the request, and whose list of modified sessions
    is empty; no method of the E1AP or F1AP notifier is called in the run,
    and the configuration of the UP resource manager is not updated. *)
Theorem unknown_session_fails_all
    (req : pdu_session_resource_modification_routine.cu_cp_pdu_session_resource_modify_request)
    (mgr : pdu_session_resource_modification_routine.up_resource_manager) :
  Exists (fun item =>
            pdu_session_resource_modification_routine.has_pdu_session mgr
              (pdu_session_resource_modification_routine.pdu_session_id item) = false)
         (pdu_session_resource_modification_routine.pdu_session_res_modify_items req) →
  let routine := pdu_session_resource_modification_routine.make req mgr in
  (∃ tr resp, runs (pdu_session_resource_modification_routine.run routine) tr resp) ∧
  ∀ tr resp,
    runs (pdu_session_resource_modification_routine.run routine) tr resp →
    pdu_session_resource_modification_routine.failed_pdu_session_id
      <$> pdu_session_resource_modification_routine.pdu_session_res_failed_to_modify_list resp
    = pdu_session_resource_modification_routine.pdu_session_id
      <$> pdu_session_resource_modification_routine.pdu_session_res_modify_items req ∧
    pdu_session_resource_modification_routine.pdu_session_res_modify_list resp = [] ∧
    filter pdu_session_resource_modification_routine.is_peer_call tr = [] ∧
    filter pdu_session_resource_modification_routine.is_config_update tr = [].
Proof.
  intros Hex routine.
  pose proof (run_failure_runs routine) as Hruns.
  assert (Hne : pdu_session_resource_modification_routine.pdu_session_res_modify_items req ≠ []).
  { intros Heq. rewrite Heq in Hex. by apply Exists_nil in Hex. }
  split.
  - eexists _, _. apply Hruns; [by right|]. split; [|reflexivity]. eexists. by split.
  - intros tr resp Hrun. apply Hruns in Hrun as [(why & -> & ->) ->]; [|by right].
    destruct (mark_all_sessions_as_failed_spec
                pdu_session_resource_modification_routine.response_default req) as [Hm Hf].
    simpl. rewrite Hm, Hf. simpl. rewrite bool_decide_eq_false_2 by done.
    split; [|done]. rewrite <- list_fmap_compose. done.
Qed.

Lemma unknown_session_fails_all_witness :
  ∃ tr resp,
    runs (pdu_session_resource_modification_routine.run
            (pdu_session_resource_modification_routine.make request_2_5 manager_2)) tr resp.
Proof.
  assert (Hex : Exists (fun item =>
            pdu_session_resource_modification_routine.has_pdu_session manager_2
              (pdu_session_resource_modification_routine.pdu_session_id item) = false)
         (pdu_session_resource_modification_routine.pdu_session_res_modify_items request_2_5)).
  { apply Exists_cons_tl, Exists_cons_hd. reflexivity. }
  exact (proj1 (unknown_session_fails_all request_2_5 manager_2 Hex)).
Defined.

(** C4.  On a request whose list of sub-items is empty the routine completes
    at once: its only run makes three calls, all on the logger (initialized,
    skipping the empty modification, failed), and returns the failure
    response, in which no session is modified; no method of a peer notifier
    is called and the configuration is not updated. *)
Theorem empty_request_fails
    (req : pdu_session_resource_modification_routine.cu_cp_pdu_session_resource_modify_request)
    (mgr : pdu_session_resource_modification_routine.up_resource_manager) :
  pdu_session_resource_modification_routine.pdu_session_res_modify_items req = [] →
  let routine := pdu_session_resource_modification_routine.make req mgr in
  (∃ tr resp, runs (pdu_session_resource_modification_routine.run routine) tr resp) ∧
  ∀ tr resp,
    runs (pdu_session_resource_modification_routine.run routine) tr resp →
    tr = [Obs (pdu_session_resource_modification_routine.logger_log debug
                 fmt_ue_initialized) tt;
          Obs (pdu_session_resource_modification_routine.logger_log info
                 fmt_ue_skipping_empty) tt;
          Obs (pdu_session_resource_modification_routine.logger_log error
                 fmt_ue_failed) tt] ∧
    resp = pdu_session_resource_modification_routine.mark_all_sessions_as_failed
             pdu_session_resource_modification_routine.response_default req ∧
    pdu_session_resource_modification_routine.pdu_session_res_modify_list resp = [] ∧
    pdu_session_resource_modification_routine.pdu_session_res_failed_to_modify_list resp = [] ∧
    filter pdu_session_resource_modification_routine.is_peer_call tr = [] ∧
    filter pdu_session_resource_modification_routine.is_config_update tr = [].
Proof.
  intros Hempty routine.
  pose proof (run_failure_runs routine) as Hruns.
  split.
  - eexists _, _. apply Hruns; [by left|]. split; [|reflexivity]. eexists. by split.
  - intros tr resp Hrun. apply Hruns in Hrun as [(why & -> & ->) ->]; [|by left].
    destruct (mark_all_sessions_as_failed_spec
                pdu_session_resource_modification_routine.response_default req) as [Hm Hf].
    simpl. rewrite Hm, Hf, Hempty. simpl. done.
Qed.

Lemma empty_request_fails_witness :
  ∃ tr resp,
    runs (pdu_session_resource_modification_routine.run
            (pdu_session_resource_modification_routine.make request_empty manager_2)) tr resp.
Proof.
  exact (proj1 (empty_request_fails request_empty manager_2 eq_refl)).
Defined.

(** ** The NGAP PDU session resource release procedure *)

Section release_procedure_facts.

Import ngap_pdu_session_resource_release_procedure.

Context {release_command release_response asn1_ies : Type}.
Variable fill : release_response → option asn1_ies.

Implicit Types (p : @ngap_pdu_session_resource_release_procedure.t release_command).

Lemma send_response_runs p (response : release_response) tr u :
  runs (send_pdu_session_resource_release_response fill p response) tr u ↔
  tr = send_calls fill p response.
Proof.
  unfold send_pdu_session_resource_release_response, send_calls.
  destruct (fill response) as [ies|].
  - unfold mbind, itree_bind. rewrite runs_call. split.
    + intros ([] & tr' & -> & ->%runs_trigger). by destruct u.
    + intros ->. exists tt. eexists. split; [done|]. destruct u. by apply runs_trigger.
  - rewrite runs_trigger. by destruct u.
Qed.

(** The runs of the procedure: one per response of the DU processor. *)
Lemma release_procedure_runs p tr u :
  runs (run fill p) tr u ↔
  ∃ response,
    tr = [Obs (logger_log debug fmt_initialized) tt;
          Obs (on_new_pdu_session_resource_release_command (command p)) response]
         ++ send_calls fill p response
         ++ [Obs (logger_log debug fmt_finalized) tt].
Proof.
  unfold run, mbind, itree_bind. rewrite runs_call. split.
  - intros ([] & tr1 & -> & H).
    apply runs_call in H as (response & tr2 & -> & H).
    apply runs_bind in H as (tr3 & [] & tr4 & ->%send_response_runs & H & ->).
    apply runs_call in H as ([] & tr5 & -> & [-> _]%runs_Ret).
    by exists response.
  - intros (response & ->). exists tt. eexists. split; [done|].
    apply runs_call. exists response. eexists. split; [done|].
    apply runs_bind. exists (send_calls fill p response), tt. eexists.
    split; [by apply send_response_runs|]. split; [|done].
    apply runs_call. exists tt, []. split; [done|]. destruct u. by apply runs_Ret.
Qed.

End release_procedure_facts.

(** C8.  In every run of the NGAP PDU session resource release procedure the
    DU processor control notifier is called once with the release command and
    delivers one response; no message is handed to the AMF notifier before
    that response is delivered; after it, the AMF notifier receives the
    release response message built from that response and the UE ids when the
    ASN.1 response can be filled, and nothing otherwise - at most one message
    per run.  For every response of the DU processor there is such a run. *)
Theorem release_response_after_await {release_command release_response asn1_ies : Type}
    (fill : release_response → option asn1_ies)
    (p : @ngap_pdu_session_resource_release_procedure.t release_command) :
  (∀ response,
     ∃ tr, runs (ngap_pdu_session_resource_release_procedure.run fill p) tr tt ∧
           ngap_pdu_session_resource_release_procedure.du_responses tr = [response]) ∧
  ∀ tr u,
    runs (ngap_pdu_session_resource_release_procedure.run fill p) tr u →
    ∃ pre response post,
      tr = pre ++
           Obs (ngap_pdu_session_resource_release_procedure.on_new_pdu_session_resource_release_command
                  (ngap_pdu_session_resource_release_procedure.command p)) response :: post ∧
      ngap_pdu_session_resource_release_procedure.amf_messages pre = [] ∧
      ngap_pdu_session_resource_release_procedure.du_responses pre = [] ∧
      ngap_pdu_session_resource_release_procedure.du_responses post = [] ∧
      ngap_pdu_session_resource_release_procedure.amf_messages post
        = match fill response with
          | Some ies =>
              [ {| ngap_pdu_session_resource_release_procedure.amf_ue_ngap_id :=
                     ngap_pdu_session_resource_release_procedure.amf_ue_id
                       (ngap_pdu_session_resource_release_procedure.ue_ids p);
                   ngap_pdu_session_resource_release_procedure.ran_ue_ngap_id :=
                     ngap_pdu_session_resource_release_procedure.ran_ue_id
                       (ngap_pdu_session_resource_release_procedure.ue_ids p);
                   ngap_pdu_session_resource_release_procedure.pdu_session_res_release_resp :=
                     ies |} ]
          | None => []
          end ∧
      (List.length (ngap_pdu_session_resource_release_procedure.amf_messages tr) ≤ 1)%nat.
Proof.
  split.
  - intros response. eexists. split.
    + apply release_procedure_runs. by exists response.
    + unfold send_calls. by destruct (fill response).
  - intros tr u (response & ->)%release_procedure_runs.
    exists [Obs (ngap_pdu_session_resource_release_procedure.logger_log debug
                   fmt_initialized) tt], response.
    eexists. split; [reflexivity|].
    unfold send_calls. destruct (fill response); simpl; repeat split; lia.
Qed.

Lemma release_response_after_await_witness :
  ∃ tr, runs (ngap_pdu_session_resource_release_procedure.run fill_if_true release_procedure_3)
          tr tt ∧
        (List.length (ngap_pdu_session_resource_release_procedure.amf_messages tr) ≤ 1)%nat.
Proof.
  destruct (proj1 (release_response_after_await fill_if_true release_procedure_3) true)
    as (tr & Hrun & _).
  exists tr. split; [exact Hrun|].
  destruct (proj2 (release_response_after_await fill_if_true release_procedure_3) tr tt Hrun)
    as (pre & response & post & _ & _ & _ & _ & _ & Hle).
  exact Hle.
Defined.

(** ** The routine manager *)

Section routine_manager_facts.

Context {task : Type}.

Implicit Types (m : cu_cp_routine_manager.t task) (es : list (@cu_cp_routine_manager.event task)).

Lemma length_delete_le {A} (l : list A) (i : nat) :
  (List.length (delete i l) ≤ List.length l)%nat.
Proof.
  revert i. induction l as [|x l IH]; intros [|i]; simpl; [lia..|].
  specialize (IH i). lia.
Qed.

Lemma step_capacity m e :
  task_pool.capacity (cu_cp_routine_manager.main_ctrl_loop (cu_cp_routine_manager.step m e))
  = task_pool.capacity (cu_cp_routine_manager.main_ctrl_loop m).
Proof.
  destruct e as [tk|i]; simpl; [|done].
  unfold cu_cp_routine_manager.schedule_async_task, task_pool.schedule.
  by case_bool_decide.
Qed.

Lemma step_pending m e :
  (cu_cp_routine_manager.pending m
     ≤ task_pool.capacity (cu_cp_routine_manager.main_ctrl_loop m))%nat →
  (cu_cp_routine_manager.pending (cu_cp_routine_manager.step m e)
     ≤ task_pool.capacity (cu_cp_routine_manager.main_ctrl_loop m))%nat.
Proof.
  unfold cu_cp_routine_manager.pending. intros Hle.
  destruct e as [tk|i]; simpl.
  - unfold cu_cp_routine_manager.schedule_async_task, task_pool.schedule.
    case_bool_decide; simpl; [|done]. rewrite length_app. simpl. lia.
  - pose proof (length_delete_le (task_pool.tasks (cu_cp_routine_manager.main_ctrl_loop m)) i).
    lia.
Qed.

(** The pool of a manager has capacity 128 and never holds more. *)
Lemma after_capacity es :
  task_pool.capacity (cu_cp_routine_manager.main_ctrl_loop (cu_cp_routine_manager.after es))
    = 128%nat ∧
  (cu_cp_routine_manager.pending (cu_cp_routine_manager.after es) ≤ 128)%nat.
Proof.
  unfold cu_cp_routine_manager.after.
  induction es as [|e es IH] using rev_ind; [simpl; split; [done|]; unfold cu_cp_routine_manager.pending; simpl; lia|].
  rewrite foldl_app. simpl. destruct IH as [Hcap Hle].
  rewrite step_capacity. split; [done|].
  rewrite <- Hcap. apply step_pending. by rewrite Hcap.
Qed.

End routine_manager_facts.

(** C7.  The main control loop of the routine manager is a pool of capacity
    128.  schedule_async_task always returns: false, with the manager
    unchanged, when the pool holds 128 tasks, and true, with the task added,
    when it holds fewer; once a task of a full pool has completed, the next
    schedule_async_task returns true again. *)
Theorem schedule_capacity_rejection {task : Type}
    (es : list (@cu_cp_routine_manager.event task)) (tk : task) :
  let m := cu_cp_routine_manager.after es in
  (cu_cp_routine_manager.pending m ≤ 128)%nat ∧
  (cu_cp_routine_manager.pending m = 128%nat →
     cu_cp_routine_manager.schedule_async_task m tk = (m, false)) ∧
  (cu_cp_routine_manager.pending m < 128 →
     snd (cu_cp_routine_manager.schedule_async_task m tk) = true ∧
     cu_cp_routine_manager.pending (fst (cu_cp_routine_manager.schedule_async_task m tk))
       = S (cu_cp_routine_manager.pending m))%nat ∧
  (cu_cp_routine_manager.pending m = 128%nat →
     ∀ i, (i < 128)%nat →
       snd (cu_cp_routine_manager.schedule_async_task
              (cu_cp_routine_manager.step m (cu_cp_routine_manager.ev_complete i)) tk) = true).
Proof.
  intros m. destruct (after_capacity es) as [Hcap Hle]. fold m in Hcap, Hle.
  split; [done|].
  unfold cu_cp_routine_manager.schedule_async_task, task_pool.schedule,
    cu_cp_routine_manager.pending in *.
  split; [|split].
  - intros Hfull. rewrite Hcap, Hfull. rewrite bool_decide_eq_false_2 by lia.
    by destruct m.
  - intros Hroom. rewrite Hcap. rewrite bool_decide_eq_true_2 by lia. simpl.
    split; [done|]. rewrite length_app. simpl. lia.
  - intros Hfull i Hi. simpl. rewrite Hcap.
    rewrite length_delete by (apply lookup_lt_is_Some; lia).
    rewrite bool_decide_eq_true_2 by lia. done.
Qed.

Lemma schedule_capacity_rejection_witness :
  let m := cu_cp_routine_manager.after (replicate 128 (cu_cp_routine_manager.ev_schedule tt)) in
  cu_cp_routine_manager.schedule_async_task m tt = (m, false) ∧
  snd (cu_cp_routine_manager.schedule_async_task
         (cu_cp_routine_manager.step m (cu_cp_routine_manager.ev_complete 0)) tt) = true.
Proof.
  intros m.
  assert (Hfull : cu_cp_routine_manager.pending m = 128%nat) by (vm_compute; reflexivity).
  destruct (schedule_capacity_rejection
              (replicate 128 (cu_cp_routine_manager.ev_schedule tt)) tt)
    as (_ & Hreject & _ & Hagain).
  split.
  - exact (Hreject Hfull).
  - apply (Hagain Hfull). lia.
Defined.

(** ** The E2AP network adapter *)

Section adapter_facts.

Context {e2_message byte_buffer : Type}.

#[local] Abbreviation setup := (@e2ap_network_adapter.setup e2_message byte_buffer).
#[local] Abbreviation setups := (@e2ap_network_adapter.setups e2_message byte_buffer).

(** Nothing but [connect_e2ap] sets the two E2AP handlers. *)
Lemma setup_keeps_handlers (a a' : e2ap_network_adapter.t) s :
  setup a s = Done a' →
  e2ap_network_adapter.e2ap_msg_handler a' = e2ap_network_adapter.e2ap_msg_handler a ∧
  e2ap_network_adapter.event_handler a' = e2ap_network_adapter.event_handler a.
Proof.
  destruct s as [ctrl data connected| |msg|pdu|]; simpl.
  - unfold e2ap_network_adapter.connect_gateway.
    destruct data; simpl; [|done]. destruct ctrl; simpl; [|done].
    destruct connected; simpl; [|done]. by intros [= <-].
  - unfold e2ap_network_adapter.disconnect_gateway.
    destruct (e2ap_network_adapter.gateway_ctrl_handler a); simpl; [|done].
    by intros [= <-].
  - unfold e2ap_network_adapter.on_new_message.
    destruct (e2ap_network_adapter.packer a); simpl; by intros [= <-].
  - unfold e2ap_network_adapter.on_new_pdu.
    destruct (e2ap_network_adapter.packer a); simpl; by intros [= <-].
  - by intros [= <-].
Qed.

Lemma setups_keep_handlers (a a' : e2ap_network_adapter.t) ss :
  setups a ss = Done a' →
  e2ap_network_adapter.e2ap_msg_handler a' = e2ap_network_adapter.e2ap_msg_handler a ∧
  e2ap_network_adapter.event_handler a' = e2ap_network_adapter.event_handler a.
Proof.
  revert a. induction ss as [|s ss IH]; intros a; simpl.
  - by intros [= <-].
  - destruct (setup a s) as [a1| |] eqn:Hs; simpl; [|done..].
    intros H. apply IH in H as [-> ->]. by apply setup_keeps_handlers in Hs.
Qed.

End adapter_facts.

(** C9.  An inbound delivery before the dependency was wired aborts the
    process with a diagnostic: handle_message aborts with "E2AP handler not
    set." when the E2AP message handler is unset, on_connection_loss aborts
    with the same diagnostic when the event handler is unset, and both are
    unset in every adapter on which connect_e2ap was not called, whatever
    was done to it since its construction.  Nothing else is attempted: no
    call is made on any handler. *)
Theorem unwired_handlers_abort {e2_message byte_buffer : Type} :
  (∀ (a : e2ap_network_adapter.t) (msg : e2_message),
     e2ap_network_adapter.e2ap_msg_handler a = None →
     @e2ap_network_adapter.handle_message e2_message byte_buffer a msg
       = Abort "E2AP handler not set.") ∧
  (∀ a : e2ap_network_adapter.t,
     e2ap_network_adapter.event_handler a = None →
     @e2ap_network_adapter.on_connection_loss e2_message byte_buffer a
       = Abort "E2AP handler not set.") ∧
  (∀ (ss : list (e2ap_network_adapter.setup_step e2_message byte_buffer))
     (a : e2ap_network_adapter.t) (msg : e2_message),
     e2ap_network_adapter.setups e2ap_network_adapter.make ss = Done a →
     @e2ap_network_adapter.handle_message e2_message byte_buffer a msg
       = Abort "E2AP handler not set." ∧
     @e2ap_network_adapter.on_connection_loss e2_message byte_buffer a
       = Abort "E2AP handler not set.").
Proof.
  assert (H1 : ∀ (a : e2ap_network_adapter.t) (msg : e2_message),
     e2ap_network_adapter.e2ap_msg_handler a = None →
     @e2ap_network_adapter.handle_message e2_message byte_buffer a msg
       = Abort "E2AP handler not set.").
  { intros a msg Hnone. unfold e2ap_network_adapter.handle_message. by rewrite Hnone. }
  assert (H2 : ∀ a : e2ap_network_adapter.t,
     e2ap_network_adapter.event_handler a = None →
     @e2ap_network_adapter.on_connection_loss e2_message byte_buffer a
       = Abort "E2AP handler not set.").
  { intros a Hnone. unfold e2ap_network_adapter.on_connection_loss. by rewrite Hnone. }
  split; [done|]. split; [done|].
  intros ss a msg [Hm He]%setups_keep_handlers. split; [apply H1|apply H2]; done.
Qed.

Lemma unwired_handlers_abort_witness :
  @e2ap_network_adapter.handle_message nat nat
    {| e2ap_network_adapter.packer := Some 8%nat;
       e2ap_network_adapter.gateway_ctrl_handler := Some 7%nat;
       e2ap_network_adapter.gateway_data_handler := Some 8%nat;
       e2ap_network_adapter.e2ap_msg_handler := None;
       e2ap_network_adapter.event_handler := None |} 42%nat
  = Abort "E2AP handler not set.".
Proof.
  refine (proj1 (proj2 (proj2 (@unwired_handlers_abort nat nat))
            [e2ap_network_adapter.do_on_new_pdu 1%nat;
             e2ap_network_adapter.do_connect_gateway (Some 7%nat) (Some 8%nat) true;
             e2ap_network_adapter.do_on_new_pdu 2%nat] _ 42%nat eq_refl)).
Defined.

(** Once [connect_e2ap] has wired the handlers, the message is delivered. *)
Lemma wired_handler_delivers :
  @e2ap_network_adapter.handle_message nat nat
    (e2ap_network_adapter.connect_e2ap e2ap_network_adapter.make (Some 3%nat) (Some 4%nat)) 42%nat
  = Done [e2ap_network_adapter.e2ap_handle_message 3%nat 42%nat].
Proof. reflexivity. Qed.

(** ** More on the operations of a segment *)

Section segment_operations.

Import byte_buffer_segment.

Implicit Types (s : byte_buffer_segment.t) (bytes : list byte).

(** A segment whose payload pointers were moved inside the array. *)
Lemma moved_wf s s' :
  segment_wf s → buffer s' = buffer s →
  0 ≤ payload_data_ s' → payload_data_ s' ≤ payload_data_end_ s' →
  payload_data_end_ s' ≤ SEGMENT_SIZE →
  segment_wf s'.
Proof.
  intros (_ & _ & _ & Hlen) Hb H0 H1 H2. unfold segment_wf, begin, end_.
  rewrite Hb. done.
Qed.

Lemma trim_head_spec s n :
  segment_wf s → 0 ≤ n ≤ length s →
  ∃ s', trim_head s n = Done s' ∧ segment_wf s' ∧
        payload s' = drop (Z.to_nat n) (payload s) ∧
        metadata_ s' = metadata_ s ∧ buffer s' = buffer s ∧
        payload_data_ s' = payload_data_ s + n ∧
        payload_data_end_ s' = payload_data_end_ s.
Proof.
  intros Hwf Hn. destruct (wf_accessors s Hwf) as (Hh & Hl & Ht & _).
  pose proof Hwf as (H0 & H1 & H2 & Hlen). unfold begin, end_, SEGMENT_SIZE in *.
  unfold trim_head. rewrite to_size_t_small by lia. rewrite assert_bind.
  rewrite (proj2 (Z.leb_le _ _)) by lia.
  eexists. split; [reflexivity|].
  match goal with |- segment_wf ?x ∧ _ => assert (Hwf' : segment_wf x) end.
  { eapply moved_wf; [exact Hwf|done|simpl..]; unfold SEGMENT_SIZE; lia. }
  split; [done|]. split; [|done].
  rewrite (payload_wf _ Hwf'), (payload_wf _ Hwf). simpl.
  replace (Z.to_nat (payload_data_end_ s) - Z.to_nat (payload_data_ s))%nat
    with (Z.to_nat n + (Z.to_nat (payload_data_end_ s) - Z.to_nat (payload_data_ s + n)))%nat
    by lia.
  rewrite <- take_drop_commute, drop_drop. do 2 f_equal. lia.
Qed.

Lemma trim_tail_spec s n :
  segment_wf s → 0 ≤ n ≤ length s →
  ∃ s', trim_tail s n = Done s' ∧ segment_wf s' ∧
        payload s' = take (Z.to_nat (length s - n)) (payload s) ∧
        metadata_ s' = metadata_ s ∧ buffer s' = buffer s ∧
        payload_data_ s' = payload_data_ s ∧
        payload_data_end_ s' = payload_data_end_ s - n.
Proof.
  intros Hwf Hn. destruct (wf_accessors s Hwf) as (Hh & Hl & Ht & _).
  pose proof Hwf as (H0 & H1 & H2 & Hlen). unfold begin, end_, SEGMENT_SIZE in *.
  unfold trim_tail. rewrite to_size_t_small by lia. rewrite assert_bind.
  rewrite (proj2 (Z.leb_le _ _)) by lia.
  eexists. split; [reflexivity|].
  match goal with |- segment_wf ?x ∧ _ => assert (Hwf' : segment_wf x) end.
  { eapply moved_wf; [exact Hwf|done|simpl..]; unfold SEGMENT_SIZE; lia. }
  split; [done|]. split; [|done].
  rewrite (payload_wf _ Hwf'), (payload_wf _ Hwf). simpl.
  rewrite take_take. f_equal. lia.
Qed.

Lemma trim_abort s n :
  0 ≤ n < 2 ^ 64 → length s < n →
  trim_head s n = Abort "There is not enough headroom space." ∧
  trim_tail s n = Abort "There is not enough headroom space.".
Proof.
  intros Hn Hlt. unfold trim_head, trim_tail.
  rewrite to_size_t_small by lia. rewrite !assert_bind.
  by rewrite (proj2 (Z.leb_gt _ _)) by lia.
Qed.

Lemma reserve_prepend_spec s n :
  segment_wf s → 0 ≤ n ≤ headroom s →
  ∃ s', reserve_prepend s n = Done s' ∧ segment_wf s' ∧
        drop (Z.to_nat n) (payload s') = payload s ∧
        metadata_ s' = metadata_ s ∧ buffer s' = buffer s ∧
        payload_data_ s' = payload_data_ s - n ∧
        payload_data_end_ s' = payload_data_end_ s.
Proof.
  intros Hwf Hn. destruct (wf_accessors s Hwf) as (Hh & Hl & Ht & _).
  pose proof Hwf as (H0 & H1 & H2 & Hlen). unfold begin, end_, SEGMENT_SIZE in *.
  unfold reserve_prepend. rewrite to_size_t_small by lia. rewrite assert_bind.
  rewrite (proj2 (Z.leb_le _ _)) by lia.
  eexists. split; [reflexivity|].
  match goal with |- segment_wf ?x ∧ _ => assert (Hwf' : segment_wf x) end.
  { eapply moved_wf; [exact Hwf|done|simpl..]; unfold SEGMENT_SIZE; lia. }
  split; [done|]. split; [|done].
  rewrite (payload_wf _ Hwf'), (payload_wf _ Hwf). simpl.
  replace (Z.to_nat (payload_data_end_ s) - Z.to_nat (payload_data_ s - n))%nat
    with (Z.to_nat n + (Z.to_nat (payload_data_end_ s) - Z.to_nat (payload_data_ s)))%nat
    by lia.
  rewrite <- take_drop_commute, drop_drop. do 2 f_equal. lia.
Qed.

Lemma resize_spec s n :
  segment_wf s → 0 ≤ n ≤ capacity - headroom s →
  ∃ s', resize s n = Done s' ∧ segment_wf s' ∧
        payload s' = take (Z.to_nat n) (drop (Z.to_nat (payload_data_ s)) (buffer s)) ∧
        metadata_ s' = metadata_ s ∧ buffer s' = buffer s ∧
        payload_data_ s' = payload_data_ s ∧
        payload_data_end_ s' = payload_data_ s + n.
Proof.
  intros Hwf Hn. destruct (wf_accessors s Hwf) as (Hh & Hl & Ht & _).
  pose proof Hwf as (H0 & H1 & H2 & Hlen).
  unfold begin, end_, capacity, SEGMENT_SIZE in *.
  unfold resize, capacity, SEGMENT_SIZE.
  rewrite (to_size_t_small n) by lia.
  rewrite (to_size_t_small (256 - headroom s)) by lia. rewrite assert_bind.
  rewrite (proj2 (Z.leb_le _ _)) by lia.
  eexists. split; [reflexivity|].
  match goal with |- segment_wf ?x ∧ _ => assert (Hwf' : segment_wf x) end.
  { eapply moved_wf; [exact Hwf|done|simpl..]; unfold SEGMENT_SIZE; lia. }
  split; [done|]. split; [|done].
  rewrite (payload_wf _ Hwf'). simpl. f_equal. lia.
Qed.

Lemma load_payload s i :
  segment_wf s → 0 ≤ i < length s →
  load s (begin s + i) = of_option (payload s !! Z.to_nat i).
Proof.
  intros Hwf Hi. pose proof Hwf as (H0 & _).
  unfold load. rewrite decide_True by lia.
  rewrite (payload_lookup s (Z.to_nat i)) by (done || lia).
  unfold data. do 3 f_equal. lia.
Qed.

Lemma std_equal_spec (r1 r2 : list byte) : std_equal r1 r2 = bool_decide (r1 = r2).
Proof.
  revert r2. induction r1 as [|b1 r1 IH]; intros [|b2 r2]; simpl; try done.
  rewrite IH. destruct (decide (b1 = b2)) as [->|Hne].
  - rewrite bool_decide_true by done. simpl.
    apply bool_decide_ext. split; [by intros ->|congruence].
  - rewrite bool_decide_false by done. simpl.
    symmetry. apply bool_decide_false. congruence.
Qed.

End segment_operations.

(** X1.  [trim_head(n)] on a segment whose pointers are in bounds: when [n]
    exceeds the payload length the assertion fails (its diagnostic speaks of
    headroom); otherwise the first [n] payload bytes are dropped, the
    headroom grows by [n], the length shrinks by [n], and the tailroom and
    the metadata are unchanged. *)
Theorem trim_head_contract (s : byte_buffer_segment.t) (n : Z) :
  segment_wf s → 0 ≤ n < 2 ^ 64 →
  (byte_buffer_segment.length s < n →
     byte_buffer_segment.trim_head s n = Abort "There is not enough headroom space.") ∧
  (n ≤ byte_buffer_segment.length s →
     ∃ s', byte_buffer_segment.trim_head s n = Done s' ∧
           byte_buffer_segment.payload s' = drop (Z.to_nat n) (byte_buffer_segment.payload s) ∧
           byte_buffer_segment.headroom s' = byte_buffer_segment.headroom s + n ∧
           byte_buffer_segment.length s' = byte_buffer_segment.length s - n ∧
           byte_buffer_segment.tailroom s' = byte_buffer_segment.tailroom s ∧
           byte_buffer_segment.metadata s' = byte_buffer_segment.metadata s).
Proof.
  intros Hwf Hn. split.
  - intros Hlt. by apply trim_abort.
  - intros Hle.
    destruct (trim_head_spec s n Hwf) as (s' & Hs' & Hwf' & Hp & Hm & _ & Hb & He); [lia|].
    exists s'. split_and!; try done.
    all: destruct (wf_accessors s Hwf) as (Hh & Hl & Ht & _);
      destruct (wf_accessors s' Hwf') as (Hh' & Hl' & Ht' & _); lia.
Qed.

Lemma trim_head_contract_witness :
  byte_buffer_segment.trim_head segment_abc 4 = Abort "There is not enough headroom space." ∧
  ∃ s', byte_buffer_segment.trim_head segment_abc 2 = Done s' ∧
        byte_buffer_segment.payload s' = [x63] ∧
        byte_buffer_segment.headroom s' = 18 ∧
        byte_buffer_segment.length s' = 1.
Proof.
  assert (Hwf : segment_wf segment_abc) by (vm_compute; intuition discriminate).
  split.
  - apply (proj1 (trim_head_contract segment_abc 4 Hwf ltac:(lia))). reflexivity.
  - destruct (proj2 (trim_head_contract segment_abc 2 Hwf ltac:(lia)))
      as (s' & Hs' & Hp & Hh & Hl & _); [vm_compute; discriminate|].
    exists s'. split_and!; done.
Defined.

(** X2.  [trim_tail(n)] on a segment whose pointers are in bounds: when [n]
    exceeds the payload length the assertion fails; otherwise the last [n]
    payload bytes are dropped, the tailroom grows by [n], and the headroom
    and the metadata are unchanged. *)
Theorem trim_tail_contract (s : byte_buffer_segment.t) (n : Z) :
  segment_wf s → 0 ≤ n < 2 ^ 64 →
  (byte_buffer_segment.length s < n →
     byte_buffer_segment.trim_tail s n = Abort "There is not enough headroom space.") ∧
  (n ≤ byte_buffer_segment.length s →
     ∃ s', byte_buffer_segment.trim_tail s n = Done s' ∧
           byte_buffer_segment.payload s'
             = take (Z.to_nat (byte_buffer_segment.length s - n))
                 (byte_buffer_segment.payload s) ∧
           byte_buffer_segment.headroom s' = byte_buffer_segment.headroom s ∧
           byte_buffer_segment.length s' = byte_buffer_segment.length s - n ∧
           byte_buffer_segment.tailroom s' = byte_buffer_segment.tailroom s + n ∧
           byte_buffer_segment.metadata s' = byte_buffer_segment.metadata s).
Proof.
  intros Hwf Hn. split.
  - intros Hlt. by apply trim_abort.
  - intros Hle.
    destruct (trim_tail_spec s n Hwf) as (s' & Hs' & Hwf' & Hp & Hm & _ & Hb & He); [lia|].
    exists s'. split_and!; try done.
    all: destruct (wf_accessors s Hwf) as (Hh & Hl & Ht & _);
      destruct (wf_accessors s' Hwf') as (Hh' & Hl' & Ht' & _); lia.
Qed.

Lemma trim_tail_contract_witness :
  byte_buffer_segment.trim_tail segment_abc 4 = Abort "There is not enough headroom space." ∧
  ∃ s', byte_buffer_segment.trim_tail segment_abc 2 = Done s' ∧
        byte_buffer_segment.payload s' = [x61] ∧
        byte_buffer_segment.tailroom s' = 239.
Proof.
  assert (Hwf : segment_wf segment_abc) by (vm_compute; intuition discriminate).
  split.
  - apply (proj1 (trim_tail_contract segment_abc 4 Hwf ltac:(lia))). reflexivity.
  - destruct (proj2 (trim_tail_contract segment_abc 2 Hwf ltac:(lia)))
      as (s' & Hs' & Hp & Hh & Hl & Ht & _); [vm_compute; discriminate|].
    exists s'. split_and!; done.
Defined.

Section segment_operations_2.

Import byte_buffer_segment.

Implicit Types (s : byte_buffer_segment.t) (bytes : list byte).

Lemma append_abort s bytes :
  tailroom s < Z.of_nat (List.length bytes) →
  append s bytes = Abort "There is not enough tailroom for append.".
Proof.
  intros Hlt. unfold append. rewrite sanity_check_bind.
  by rewrite (proj2 (Z.leb_gt _ _)) by lia.
Qed.

(** With room for one byte, [append(uint8_t)] is [append] of a span of one
    byte. *)
Lemma append_byte_append s (b : byte) :
  segment_wf s → 1 ≤ tailroom s → append_byte s b = append s [b].
Proof.
  intros Hwf Ht. destruct (wf_accessors s Hwf) as (_ & _ & _ & Hts).
  unfold append_byte, append. rewrite assert_bind, sanity_check_bind, Hts.
  simpl List.length. change (Z.of_nat 1) with 1.
  by rewrite (proj2 (Z.leb_le _ _)) by lia.
Qed.

(** A segment is its four members. *)
Lemma segment_eq s s' :
  metadata_ s' = metadata_ s → buffer s' = buffer s →
  payload_data_ s' = payload_data_ s → payload_data_end_ s' = payload_data_end_ s →
  s' = s.
Proof. destruct s, s'; simpl; intros; by subst. Qed.

End segment_operations_2.

(** X3.  [append(bytes)] on a segment whose pointers are in bounds: with
    less tailroom than bytes the sanity check fails; otherwise the bytes
    follow the previous payload, the tailroom shrinks by their number, and
    the headroom and the metadata are unchanged. *)
Theorem append_contract (s : byte_buffer_segment.t) (bytes : list byte) :
  segment_wf s →
  (byte_buffer_segment.tailroom s < Z.of_nat (List.length bytes) →
     byte_buffer_segment.append s bytes = Abort "There is not enough tailroom for append.") ∧
  (Z.of_nat (List.length bytes) ≤ byte_buffer_segment.tailroom s →
     ∃ s', byte_buffer_segment.append s bytes = Done s' ∧
           byte_buffer_segment.payload s' = byte_buffer_segment.payload s ++ bytes ∧
           byte_buffer_segment.headroom s' = byte_buffer_segment.headroom s ∧
           byte_buffer_segment.length s'
             = byte_buffer_segment.length s + Z.of_nat (List.length bytes) ∧
           byte_buffer_segment.tailroom s'
             = byte_buffer_segment.tailroom s - Z.of_nat (List.length bytes) ∧
           byte_buffer_segment.metadata s' = byte_buffer_segment.metadata s).
Proof.
  intros Hwf. split.
  - apply append_abort.
  - intros Hle.
    destruct (append_spec s bytes Hwf Hle) as (s' & Hs' & Hwf' & Hp & Hm & Hb & He).
    exists s'. split_and!; try done.
    all: destruct (wf_accessors s Hwf) as (Hh & Hl & Ht & _);
      destruct (wf_accessors s' Hwf') as (Hh' & Hl' & Ht' & _); lia.
Qed.

Lemma append_contract_witness :
  byte_buffer_segment.append segment_abc (repeat x01 238)
    = Abort "There is not enough tailroom for append." ∧
  ∃ s', byte_buffer_segment.append segment_abc [x64; x65] = Done s' ∧
        byte_buffer_segment.payload s' = [x61; x62; x63; x64; x65] ∧
        byte_buffer_segment.tailroom s' = 235.
Proof.
  assert (Hwf : segment_wf segment_abc) by (vm_compute; intuition discriminate).
  split.
  - apply (proj1 (append_contract segment_abc (repeat x01 238) Hwf)). reflexivity.
  - destruct (proj2 (append_contract segment_abc [x64; x65] Hwf))
      as (s' & Hs' & Hp & Hh & Hl & Ht & _); [vm_compute; discriminate|].
    exists s'. split_and!; done.
Defined.

(** X4.  [append(uint8_t)] on a segment whose pointers are in bounds: with
    no tailroom the assertion fails; otherwise the call does what [append]
    of a one-byte span does, and the byte becomes the last payload byte. *)
Theorem append_byte_contract (s : byte_buffer_segment.t) (b : byte) :
  segment_wf s →
  (byte_buffer_segment.tailroom s = 0 →
     byte_buffer_segment.append_byte s b = Abort "There is not enough tailroom space.") ∧
  (1 ≤ byte_buffer_segment.tailroom s →
     byte_buffer_segment.append_byte s b = byte_buffer_segment.append s [b] ∧
     ∃ s', byte_buffer_segment.append_byte s b = Done s' ∧
           byte_buffer_segment.payload s' = byte_buffer_segment.payload s ++ [b] ∧
           byte_buffer_segment.length s' = byte_buffer_segment.length s + 1 ∧
           byte_buffer_segment.back s' = Done b).
Proof.
  intros Hwf. split.
  - intros Ht. unfold byte_buffer_segment.append_byte. rewrite assert_bind, Ht. done.
  - intros Ht. split; [by apply append_byte_append|].
    rewrite append_byte_append by done.
    destruct (append_spec s [b] Hwf) as (s' & Hs' & Hwf' & Hp & Hm & Hb & He); [simpl; lia|].
    exists s'. split_and!; try done.
    + destruct (wf_accessors s Hwf) as (Hh & Hl & _).
      destruct (wf_accessors s' Hwf') as (Hh' & Hl' & _). simpl in He. lia.
    + destruct (wf_accessors s Hwf) as (Hh & Hl & _).
      destruct (wf_accessors s' Hwf') as (Hh' & Hl' & _).
      pose proof Hwf as (H0 & H1 & _). unfold byte_buffer_segment.begin,
        byte_buffer_segment.end_ in *. simpl in He.
      unfold byte_buffer_segment.back, byte_buffer_segment.empty,
        byte_buffer_segment.begin, byte_buffer_segment.end_.
      rewrite assert_bind. rewrite (proj2 (Z.eqb_neq _ _)) by lia. simpl negb. cbv iota.
      replace (byte_buffer_segment.payload_data_end_ s' - 1)
        with (byte_buffer_segment.begin s' + (byte_buffer_segment.length s' - 1))
        by (unfold byte_buffer_segment.begin; lia).
      rewrite load_payload by (done || lia).
      rewrite Hp. rewrite lookup_app_r.
      2:{ pose proof (payload_length s Hwf). lia. }
      replace (_ - _)%nat with 0%nat; [done|].
      pose proof (payload_length s Hwf). lia.
Qed.

Lemma append_byte_contract_witness :
  byte_buffer_segment.append_byte (full_segment None) x64
    = Abort "There is not enough tailroom space." ∧
  ∃ s', byte_buffer_segment.append_byte segment_abc x64 = Done s' ∧
        byte_buffer_segment.payload s' = [x61; x62; x63; x64] ∧
        byte_buffer_segment.back s' = Done x64.
Proof.
  assert (Hwf : segment_wf segment_abc) by (vm_compute; intuition discriminate).
  assert (Hwf' : segment_wf (full_segment None)) by (vm_compute; intuition discriminate).
  split; [apply (proj1 (append_byte_contract (full_segment None) x64 Hwf')); reflexivity|].
  destruct (proj2 (proj2 (append_byte_contract segment_abc x64 Hwf)
                     ltac:(vm_compute; discriminate)))
    as (s' & Hs' & Hp & _ & Hb).
  exists s'. split_and!; done.
Defined.

(** X5.  Appending bytes and trimming as many from the tail again gives a
    segment with the payload, the headroom, the tailroom and the metadata it
    had before. *)
Theorem append_trim_tail_roundtrip (s : byte_buffer_segment.t) (bytes : list byte) :
  segment_wf s →
  Z.of_nat (List.length bytes) ≤ byte_buffer_segment.tailroom s →
  ∃ s1 s2,
    byte_buffer_segment.append s bytes = Done s1 ∧
    byte_buffer_segment.trim_tail s1 (Z.of_nat (List.length bytes)) = Done s2 ∧
    byte_buffer_segment.payload s2 = byte_buffer_segment.payload s ∧
    byte_buffer_segment.headroom s2 = byte_buffer_segment.headroom s ∧
    byte_buffer_segment.length s2 = byte_buffer_segment.length s ∧
    byte_buffer_segment.tailroom s2 = byte_buffer_segment.tailroom s ∧
    byte_buffer_segment.metadata s2 = byte_buffer_segment.metadata s.
Proof.
  intros Hwf Hle.
  destruct (append_spec s bytes Hwf Hle) as (s1 & Hs1 & Hwf1 & Hp1 & Hm1 & Hb1 & He1).
  destruct (wf_accessors s Hwf) as (Hh & Hl & Ht & _).
  destruct (wf_accessors s1 Hwf1) as (Hh1 & Hl1 & Ht1 & _).
  pose proof (payload_length s Hwf) as Hlen.
  destruct (trim_tail_spec s1 (Z.of_nat (List.length bytes)) Hwf1)
    as (s2 & Hs2 & Hwf2 & Hp2 & Hm2 & _ & Hb2 & He2); [lia|].
  destruct (wf_accessors s2 Hwf2) as (Hh2 & Hl2 & Ht2 & _).
  exists s1, s2. split_and!; try done; try lia.
  - rewrite Hp2, Hp1. rewrite take_app_length'; [done|]. lia.
  - unfold byte_buffer_segment.metadata. congruence.
Qed.

Lemma append_trim_tail_roundtrip_witness :
  ∃ s1 s2,
    byte_buffer_segment.append segment_abc [x64; x65] = Done s1 ∧
    byte_buffer_segment.trim_tail s1 2 = Done s2 ∧
    byte_buffer_segment.payload s2 = [x61; x62; x63].
Proof.
  assert (Hwf : segment_wf segment_abc) by (vm_compute; intuition discriminate).
  destruct (append_trim_tail_roundtrip segment_abc [x64; x65] Hwf
              ltac:(vm_compute; discriminate))
    as (s1 & s2 & Hs1 & Hs2 & Hp & _).
  exists s1, s2. split_and!; done.
Defined.

(** X6.  Prepending bytes and trimming as many from the head again gives a
    segment with the payload, the headroom, the tailroom and the metadata it
    had before. *)
Theorem prepend_trim_head_roundtrip (s : byte_buffer_segment.t) (bytes : list byte) :
  segment_wf s →
  Z.of_nat (List.length bytes) ≤ byte_buffer_segment.headroom s →
  ∃ s1 s2,
    byte_buffer_segment.prepend s bytes = Done s1 ∧
    byte_buffer_segment.trim_head s1 (Z.of_nat (List.length bytes)) = Done s2 ∧
    byte_buffer_segment.payload s2 = byte_buffer_segment.payload s ∧
    byte_buffer_segment.headroom s2 = byte_buffer_segment.headroom s ∧
    byte_buffer_segment.length s2 = byte_buffer_segment.length s ∧
    byte_buffer_segment.tailroom s2 = byte_buffer_segment.tailroom s ∧
    byte_buffer_segment.metadata s2 = byte_buffer_segment.metadata s.
Proof.
  intros Hwf Hle.
  destruct (prepend_spec s bytes Hwf Hle) as (s1 & Hs1 & Hwf1 & Hp1 & Hm1 & Hb1 & He1).
  destruct (wf_accessors s Hwf) as (Hh & Hl & Ht & _).
  destruct (wf_accessors s1 Hwf1) as (Hh1 & Hl1 & Ht1 & _).
  pose proof (length_nonneg s) as Hlen.
  destruct (trim_head_spec s1 (Z.of_nat (List.length bytes)) Hwf1)
    as (s2 & Hs2 & Hwf2 & Hp2 & Hm2 & _ & Hb2 & He2); [lia|].
  destruct (wf_accessors s2 Hwf2) as (Hh2 & Hl2 & Ht2 & _).
  exists s1, s2. split_and!; try done; try lia.
  - rewrite Hp2, Hp1, Nat2Z.id. by rewrite drop_app_length.
  - unfold byte_buffer_segment.metadata. congruence.
Qed.

Lemma prepend_trim_head_roundtrip_witness :
  ∃ s1 s2,
    byte_buffer_segment.prepend segment_abc [x30; x31] = Done s1 ∧
    byte_buffer_segment.trim_head s1 2 = Done s2 ∧
    byte_buffer_segment.payload s2 = [x61; x62; x63].
Proof.
  assert (Hwf : segment_wf segment_abc) by (vm_compute; intuition discriminate).
  destruct (prepend_trim_head_roundtrip segment_abc [x30; x31] Hwf
              ltac:(vm_compute; discriminate))
    as (s1 & s2 & Hs1 & Hs2 & Hp & _).
  exists s1, s2. split_and!; done.
Defined.

(** X7.  [reserve_prepend(n)] on a segment whose pointers are in bounds:
    with less headroom than [n] the assertion fails; otherwise the payload
    is extended by [n] bytes at its head (the previous payload follows
    them), nothing is written to the array, and [trim_head(n)] gives the
    segment back as it was. *)
Theorem reserve_prepend_contract (s : byte_buffer_segment.t) (n : Z) :
  segment_wf s → 0 ≤ n < 2 ^ 64 →
  (byte_buffer_segment.headroom s < n →
     byte_buffer_segment.reserve_prepend s n = Abort "There is not enough headroom space.") ∧
  (n ≤ byte_buffer_segment.headroom s →
     ∃ s', byte_buffer_segment.reserve_prepend s n = Done s' ∧
           drop (Z.to_nat n) (byte_buffer_segment.payload s') = byte_buffer_segment.payload s ∧
           byte_buffer_segment.headroom s' = byte_buffer_segment.headroom s - n ∧
           byte_buffer_segment.length s' = byte_buffer_segment.length s + n ∧
           byte_buffer_segment.tailroom s' = byte_buffer_segment.tailroom s ∧
           byte_buffer_segment.buffer s' = byte_buffer_segment.buffer s ∧
           byte_buffer_segment.trim_head s' n = Done s).
Proof.
  intros Hwf Hn. split.
  - intros Hlt. unfold byte_buffer_segment.reserve_prepend.
    rewrite to_size_t_small by lia. rewrite assert_bind.
    by rewrite (proj2 (Z.leb_gt _ _)) by lia.
  - intros Hle.
    destruct (reserve_prepend_spec s n Hwf) as (s' & Hs' & Hwf' & Hp & Hm & Hbuf & Hb & He);
      [lia|].
    destruct (wf_accessors s Hwf) as (Hh & Hl & Ht & _).
    destruct (wf_accessors s' Hwf') as (Hh' & Hl' & Ht' & _).
    pose proof (length_nonneg s) as Hlen.
    exists s'. split_and!; try done; try lia.
    destruct (trim_head_spec s' n Hwf') as (s2 & Hs2 & _ & _ & Hm2 & Hbuf2 & Hb2 & He2);
      [lia|].
    rewrite Hs2. f_equal. apply segment_eq; try congruence. lia.
Qed.

Lemma reserve_prepend_contract_witness :
  byte_buffer_segment.reserve_prepend segment_abc 17
    = Abort "There is not enough headroom space." ∧
  ∃ s', byte_buffer_segment.reserve_prepend segment_abc 16 = Done s' ∧
        byte_buffer_segment.headroom s' = 0 ∧
        byte_buffer_segment.length s' = 19 ∧
        byte_buffer_segment.trim_head s' 16 = Done segment_abc.
Proof.
  assert (Hwf : segment_wf segment_abc) by (vm_compute; intuition discriminate).
  split.
  - apply (proj1 (reserve_prepend_contract segment_abc 17 Hwf ltac:(lia))). reflexivity.
  - destruct (proj2 (reserve_prepend_contract segment_abc 16 Hwf ltac:(lia)))
      as (s' & Hs' & _ & Hh & Hl & _ & _ & Hback); [vm_compute; discriminate|].
    exists s'. split_and!; done.
Defined.

(** X8.  [resize(n)] on a segment whose pointers are in bounds: when [n]
    exceeds the space after the headroom the assertion fails; otherwise the
    length becomes [n] and the headroom is unchanged, nothing is written to
    the array; shrinking keeps the first [n] payload bytes, growing keeps
    the whole previous payload as a prefix. *)
Theorem resize_contract (s : byte_buffer_segment.t) (n : Z) :
  segment_wf s → 0 ≤ n < 2 ^ 64 →
  (byte_buffer_segment.capacity - byte_buffer_segment.headroom s < n →
     byte_buffer_segment.resize s n = Abort "There is not enough space for provided size") ∧
  (n ≤ byte_buffer_segment.capacity - byte_buffer_segment.headroom s →
     ∃ s', byte_buffer_segment.resize s n = Done s' ∧
           byte_buffer_segment.length s' = n ∧
           byte_buffer_segment.headroom s' = byte_buffer_segment.headroom s ∧
           byte_buffer_segment.tailroom s'
             = byte_buffer_segment.capacity - byte_buffer_segment.headroom s - n ∧
           byte_buffer_segment.buffer s' = byte_buffer_segment.buffer s ∧
           (n ≤ byte_buffer_segment.length s →
              byte_buffer_segment.payload s'
                = take (Z.to_nat n) (byte_buffer_segment.payload s)) ∧
           (byte_buffer_segment.length s ≤ n →
              take (Z.to_nat (byte_buffer_segment.length s)) (byte_buffer_segment.payload s')
                = byte_buffer_segment.payload s)).
Proof.
  intros Hwf Hn.
  destruct (wf_accessors s Hwf) as (Hh & Hl & Ht & _).
  pose proof Hwf as (H0 & H1 & H2 & Hlen).
  unfold byte_buffer_segment.begin, byte_buffer_segment.end_,
    byte_buffer_segment.SEGMENT_SIZE in *.
  split.
  - intros Hlt. unfold byte_buffer_segment.resize.
    unfold byte_buffer_segment.capacity, byte_buffer_segment.SEGMENT_SIZE in *.
    rewrite (to_size_t_small n) by lia.
    rewrite (to_size_t_small (256 - _)) by lia. rewrite assert_bind.
    by rewrite (proj2 (Z.leb_gt _ _)) by lia.
  - intros Hle.
    destruct (resize_spec s n Hwf) as (s' & Hs' & Hwf' & Hp & Hm & Hbuf & Hb & He); [lia|].
    destruct (wf_accessors s' Hwf') as (Hh' & Hl' & Ht' & _).
    unfold byte_buffer_segment.capacity, byte_buffer_segment.SEGMENT_SIZE in *.
    exists s'. split_and!; try done; try lia.
    + intros Hshrink. rewrite Hp, (payload_wf s Hwf), take_take. f_equal. lia.
    + intros Hgrow. rewrite Hp, (payload_wf s Hwf), take_take. f_equal. lia.
Qed.

Lemma resize_contract_witness :
  byte_buffer_segment.resize segment_abc 241
    = Abort "There is not enough space for provided size" ∧
  ∃ s', byte_buffer_segment.resize segment_abc 2 = Done s' ∧
        byte_buffer_segment.length s' = 2 ∧
        byte_buffer_segment.payload s' = [x61; x62].
Proof.
  assert (Hwf : segment_wf segment_abc) by (vm_compute; intuition discriminate).
  split.
  - apply (proj1 (resize_contract segment_abc 241 Hwf ltac:(lia))). reflexivity.
  - destruct (proj2 (resize_contract segment_abc 2 Hwf ltac:(lia)))
      as (s' & Hs' & Hl & _ & _ & _ & Hp & _); [vm_compute; discriminate|].
    exists s'. split_and!; [done..|].
    rewrite Hp; [reflexivity|]. vm_compute. discriminate.
Defined.

(** X9.  [operator[](idx)] on a segment whose pointers are in bounds
    returns the payload byte of index [idx]; an index at or after
    [length()] fails the assertion, and no memory outside the payload is
    read. *)
Theorem index_contract (s : byte_buffer_segment.t) (idx : Z) :
  segment_wf s → 0 ≤ idx < 2 ^ 64 →
  byte_buffer_segment.at_ s idx
  = match byte_buffer_segment.payload s !! Z.to_nat idx with
    | Some b => Done b
    | None => Abort "Out-of-bound access"
    end.
Proof.
  intros Hwf Hidx. pose proof (payload_length s Hwf) as Hlen.
  unfold byte_buffer_segment.at_. rewrite to_size_t_small by lia. rewrite assert_bind.
  destruct (idx <? byte_buffer_segment.length s) eqn:Hlt.
  - apply Z.ltb_lt in Hlt. rewrite load_payload by (done || lia).
    destruct (lookup_lt_is_Some_2 (byte_buffer_segment.payload s) (Z.to_nat idx))
      as [b Hb]; [lia|].
    by rewrite Hb.
  - apply Z.ltb_ge in Hlt. rewrite lookup_ge_None_2; [done|]. lia.
Qed.

Lemma index_contract_witness :
  byte_buffer_segment.at_ segment_abc 1 = Done x62 ∧
  byte_buffer_segment.at_ segment_abc 3 = Abort "Out-of-bound access".
Proof.
  assert (Hwf : segment_wf segment_abc) by (vm_compute; intuition discriminate).
  split.
  - exact (index_contract segment_abc 1 Hwf ltac:(lia)).
  - exact (index_contract segment_abc 3 Hwf ltac:(lia)).
Defined.

(** X10.  [back()] on a segment whose pointers are in bounds returns the
    last payload byte, and fails its assertion on a segment without
    payload. *)
Theorem back_contract (s : byte_buffer_segment.t) :
  segment_wf s →
  byte_buffer_segment.back s
  = match last (byte_buffer_segment.payload s) with
    | Some b => Done b
    | None => Abort "back() called for empty segment."
    end.
Proof.
  intros Hwf. pose proof (payload_length s Hwf) as Hlen.
  destruct (wf_accessors s Hwf) as (Hh & Hl & _).
  pose proof Hwf as (H0 & H1 & _).
  unfold byte_buffer_segment.begin, byte_buffer_segment.end_ in *.
  unfold byte_buffer_segment.back, byte_buffer_segment.empty,
    byte_buffer_segment.begin, byte_buffer_segment.end_.
  rewrite assert_bind.
  destruct (byte_buffer_segment.payload_data_ s =? byte_buffer_segment.payload_data_end_ s)
    eqn:He.
  - apply Z.eqb_eq in He.
    destruct (byte_buffer_segment.payload s) as [|b l]; [done|]. simpl in Hlen. lia.
  - apply Z.eqb_neq in He. simpl negb. cbv iota.
    replace (byte_buffer_segment.payload_data_end_ s - 1)
      with (byte_buffer_segment.begin s + (byte_buffer_segment.length s - 1))
      by (unfold byte_buffer_segment.begin; lia).
    rewrite load_payload by (done || lia).
    rewrite last_lookup.
    replace (Z.to_nat (byte_buffer_segment.length s - 1))
      with (Nat.pred (List.length (byte_buffer_segment.payload s))) by lia.
    destruct (lookup_lt_is_Some_2 (byte_buffer_segment.payload s)
                (Nat.pred (List.length (byte_buffer_segment.payload s)))) as [b Hb]; [lia|].
    by rewrite Hb.
Qed.

Lemma back_contract_witness :
  byte_buffer_segment.back segment_abc = Done x63 ∧
  byte_buffer_segment.back segment_16 = Abort "back() called for empty segment.".
Proof.
  assert (Hwf : segment_wf segment_abc) by (vm_compute; intuition discriminate).
  assert (Hwf16 : segment_wf segment_16) by (vm_compute; intuition discriminate).
  split.
  - exact (back_contract segment_abc Hwf).
  - exact (back_contract segment_16 Hwf16).
Defined.

(** X11.  [operator==] with a container compares the payload bytes only: on
    a segment whose pointers are in bounds it returns [true] exactly when
    the container holds the payload, whatever the headroom and the metadata
    are; [operator!=] returns the opposite. *)
Theorem equal_compares_payload (s : byte_buffer_segment.t) (other : list byte) :
  segment_wf s →
  byte_buffer_segment.equal s other
    = Done (bool_decide (byte_buffer_segment.payload s = other)) ∧
  byte_buffer_segment.not_equal s other
    = Done (negb (bool_decide (byte_buffer_segment.payload s = other))).
Proof.
  intros Hwf. unfold byte_buffer_segment.not_equal, byte_buffer_segment.equal.
  rewrite read_payload_done by done. simpl. by rewrite std_equal_spec.
Qed.

Lemma equal_compares_payload_witness :
  byte_buffer_segment.equal segment_abc [x61; x62; x63] = Done true ∧
  byte_buffer_segment.not_equal segment_abc [x61; x62] = Done true.
Proof.
  assert (Hwf : segment_wf segment_abc) by (vm_compute; intuition discriminate).
  split.
  - exact (proj1 (equal_compares_payload segment_abc [x61; x62; x63] Hwf)).
  - exact (proj2 (equal_compares_payload segment_abc [x61; x62] Hwf)).
Defined.

(** X12.  A copy compares equal to its original: the segment made by the
    copy constructor from a segment whose pointers are in bounds is [==] to
    the original and the original is [==] to it, although the metadata of
    the copy is reset and the bytes outside its payload are whatever the new
    array held. *)
Theorem copy_compares_equal (raw : list byte) (s : byte_buffer_segment.t) :
  segment_wf s →
  Z.of_nat (List.length raw) = byte_buffer_segment.SEGMENT_SIZE →
  ∃ s', byte_buffer_segment.copy_construct raw s = Done s' ∧
        byte_buffer_segment.equal s' (byte_buffer_segment.payload s) = Done true ∧
        byte_buffer_segment.equal s (byte_buffer_segment.payload s') = Done true ∧
        byte_buffer_segment.not_equal s' (byte_buffer_segment.payload s) = Done false.
Proof.
  intros Hwf Hraw.
  destruct (copy_body_spec byte_buffer_segment.metadata_default raw s Hwf Hraw)
    as (s' & Hs' & Hwf' & _ & Hpay & _).
  exists s'. split; [exact Hs'|].
  unfold byte_buffer_segment.not_equal, byte_buffer_segment.equal.
  rewrite !read_payload_done by done. simpl.
  rewrite !std_equal_spec, Hpay. by rewrite bool_decide_true.
Qed.

Lemma copy_compares_equal_witness :
  ∃ s', byte_buffer_segment.copy_construct zeros segment_abc = Done s' ∧
        byte_buffer_segment.equal s' [x61; x62; x63] = Done true.
Proof.
  assert (Hwf : segment_wf segment_abc) by (vm_compute; intuition discriminate).
  destruct (copy_compares_equal zeros segment_abc Hwf eq_refl) as (s' & Hs' & He & _).
  exists s'. split; [exact Hs'|exact He].
Defined.

(** X13.  No mutating operation of a segment leaves the array: on a segment
    whose pointers are in bounds, each of [append], [append(uint8_t)],
    [prepend], [reserve_prepend], [trim_head], [trim_tail] and [resize]
    either fails its assertion or returns a segment whose pointers are in
    bounds again; none reads or writes outside the array. *)
Theorem mutators_stay_in_bounds (s : byte_buffer_segment.t)
    (o : outcome byte_buffer_segment.t) :
  segment_wf s →
  (∃ bytes, o = byte_buffer_segment.append s bytes) ∨
  (∃ b, o = byte_buffer_segment.append_byte s b) ∨
  (∃ bytes, o = byte_buffer_segment.prepend s bytes) ∨
  (∃ n, o = byte_buffer_segment.reserve_prepend s n) ∨
  (∃ n, o = byte_buffer_segment.trim_head s n) ∨
  (∃ n, o = byte_buffer_segment.trim_tail s n) ∨
  (∃ n, o = byte_buffer_segment.resize s n) →
  o ≠ Undefined ∧ on_return segment_wf o.
Proof.
  intros Hwf Hop.
  destruct (mutators_guarded s Hwf) as (Ha & Hab & Hp & Hr & Hth & Htt & Hrs).
  assert (Hg : ∃ pre, guarded pre o).
  { destruct Hop as [[x ->]|[[x ->]|[[x ->]|[[x ->]|[[x ->]|[[x ->]|[x ->]]]]]]];
      eexists; [apply Ha|apply Hab|apply Hp|apply Hr|apply Hth|apply Htt|apply Hrs]. }
  destruct Hg as [pre Hg]. destruct o; simpl in *; [|done..].
  split; [done|tauto].
Qed.

Lemma mutators_stay_in_bounds_witness :
  byte_buffer_segment.resize segment_abc 100 ≠ Undefined ∧
  on_return segment_wf (byte_buffer_segment.resize segment_abc 100).
Proof.
  assert (Hwf : segment_wf segment_abc) by (vm_compute; intuition discriminate).
  apply (mutators_stay_in_bounds segment_abc _ Hwf). do 6 right. by exists 100.
Defined.

(** ** More on the byte iterator *)

Section iterator_positions.

Import byte_buffer_segment.
Import byte_buffer_iterator_impl.

Implicit Types (h : heap) (a : addr) (addrs : list addr) (start : option addr).

Lemma total_length_app h l1 l2 :
  total_length h (l1 ++ l2) = total_length h l1 + total_length h l2.
Proof. unfold total_length. rewrite contents_app, length_app. lia. Qed.

(** Past the last byte there is no segment. *)
Lemma seek_beyond h addrs off :
  chain_ok h addrs → total_length h addrs ≤ off →
  seek h addrs off = make None (off - total_length h addrs).
Proof.
  revert off. induction addrs as [|a addrs IH]; intros off Hok Hle.
  - simpl. rewrite total_length_nil. f_equal. lia.
  - apply chain_ok_cons in Hok as [(s & Hs & Hwf & Hlen) Hok].
    rewrite (total_length_cons h a s) in * by done.
    pose proof (total_length_nonneg h addrs).
    rewrite (seek_cons_ge h a s) by (done || lia).
    rewrite IH by (done || lia). f_equal. lia.
Qed.

Lemma seek_app h l1 l2 x :
  chain_ok h l1 → 0 ≤ x → seek h (l1 ++ l2) (total_length h l1 + x) = seek h l2 x.
Proof.
  intros Hok Hx. induction l1 as [|a l1 IH].
  - simpl. by rewrite total_length_nil.
  - apply chain_ok_cons in Hok as [(s & Hs & Hwf & Hlen) Hok].
    rewrite (total_length_cons h a s) by done.
    pose proof (total_length_nonneg h l1).
    rewrite <- app_comm_cons, (seek_cons_ge h a s) by (done || lia).
    rewrite <- IH by done. f_equal. lia.
Qed.

(** The position [n] bytes after an iterator is an iterator into the rest
    of the list. *)
Lemma iterator_in_seek h it addrs n :
  iterator_in h it addrs → 0 ≤ n → offset it + n ≤ total_length h addrs →
  ∃ passed rest,
    addrs = passed ++ rest ∧
    iterator_in h (seek h addrs (offset it + n)) rest ∧
    offset it + n = total_length h passed + offset (seek h addrs (offset it + n)).
Proof.
  intros Hin Hn Hle. pose proof (iterator_in_offset _ _ _ Hin) as [Hoff _].
  destruct Hin as (Hch & Hok & Hseek & H0 & Hnil).
  destruct (seek_split h _ addrs (offset it + n) Hch Hok ltac:(lia))
    as (passed & rest & -> & Hrest & Hpos).
  apply chain_ok_app in Hok as [Hok1 Hok2].
  exists passed, rest. split; [done|]. split; [|done].
  assert (Hoff' : 0 ≤ offset (seek h (passed ++ rest) (offset it + n)) ∧
                  (rest = [] → offset (seek h (passed ++ rest) (offset it + n)) = 0)).
  { destruct (decide (offset it + n = total_length h (passed ++ rest))) as [Heq|Hne].
    - rewrite Heq, seek_total by (by apply chain_ok_app). done.
    - destruct (seek_inside h (passed ++ rest) (offset it + n)) as (a & s & Ha & _ & _ & Hb);
        [by apply chain_ok_app|lia|].
      split; [lia|]. intros ->. rewrite Ha in Hrest. done. }
  destruct Hoff' as [Hoff0 Hoffnil].
  split_and!; try done.
  rewrite Hpos at 1. by rewrite seek_app.
Qed.

(** Different positions of a list of segments are different iterators. *)
Lemma seek_inj h start addrs p q :
  is_chain h start addrs → chain_ok h addrs →
  0 ≤ p ≤ total_length h addrs → 0 ≤ q ≤ total_length h addrs →
  seek h addrs p = seek h addrs q → p = q.
Proof.
  intros Hch Hok Hp Hq Heq.
  destruct (seek_split h _ addrs p Hch Hok Hp) as (pp & rp & Hap & Hrp & Hpp).
  destruct (seek_split h _ addrs q Hch Hok Hq) as (pq & rq & Haq & Hrq & Hpq).
  rewrite Heq in Hrp, Hpp.
  pose proof (is_chain_functional _ _ _ _ Hrp Hrq) as ->.
  rewrite Hap in Haq. apply app_inv_tail in Haq as ->. lia.
Qed.

(** The walk of [operator-] from a list of segments that does not contain
    the segment it looks for runs into [nullptr]. *)
Lemma distance_loop_miss fuel h start rest a acc :
  is_chain h start rest → a ∉ rest →
  distance_loop fuel h start (Some a) acc = Undefined.
Proof.
  revert start rest acc. induction fuel as [|fuel IH]; intros start rest acc Hch Hnin; [done|].
  simpl. destruct rest as [|b rest].
  - simpl in Hch. subst. by rewrite decide_False.
  - destruct Hch as (-> & s & Hs & Hch).
    rewrite decide_False by (intros [= ->]; apply Hnin; left).
    simpl. rewrite Hs. simpl. apply (IH _ rest); [done|].
    intros Hin. apply Hnin. by right.
Qed.

End iterator_positions.

(** X14.  [operator+=] at the end of the list: advancing a byte iterator
    exactly to the position after the last byte gives the end iterator
    [(nullptr, 0)]; advancing it any further fails the assertion
    "Out-of-bounds Access". *)
Theorem plus_assign_bounds (h : byte_buffer_segment.heap)
    (it : byte_buffer_iterator_impl.t) (addrs : list addr) (n : Z) :
  iterator_in h it addrs → 0 ≤ n < 2 ^ 32 →
  (byte_buffer_iterator_impl.offset it + n = total_length h addrs →
     byte_buffer_iterator_impl.plus_assign h it n
       = Done (byte_buffer_iterator_impl.make None 0)) ∧
  (total_length h addrs < byte_buffer_iterator_impl.offset it + n →
     byte_buffer_iterator_impl.plus_assign h it n = Abort "Out-of-bounds Access").
Proof.
  intros Hin Hn. split.
  - intros Heq. rewrite (plus_assign_seek h it addrs) by (done || lia).
    destruct Hin as (_ & Hok & _). by rewrite Heq, seek_total.
  - intros Hlt. pose proof (iterator_in_offset _ _ _ Hin) as [Hoff H256].
    destruct Hin as (Hch & Hok & Hseek & H0 & Hnil).
    unfold byte_buffer_iterator_impl.plus_assign. rewrite (to_unsigned_small n) by done.
    rewrite to_size_t_small by lia.
    rewrite (advance_loop_seek _ h _ addrs); [|done| |lia].
    2:{ pose proof (is_chain_length _ _ _ Hch). lia. }
    rewrite seek_beyond by (done || lia).
    simpl. rewrite assert_bind. simpl.
    by rewrite (proj2 (Z.eqb_neq _ _)) by lia.
Qed.

Lemma plus_assign_bounds_witness :
  byte_buffer_iterator_impl.plus_assign heap_abcde
    (byte_buffer_iterator_impl.make (Some 0%nat) 1) 4
    = Done (byte_buffer_iterator_impl.make None 0) ∧
  byte_buffer_iterator_impl.plus_assign heap_abcde
    (byte_buffer_iterator_impl.make (Some 0%nat) 1) 5
    = Abort "Out-of-bounds Access".
Proof.
  split.
  - apply (proj1 (plus_assign_bounds _ _ _ 4 iterator_in_abcde ltac:(lia))). reflexivity.
  - apply (proj2 (plus_assign_bounds _ _ _ 5 iterator_in_abcde ltac:(lia))). reflexivity.
Defined.

(** X15.  [operator+=] composes: inside the list, advancing a byte iterator
    by [a] and then by [b] gives the iterator that advancing by [a + b]
    gives, as long as [a + b] is an [unsigned]. *)
Theorem plus_assign_compose (h : byte_buffer_segment.heap)
    (it : byte_buffer_iterator_impl.t) (addrs : list addr) (a b : Z) :
  iterator_in h it addrs → 0 ≤ a → 0 ≤ b → a + b < 2 ^ 32 →
  byte_buffer_iterator_impl.offset it + a + b ≤ total_length h addrs →
  ∃ it1 it2,
    byte_buffer_iterator_impl.plus_assign h it a = Done it1 ∧
    byte_buffer_iterator_impl.plus_assign h it1 b = Done it2 ∧
    byte_buffer_iterator_impl.plus_assign h it (a + b) = Done it2.
Proof.
  intros Hin Ha Hb Hab Hle.
  destruct (iterator_in_seek h it addrs a Hin Ha ltac:(lia))
    as (passed & rest & -> & Hin1 & Hpos).
  pose proof Hin as (_ & [Hok1 Hok2]%chain_ok_app & _).
  rewrite total_length_app in Hle.
  eexists _, _. split; [apply (plus_assign_seek h it _ a Hin); [lia|]|].
  { rewrite total_length_app. lia. }
  split; [apply (plus_assign_seek h _ rest b Hin1); lia|].
  rewrite (plus_assign_seek h it _ (a + b) Hin) by (rewrite ?total_length_app; lia).
  f_equal.
  pose proof (iterator_in_offset _ _ _ Hin1) as [Hoff1 _].
  rewrite <- (seek_app h passed rest) by (done || lia).
  f_equal. lia.
Qed.

Lemma plus_assign_compose_witness :
  ∃ it1 it2,
    byte_buffer_iterator_impl.plus_assign heap_abcde
      (byte_buffer_iterator_impl.make (Some 0%nat) 1) 1 = Done it1 ∧
    byte_buffer_iterator_impl.plus_assign heap_abcde it1 2 = Done it2 ∧
    byte_buffer_iterator_impl.plus_assign heap_abcde
      (byte_buffer_iterator_impl.make (Some 0%nat) 1) (1 + 2) = Done it2.
Proof.
  apply (plus_assign_compose _ _ _ 1 2 iterator_in_abcde); try lia.
  vm_compute. discriminate.
Defined.

(** X16.  [operator-] looks forward only.  For [j] reached from [it] by [n]
    advances: when both are in the same segment, [it - j] is [-n]; when [j]
    is in a later segment or is the end iterator, the walk of [it - j]
    starts at the segment of [j], never meets the segment of [it] and
    dereferences [nullptr]. *)
Theorem minus_backwards (h : byte_buffer_segment.heap)
    (it j : byte_buffer_iterator_impl.t) (addrs : list addr) (n : nat) :
  iterator_in h it addrs →
  byte_buffer_iterator_impl.incr_n h it n = Done j →
  (byte_buffer_iterator_impl.current_segment j = byte_buffer_iterator_impl.current_segment it →
     byte_buffer_iterator_impl.minus h it j = Done (- Z.of_nat n)) ∧
  (byte_buffer_iterator_impl.current_segment j ≠ byte_buffer_iterator_impl.current_segment it →
     byte_buffer_iterator_impl.minus h it j = Undefined).
Proof.
  intros Hin Hincr. pose proof (iterator_in_offset _ _ _ Hin) as [Hoff H256].
  pose proof Hin as (Hch & Hok & Hseek & H0 & Hnil).
  rewrite Hseek in Hincr.
  apply (incr_n_seek_inv h _ addrs _ n j Hch Hok Hoff) in Hincr as [Hle ->].
  destruct (iterator_in_seek h it addrs (Z.of_nat n) Hin ltac:(lia) Hle)
    as (passed & rest & Happ & Hin' & Hpos).
  set (j := seek h addrs (byte_buffer_iterator_impl.offset it + Z.of_nat n)) in *.
  pose proof (iterator_in_offset _ _ _ Hin') as [Hoff' H256'].
  destruct Hin' as (Hch' & _).
  split.
  - intros Hsame. rewrite Hsame in Hch'.
    pose proof (is_chain_functional _ _ _ _ Hch Hch') as Heq.
    rewrite Heq in Happ. apply (app_inv_tail rest [] passed) in Happ. subst passed.
    rewrite total_length_nil in Hpos.
    unfold byte_buffer_iterator_impl.minus. rewrite Hsame. simpl.
    rewrite decide_True by done. simpl. f_equal.
    rewrite <- (to_ptrdiff_t_small (- Z.of_nat n)) by lia.
    apply to_ptrdiff_t_congr.
    rewrite Z.add_0_l, to_size_t_mod. f_equal. lia.
  - intros Hdiff.
    destruct addrs as [|a tl].
    { exfalso. apply Hdiff. simpl in Hch. rewrite Hch.
      destruct passed, rest; done. }
    pose proof Hch as (Hcur & _).
    destruct passed as [|a' passed].
    { exfalso. apply Hdiff. simpl in Happ. subst rest.
      destruct Hch' as (-> & _). done. }
    simpl in Happ. injection Happ as <- ->.
    pose proof (is_chain_NoDup _ _ _ Hch) as Hnd.
    rewrite app_comm_cons in Hnd. apply NoDup_app in Hnd as (_ & Hnin & _).
    unfold byte_buffer_iterator_impl.minus. rewrite Hcur.
    rewrite (distance_loop_miss _ h _ rest a); [done|done|].
    apply Hnin. left.
Qed.

Lemma minus_backwards_witness :
  byte_buffer_iterator_impl.minus heap_abcde
    (byte_buffer_iterator_impl.make (Some 0%nat) 1)
    (byte_buffer_iterator_impl.make (Some 0%nat) 2) = Done (-1) ∧
  byte_buffer_iterator_impl.minus heap_abcde
    (byte_buffer_iterator_impl.make (Some 0%nat) 1)
    (byte_buffer_iterator_impl.make (Some 1%nat) 0) = Undefined.
Proof.
  split.
  - apply (proj1 (minus_backwards heap_abcde _ _ _ 1 iterator_in_abcde eq_refl)).
    reflexivity.
  - apply (proj2 (minus_backwards heap_abcde _ _ _ 2 iterator_in_abcde eq_refl)).
    discriminate.
Defined.

(** X17.  [operator==] tells positions apart: two iterators reached from
    the same byte iterator by [m] and by [n] advances compare equal exactly
    when [m = n]. *)
Theorem iterator_equality (h : byte_buffer_segment.heap)
    (j i1 i2 : byte_buffer_iterator_impl.t) (addrs : list addr) (m n : nat) :
  iterator_in h j addrs →
  byte_buffer_iterator_impl.incr_n h j m = Done i1 →
  byte_buffer_iterator_impl.incr_n h j n = Done i2 →
  byte_buffer_iterator_impl.eqb i1 i2 = true ↔ m = n.
Proof.
  intros Hin H1 H2. pose proof (iterator_in_offset _ _ _ Hin) as [Hoff H256].
  pose proof Hin as (Hch & Hok & Hseek & H0 & Hnil).
  split.
  - intros Heq. rewrite Hseek in H1, H2.
    apply (incr_n_seek_inv h _ addrs _ m i1 Hch Hok Hoff) in H1 as [Hle1 ->].
    apply (incr_n_seek_inv h _ addrs _ n i2 Hch Hok Hoff) in H2 as [Hle2 ->].
    unfold byte_buffer_iterator_impl.eqb in Heq.
    apply andb_true_iff in Heq as [Hs%bool_decide_eq_true Ho%Z.eqb_eq].
    assert (Hit : seek h addrs (byte_buffer_iterator_impl.offset j + Z.of_nat m)
                  = seek h addrs (byte_buffer_iterator_impl.offset j + Z.of_nat n)).
    { destruct (seek h addrs (byte_buffer_iterator_impl.offset j + Z.of_nat m)),
        (seek h addrs (byte_buffer_iterator_impl.offset j + Z.of_nat n)).
      simpl in *. by subst. }
    apply (seek_inj h _ addrs _ _ Hch Hok) in Hit; lia.
  - intros ->. rewrite H1 in H2. injection H2 as ->.
    unfold byte_buffer_iterator_impl.eqb.
    rewrite bool_decide_true by done. by rewrite Z.eqb_refl.
Qed.

Lemma iterator_equality_witness :
  byte_buffer_iterator_impl.eqb
    (byte_buffer_iterator_impl.make (Some 1%nat) 0)
    (byte_buffer_iterator_impl.make (Some 1%nat) 1) = true ↔ 2%nat = 3%nat.
Proof.
  apply (iterator_equality heap_abcde _ _ _ _ 2 3 iterator_in_abcde); reflexivity.
Defined.

(** X18.  Random access through [operator+=]: advancing a byte iterator by
    [n] and dereferencing it returns the byte [n] positions after the
    iterator in the byte sequence of the list. *)
Theorem plus_assign_deref (h : byte_buffer_segment.heap)
    (it : byte_buffer_iterator_impl.t) (addrs : list addr) (n : Z) :
  iterator_in h it addrs → 0 ≤ n < 2 ^ 32 →
  byte_buffer_iterator_impl.offset it + n < total_length h addrs →
  ∃ it' b,
    byte_buffer_iterator_impl.plus_assign h it n = Done it' ∧
    byte_buffer_iterator_impl.deref h it' = Done b ∧
    contents h addrs !! Z.to_nat (byte_buffer_iterator_impl.offset it + n) = Some b.
Proof.
  intros Hin Hn Hlt. pose proof (iterator_in_offset _ _ _ Hin) as [Hoff _].
  pose proof Hin as (Hch & Hok & _).
  destruct (lookup_lt_is_Some_2 (contents h addrs)
              (Z.to_nat (byte_buffer_iterator_impl.offset it + n))) as [b Hb].
  { unfold total_length in Hlt. lia. }
  exists (seek h addrs (byte_buffer_iterator_impl.offset it + n)), b.
  split; [apply plus_assign_seek; (done || lia)|].
  split; [|done]. rewrite deref_seek by (done || lia). by rewrite Hb.
Qed.

Lemma plus_assign_deref_witness :
  ∃ it' b,
    byte_buffer_iterator_impl.plus_assign heap_abcde
      (byte_buffer_iterator_impl.make (Some 0%nat) 1) 3 = Done it' ∧
    byte_buffer_iterator_impl.deref heap_abcde it' = Done b ∧
    contents heap_abcde [0%nat; 1%nat] !! Z.to_nat (1 + 3) = Some b.
Proof.
  apply (plus_assign_deref heap_abcde _ _ 3 iterator_in_abcde); [lia|].
  vm_compute. reflexivity.
Defined.

(** ** The segment-list iterator and the segment range *)

Section segment_range_facts.

Import byte_buffer_segment.

#[local] Abbreviation L_make := byte_buffer_segment_list_iterator_impl.Build_t.
#[local] Abbreviation L_end := (byte_buffer_segment_list_iterator_impl.Build_t None 0 0).

Implicit Types (h : heap) (a : addr) (addrs : list addr).

Lemma end_done h : byte_buffer_segment_range_impl.end_ h = Done L_end.
Proof. reflexivity. Qed.

(** The bytes of a span that lies inside the payload. *)
Lemma span_payload (s : byte_buffer_segment.t) (off k : Z) :
  segment_wf s → 0 ≤ off → 0 ≤ k → off + k ≤ length s →
  take (Z.to_nat k) (drop (Z.to_nat (data s + off)) (buffer s))
  = take (Z.to_nat k) (drop (Z.to_nat off) (payload s)).
Proof.
  intros Hwf Hoff Hk Hle. pose proof Hwf as (H0 & _). unfold data, begin in *.
  unfold payload, begin.
  replace (Z.to_nat (length s)) with (Z.to_nat off + (Z.to_nat (length s) - Z.to_nat off))%nat
    by lia.
  rewrite <- take_drop_commute, drop_drop, take_take.
  f_equal; [lia|]. f_equal. lia.
Qed.

Lemma span_length_eq (s : byte_buffer_segment.t) (it : byte_buffer_segment_list_iterator_impl.t) :
  segment_wf s → 0 ≤ byte_buffer_segment_list_iterator_impl.offset it < length s →
  byte_buffer_segment_list_iterator_impl.span_length s it
  = Z.min (byte_buffer_segment_list_iterator_impl.rem_bytes it)
          (length s - byte_buffer_segment_list_iterator_impl.offset it).
Proof.
  intros Hwf Hoff. destruct (wf_accessors s Hwf) as (_ & Hl & _).
  destruct Hwf as (H0 & H1 & H2 & _). unfold begin, end_, SEGMENT_SIZE in *.
  unfold byte_buffer_segment_list_iterator_impl.span_length.
  rewrite (to_unsigned_small (length s)) by lia.
  by rewrite to_unsigned_small by lia.
Qed.

(** One turn of the loop over a range, at a segment. *)
Lemma spans_loop_step fuel h a (s : byte_buffer_segment.t) off rem :
  h !! a = Some s → segment_wf s → 0 ≤ off < length s → 0 ≤ rem < 2 ^ 32 →
  byte_buffer_segment_range_impl.spans_loop (S fuel) h (L_make (Some a) off rem) L_end
  = (sps ← byte_buffer_segment_range_impl.spans_loop fuel h
             (if rem - Z.min rem (length s - off) =? 0
              then L_make None 0 (rem - Z.min rem (length s - off))
              else L_make (next_ s) 0 (rem - Z.min rem (length s - off))) L_end;
     mret ({| byte_buffer_segment_list_iterator_impl.span_segment := a;
              byte_buffer_segment_list_iterator_impl.span_data := data s + off;
              byte_buffer_segment_list_iterator_impl.span_size :=
                Z.min rem (length s - off) |} :: sps)).
Proof.
  intros Hs Hwf Hoff Hrem.
  pose proof (span_length_eq s (L_make (Some a) off rem) Hwf Hoff) as Hsl. simpl in Hsl.
  cbn [byte_buffer_segment_range_impl.spans_loop].
  unfold byte_buffer_segment_list_iterator_impl.eqb,
    byte_buffer_segment_list_iterator_impl.deref,
    byte_buffer_segment_list_iterator_impl.incr.
  cbn [byte_buffer_segment_list_iterator_impl.current_segment
       byte_buffer_segment_list_iterator_impl.offset
       byte_buffer_segment_list_iterator_impl.rem_bytes].
  rewrite bool_decide_false by done. rewrite bool_decide_true by done.
  cbn [negb of_option]. rewrite assert_bind. cbn [mbind outcome_bind]. rewrite Hs.
  cbn [of_option mbind outcome_bind mret outcome_ret]. rewrite Hsl.
  rewrite (to_unsigned_small (rem - _)) by lia.
  by destruct (rem - Z.min rem (length s - off) =? 0).
Qed.

Lemma spans_loop_end fuel h off rem :
  byte_buffer_segment_range_impl.spans_loop (S fuel) h (L_make None off rem) L_end = Done [].
Proof. reflexivity. Qed.

Lemma span_bytes_payload h a (s : byte_buffer_segment.t) off k :
  h !! a = Some s → segment_wf s → 0 ≤ off → 0 ≤ k → off + k ≤ length s →
  byte_buffer_segment_list_iterator_impl.span_bytes h
    {| byte_buffer_segment_list_iterator_impl.span_segment := a;
       byte_buffer_segment_list_iterator_impl.span_data := data s + off;
       byte_buffer_segment_list_iterator_impl.span_size := k |}
  = Done (take (Z.to_nat k) (drop (Z.to_nat off) (payload s))).
Proof.
  intros Hs Hwf Hoff Hk Hle. destruct (wf_accessors s Hwf) as (_ & Hl & _).
  pose proof Hwf as (H0 & H1 & H2 & Hlen). unfold begin, end_, SEGMENT_SIZE in *.
  unfold byte_buffer_segment_list_iterator_impl.span_bytes. simpl. rewrite Hs. simpl.
  rewrite decide_True by (unfold data, begin; lia).
  by rewrite span_payload.
Qed.

(** The loop over a range that starts inside a segment: one span per
    segment, holding the next [rem] bytes of the list, or the bytes up to
    the end of the list when fewer remain. *)
Lemma spans_loop_spec fuel h a addrs (s : byte_buffer_segment.t) off rem :
  h !! a = Some s → is_chain h (Some a) (a :: addrs) → chain_ok h (a :: addrs) →
  0 ≤ off < length s → 0 < rem < 2 ^ 32 → (List.length (a :: addrs) < fuel)%nat →
  ∃ sps,
    byte_buffer_segment_range_impl.spans_loop fuel h (L_make (Some a) off rem) L_end = Done sps ∧
    byte_buffer_segment_list_iterator_impl.read_spans h sps
      = Done (take (Z.to_nat rem) (drop (Z.to_nat off) (contents h (a :: addrs)))) ∧
    Forall (fun sp => 0 < byte_buffer_segment_list_iterator_impl.span_size sp) sps ∧
    (List.length sps ≤ List.length (a :: addrs))%nat ∧
    byte_buffer_segment_list_iterator_impl.span_segment <$> sps
      = take (List.length sps) (a :: addrs).
Proof.
  revert fuel a s off rem.
  induction addrs as [|a' addrs IH]; intros fuel a s off rem Hs Hch Hok Hoff Hrem Hfuel.
  all: destruct fuel as [|fuel]; [simpl in Hfuel; lia|].
  all: apply chain_ok_cons in Hok as [(s0 & Hs0 & Hwf & Hlen) Hok]; simplify_eq.
  all: pose proof (payload_length s Hwf) as Hpl.
  all: rewrite (spans_loop_step fuel h a s off rem) by (done || lia).
  all: rewrite contents_cons, (payload_at_Some h a s) by done.
  - (* the last segment of the list *)
    destruct fuel as [|fuel]; [simpl in Hfuel; lia|].
    assert (Hnext : next_ s = None) by (by destruct Hch as (_ & s0 & ? & ?); simplify_eq).
    rewrite Hnext.
    assert (Hend : ∀ r, byte_buffer_segment_range_impl.spans_loop (S fuel) h
                         (if r =? 0 then L_make None 0 r else L_make None 0 r) L_end = Done []).
    { intros r. by destruct (r =? 0). }
    rewrite Hend. cbn [mbind outcome_bind mret outcome_ret].
    eexists. split; [reflexivity|]. split_and!.
    + cbn [byte_buffer_segment_list_iterator_impl.read_spans].
      rewrite (span_bytes_payload h a s) by (done || lia).
      cbn [mbind outcome_bind mret outcome_ret]. f_equal.
      rewrite !app_nil_r.
      destruct (Z.min_spec rem (length s - off)) as [[? ->]|[? ->]]; [done|].
      rewrite !take_ge; [done|rewrite length_drop; lia..].
    + repeat constructor. simpl. lia.
    + simpl. lia.
    + reflexivity.
  - (* a segment follows *)
    destruct Hch as (_ & s0 & Hs0 & Hch). simplify_eq.
    pose proof Hch as (Hnext & s' & Hs' & _).
    pose proof Hok as [(s0 & Hs0' & Hwf' & Hlen') _]%chain_ok_cons. simplify_eq.
    destruct (decide (rem ≤ length s - off)) as [Hfit|Hmore].
    + rewrite Z.min_l by done. rewrite Z.sub_diag. cbn [Z.eqb].
      destruct fuel as [|fuel]; [simpl in Hfuel; lia|].
      rewrite spans_loop_end. cbn [mbind outcome_bind mret outcome_ret].
      eexists. split; [reflexivity|]. split_and!.
      * cbn [byte_buffer_segment_list_iterator_impl.read_spans].
        rewrite (span_bytes_payload h a s) by (done || lia).
        cbn [mbind outcome_bind mret outcome_ret]. f_equal.
        rewrite app_nil_r, drop_app_le by lia.
        rewrite take_app_le; [done|]. rewrite length_drop. lia.
      * repeat constructor. simpl. lia.
      * simpl. lia.
      * reflexivity.
    + rewrite Z.min_r by lia.
      rewrite (proj2 (Z.eqb_neq _ _)) by lia. rewrite Hnext.
      destruct (IH fuel a' s' 0 (rem - (length s - off)))
        as (sps & Hsps & Hread & Hpos & Hn & Hsegs); try done; try lia.
      { by rewrite <- Hnext. }
      { simpl in *. lia. }
      rewrite Hsps. cbn [mbind outcome_bind mret outcome_ret].
      eexists. split; [reflexivity|]. split_and!.
      * cbn [byte_buffer_segment_list_iterator_impl.read_spans].
        rewrite (span_bytes_payload h a s) by (done || lia).
        rewrite Hread. cbn [mbind outcome_bind mret outcome_ret]. f_equal.
        rewrite drop_app_le by lia. rewrite drop_0.
        rewrite (take_ge (drop _ (payload s))) by (rewrite length_drop; lia).
        rewrite take_app_ge by (rewrite length_drop; lia).
        rewrite length_drop. do 2 f_equal. lia.
      * constructor; [simpl; lia|done].
      * simpl in *. lia.
      * cbn [fmap list_fmap List.length take
             byte_buffer_segment_list_iterator_impl.span_segment].
        f_equal. exact Hsegs.
Qed.

End segment_range_facts.

Section segment_range_from_iterator.

Import byte_buffer_segment.

Implicit Types (h : heap) (a : addr) (addrs : list addr).

(** A byte iterator that is not the end iterator is inside the payload of
    the first segment of its list. *)
Lemma iterator_in_inside h (it : byte_buffer_iterator_impl.t) addrs :
  iterator_in h it addrs →
  byte_buffer_iterator_impl.offset it < total_length h addrs →
  ∃ a tl s,
    it = byte_buffer_iterator_impl.make (Some a) (byte_buffer_iterator_impl.offset it) ∧
    addrs = a :: tl ∧ h !! a = Some s ∧ segment_wf s ∧
    0 ≤ byte_buffer_iterator_impl.offset it < length s.
Proof.
  intros (Hch & Hok & Hseek & H0 & Hnil) Hlt.
  destruct (seek_inside h addrs (byte_buffer_iterator_impl.offset it) Hok ltac:(lia))
    as (a & s & Ha & _ & Hs & Hoff).
  rewrite <- Hseek in Ha, Hoff.
  destruct addrs as [|a' tl]; [by rewrite Ha in Hch|].
  rewrite Ha in Hch. destruct Hch as ([= <-] & _).
  apply chain_ok_cons in Hok as [(s0 & Hs0 & Hwf & _) _].
  rewrite Hs in Hs0. injection Hs0 as <-.
  exists a, tl, s. split_and!; try done; try lia.
  destruct it. simpl in *. by subst.
Qed.

Lemma range_make_inside h (it : byte_buffer_iterator_impl.t) a (s : byte_buffer_segment.t) n :
  it = byte_buffer_iterator_impl.make (Some a) (byte_buffer_iterator_impl.offset it) →
  h !! a = Some s → segment_wf s →
  0 ≤ byte_buffer_iterator_impl.offset it < length s → 0 ≤ n < 2 ^ 32 →
  byte_buffer_segment_range_impl.make_from_iterator h it n
  = Done {| byte_buffer_segment_range_impl.begin_ :=
              byte_buffer_segment_list_iterator_impl.Build_t (Some a)
                (byte_buffer_iterator_impl.offset it) n |}.
Proof.
  intros Hit Hs Hwf Hoff Hn. destruct (wf_accessors s Hwf) as (_ & Hl & _).
  destruct Hwf as (H0 & H1 & H2 & _). unfold begin, end_, SEGMENT_SIZE in *.
  unfold byte_buffer_segment_range_impl.make_from_iterator,
    byte_buffer_segment_list_iterator_impl.make_from_iterator,
    byte_buffer_segment_list_iterator_impl.make.
  rewrite Hit. cbn [byte_buffer_iterator_impl.make byte_buffer_iterator_impl.current_segment
                    byte_buffer_iterator_impl.offset].
  rewrite !to_size_t_small by lia. rewrite !to_unsigned_small by lia.
  rewrite bool_decide_true by done. rewrite assert_bind. cbn [orb].
  rewrite Hs. cbn [of_option mbind outcome_bind]. rewrite assert_bind.
  by rewrite (proj2 (Z.ltb_lt _ _)) by lia.
Qed.

(** The range built from a byte iterator inside the list, and its spans. *)
Lemma range_spans_spec h (it : byte_buffer_iterator_impl.t) addrs n :
  iterator_in h it addrs → 0 < n < 2 ^ 32 →
  byte_buffer_iterator_impl.offset it < total_length h addrs →
  ∃ r sps,
    byte_buffer_segment_range_impl.make_from_iterator h it n = Done r ∧
    byte_buffer_segment_range_impl.spans h r = Done sps ∧
    byte_buffer_segment_list_iterator_impl.read_spans h sps
      = Done (take (Z.to_nat n)
                (drop (Z.to_nat (byte_buffer_iterator_impl.offset it)) (contents h addrs))) ∧
    Forall (fun sp => 0 < byte_buffer_segment_list_iterator_impl.span_size sp) sps ∧
    (List.length sps ≤ List.length addrs)%nat ∧
    byte_buffer_segment_list_iterator_impl.span_segment <$> sps
      = take (List.length sps) addrs.
Proof.
  intros Hin Hn Hlt.
  destruct (iterator_in_inside h it addrs Hin Hlt) as (a & tl & s & Hit & -> & Hs & Hwf & Hoff).
  pose proof Hin as (Hch & Hok & Hseek & H0 & Hnil).
  assert (Hcur : byte_buffer_iterator_impl.current_segment it = Some a) by (by rewrite Hit).
  rewrite Hcur in Hch.
  destruct (spans_loop_spec (S (List.length h)) h a tl s
              (byte_buffer_iterator_impl.offset it) n Hs Hch Hok Hoff Hn)
    as (sps & Hsps & Hread & Hpos & Hlen & Hsegs).
  { pose proof (is_chain_length _ _ _ Hch). lia. }
  eexists _, sps. split; [by apply (range_make_inside h it a s n); try lia|].
  split; [exact Hsps|]. by split_and!.
Qed.

Lemma size_t_to_unsigned z : to_unsigned (to_size_t z) = to_unsigned z.
Proof.
  assert (H : ∀ x b : Z, 0 < b → x mod (b * b) mod b = x mod b).
  { intros x b Hb. rewrite Z.rem_mul_r by lia.
    rewrite (Z.mul_comm b), Z.mod_add by lia. apply Z.mod_mod. lia. }
  unfold to_unsigned, to_size_t.
  change (2 ^ 64) with (2 ^ 32 * 2 ^ 32). apply H. lia.
Qed.

(** The size of a range is kept in an [unsigned]. *)
Lemma range_make_modulo h (it : byte_buffer_iterator_impl.t) n :
  byte_buffer_segment_range_impl.make_from_iterator h it (2 ^ 32 + n)
  = byte_buffer_segment_range_impl.make_from_iterator h it n.
Proof.
  unfold byte_buffer_segment_range_impl.make_from_iterator,
    byte_buffer_segment_list_iterator_impl.make_from_iterator,
    byte_buffer_segment_list_iterator_impl.make.
  rewrite !(size_t_to_unsigned (2 ^ 32 + n)), !(size_t_to_unsigned n).
  replace (to_unsigned (2 ^ 32 + n)) with (to_unsigned n); [done|].
  unfold to_unsigned. rewrite Z.add_comm.
  symmetry. apply (Z.mod_add n 1 (2 ^ 32)). lia.
Qed.

End segment_range_from_iterator.

(** X19.  In a list of segments each of which has its pointers in bounds
    and holds at least one payload byte: iterating the segment range of [n]
    bytes, [0 < n < 2^32], built from a byte iterator that points at a
    payload byte yields one span for each of the first segments of the list
    from the segment of the iterator on, in list order and without a gap,
    each span non-empty; read one after the other, the spans hold the next
    [n] bytes of the list - or all the bytes up to its end when fewer than
    [n] remain, the size of a range not being checked against the list.
    Inside the list these are the bytes that [n] byte-wise reads from the
    iterator return. *)
Theorem range_yields_payload (h : byte_buffer_segment.heap)
    (it : byte_buffer_iterator_impl.t) (addrs : list addr) (n : Z) :
  iterator_in h it addrs → 0 < n < 2 ^ 32 →
  byte_buffer_iterator_impl.offset it < total_length h addrs →
  ∃ r sps,
    byte_buffer_segment_range_impl.make_from_iterator h it n = Done r ∧
    byte_buffer_segment_range_impl.spans h r = Done sps ∧
    byte_buffer_segment_list_iterator_impl.span_segment <$> sps
      = take (List.length sps) addrs ∧
    (List.length sps ≤ List.length addrs)%nat ∧
    Forall (fun sp => 0 < byte_buffer_segment_list_iterator_impl.span_size sp) sps ∧
    byte_buffer_segment_list_iterator_impl.read_spans h sps
      = Done (take (Z.to_nat n)
                (drop (Z.to_nat (byte_buffer_iterator_impl.offset it)) (contents h addrs))) ∧
    (byte_buffer_iterator_impl.offset it + n ≤ total_length h addrs →
       byte_buffer_segment_list_iterator_impl.read_spans h sps
         = byte_buffer_iterator_impl.read h it (Z.to_nat n)).
Proof.
  intros Hin Hn Hlt.
  destruct (range_spans_spec h it addrs n Hin Hn Hlt)
    as (r & sps & Hr & Hsps & Hread & Hpos & Hlen & Hsegs).
  exists r, sps. split_and!; try done.
  intros Hle. rewrite Hread. symmetry.
  pose proof Hin as (Hch & Hok & Hseek & H0 & Hnil). rewrite Hseek at 1.
  by rewrite (read_seek h _ addrs) by (done || lia).
Qed.

Lemma range_yields_payload_witness :
  ∃ r sps,
    byte_buffer_segment_range_impl.make_from_iterator heap_abcde
      (byte_buffer_iterator_impl.make (Some 0%nat) 1) 3 = Done r ∧
    byte_buffer_segment_range_impl.spans heap_abcde r = Done sps ∧
    byte_buffer_segment_list_iterator_impl.read_spans heap_abcde sps = Done [x62; x63; x64].
Proof.
  destruct (range_yields_payload heap_abcde _ _ 3 iterator_in_abcde ltac:(lia))
    as (r & sps & Hr & Hsps & _ & _ & _ & Hread & _); [vm_compute; reflexivity|].
  exists r, sps. split_and!; done.
Defined.

(** The condition on the list is needed: in the list "abc", no payload,
    "de", the range of 3 bytes from the byte b yields three spans, of 2, 0
    and 1 bytes. *)
Lemma range_over_payloadless_segment :
  ∃ r sps,
    byte_buffer_segment_range_impl.make_from_iterator heap_abc_gap_de
      (byte_buffer_iterator_impl.make (Some 0%nat) 1) 3 = Done r ∧
    byte_buffer_segment_range_impl.spans heap_abc_gap_de r = Done sps ∧
    byte_buffer_segment_list_iterator_impl.span_size <$> sps = [2; 0; 1] ∧
    byte_buffer_segment_list_iterator_impl.read_spans heap_abc_gap_de sps
      = Done [x62; x63; x64].
Proof.
  eexists _, _. split; [vm_compute; reflexivity|].
  split; [vm_compute; reflexivity|]. split; vm_compute; reflexivity.
Qed.

(** X20.  [empty()] of a segment range tells whether the range starts at
    [nullptr], not whether it holds bytes: the range of size 0 built from a
    byte iterator is [empty()] exactly when that is the end iterator; built
    from an iterator inside the list, it yields one span of no bytes. *)
Theorem zero_size_range (h : byte_buffer_segment.heap)
    (it : byte_buffer_iterator_impl.t) (addrs : list addr) :
  iterator_in h it addrs →
  ∃ r,
    byte_buffer_segment_range_impl.make_from_iterator h it 0 = Done r ∧
    byte_buffer_segment_range_impl.empty h r
      = Done (bool_decide (byte_buffer_iterator_impl.current_segment it = None)) ∧
    (byte_buffer_iterator_impl.current_segment it = None →
       byte_buffer_segment_range_impl.spans h r = Done []) ∧
    (byte_buffer_iterator_impl.current_segment it ≠ None →
       ∃ sp, byte_buffer_segment_range_impl.spans h r = Done [sp] ∧
             byte_buffer_segment_list_iterator_impl.span_size sp = 0).
Proof.
  intros Hin. pose proof (iterator_in_offset _ _ _ Hin) as [Hoff _].
  destruct (decide (byte_buffer_iterator_impl.offset it < total_length h addrs)) as [Hlt|Hge].
  - destruct (iterator_in_inside h it addrs Hin Hlt)
      as (a & tl & s & Hit & -> & Hs & Hwf & Hoffs).
    eexists. split; [by apply (range_make_inside h it a s 0); try lia|].
    assert (Hcur : byte_buffer_iterator_impl.current_segment it = Some a) by (by rewrite Hit).
    rewrite Hcur. split_and!; try done.
    intros _. unfold byte_buffer_segment_range_impl.spans. rewrite end_done.
    cbn [mbind outcome_bind byte_buffer_segment_range_impl.begin
         byte_buffer_segment_range_impl.begin_].
    rewrite (spans_loop_step _ h a s) by (done || lia).
    rewrite !Z.min_l by lia. rewrite !Z.sub_diag. cbn [Z.eqb].
    assert (Hh : (0 < List.length h)%nat) by (apply lookup_lt_Some in Hs; lia).
    destruct (List.length h) as [|k]; [lia|]. rewrite spans_loop_end.
    eexists. split; [reflexivity|done].
  - destruct Hin as (Hch & Hok & Hseek & H0 & Hnil).
    assert (Hend : it = byte_buffer_iterator_impl.make None 0).
    { rewrite Hseek. replace (byte_buffer_iterator_impl.offset it)
        with (total_length h addrs) by lia. by apply seek_total. }
    rewrite Hend. eexists. split; [reflexivity|]. split_and!; try done.
Qed.

Lemma zero_size_range_witness :
  ∃ r,
    byte_buffer_segment_range_impl.make_from_iterator heap_abcde
      (byte_buffer_iterator_impl.make (Some 0%nat) 1) 0 = Done r ∧
    byte_buffer_segment_range_impl.empty heap_abcde r = Done false.
Proof.
  destruct (zero_size_range heap_abcde _ _ iterator_in_abcde) as (r & Hr & He & _).
  exists r. split_and!; done.
Defined.

(** X21.  The size of a segment range is truncated to 32 bits: a range
    asked for [2^32 + k] bytes from a byte iterator inside the list yields
    the spans of a range of [k] bytes, without any error. *)
Theorem range_size_truncated (h : byte_buffer_segment.heap)
    (it : byte_buffer_iterator_impl.t) (addrs : list addr) (k : Z) :
  iterator_in h it addrs → 0 < k < 2 ^ 32 →
  byte_buffer_iterator_impl.offset it < total_length h addrs →
  ∃ r sps,
    byte_buffer_segment_range_impl.make_from_iterator h it (2 ^ 32 + k) = Done r ∧
    byte_buffer_segment_range_impl.spans h r = Done sps ∧
    byte_buffer_segment_list_iterator_impl.read_spans h sps
      = Done (take (Z.to_nat k)
                (drop (Z.to_nat (byte_buffer_iterator_impl.offset it)) (contents h addrs))).
Proof.
  intros Hin Hk Hlt.
  destruct (range_spans_spec h it addrs k Hin Hk Hlt) as (r & sps & Hr & Hsps & Hread & _).
  exists r, sps. by rewrite range_make_modulo.
Qed.

Lemma range_size_truncated_witness :
  ∃ r sps,
    byte_buffer_segment_range_impl.make_from_iterator heap_abcde
      (byte_buffer_iterator_impl.make (Some 0%nat) 1) (2 ^ 32 + 1) = Done r ∧
    byte_buffer_segment_range_impl.spans heap_abcde r = Done sps ∧
    byte_buffer_segment_list_iterator_impl.read_spans heap_abcde sps = Done [x62].
Proof.
  destruct (range_size_truncated heap_abcde _ _ 1 iterator_in_abcde ltac:(lia))
    as (r & sps & Hr & Hsps & Hread); [vm_compute; reflexivity|].
  exists r, sps. split_and!; done.
Defined.

(** ** More on the PDU session resource modification routine *)

Section modification_routine_success.

Import pdu_session_resource_modification_routine.

Implicit Types (r : pdu_session_resource_modification_routine.t)
  (tr : list (observed routineE)) (resp : cu_cp_pdu_session_resource_modify_response).

(** The runs of the routine on a request that passes both checks. *)
Lemma run_success_runs r tr resp :
  pdu_session_res_modify_items (modify_request r) ≠ [] →
  Forall (fun item => has_pdu_session (rrc_ue_up_resource_manager r) (pdu_session_id item)
                      = true)
         (pdu_session_res_modify_items (modify_request r)) →
  runs (run r) tr resp ↔
  tr = [Obs (logger_log debug fmt_ue_initialized) tt;
        Obs (logger_log debug fmt_ue_finalized) tt;
        Obs apply_config_update tt] ∧
  resp = response_msg r.
Proof.
  intros Hne Hall. unfold run. unfold mbind at 1, itree_bind at 1. rewrite runs_call.
  rewrite bool_decide_false by done.
  assert (Hb : forallb (fun item => has_pdu_session (rrc_ue_up_resource_manager r)
                                      (pdu_session_id item))
                 (pdu_session_res_modify_items (modify_request r)) = true).
  { apply forallb_forall. intros item Hin. apply list_elem_of_In in Hin.
    by apply (proj1 (Forall_forall _ _) Hall). }
  split.
  - intros ([] & tr' & -> & H). apply check_sessions_runs in H. rewrite Hb in H.
    apply (generate_response_runs r true) in H as [-> ->]. done.
  - intros [-> ->]. exists tt. eexists. split; [done|].
    apply check_sessions_runs. rewrite Hb.
    by apply (generate_response_runs r true).
Qed.

End modification_routine_success.

(** X22.  A request that is not empty and names only PDU sessions the UP
    resource manager has is accepted: the routine completes, logs that it
    is initialized and finalized, applies one configuration update, contacts
    no E1AP or F1AP peer, and returns the response as constructed, with no
    session listed as modified or as failed. *)
Theorem known_sessions_succeed
    (req : pdu_session_resource_modification_routine.cu_cp_pdu_session_resource_modify_request)
    (mgr : pdu_session_resource_modification_routine.up_resource_manager) :
  pdu_session_resource_modification_routine.pdu_session_res_modify_items req ≠ [] →
  Forall (fun item =>
            pdu_session_resource_modification_routine.has_pdu_session mgr
              (pdu_session_resource_modification_routine.pdu_session_id item) = true)
         (pdu_session_resource_modification_routine.pdu_session_res_modify_items req) →
  let routine := pdu_session_resource_modification_routine.make req mgr in
  (∃ tr resp, runs (pdu_session_resource_modification_routine.run routine) tr resp) ∧
  ∀ tr resp,
    runs (pdu_session_resource_modification_routine.run routine) tr resp →
    tr = [Obs (pdu_session_resource_modification_routine.logger_log debug
                 fmt_ue_initialized) tt;
          Obs (pdu_session_resource_modification_routine.logger_log debug
                 fmt_ue_finalized) tt;
          Obs pdu_session_resource_modification_routine.apply_config_update tt] ∧
    pdu_session_resource_modification_routine.pdu_session_res_modify_list resp = [] ∧
    pdu_session_resource_modification_routine.pdu_session_res_failed_to_modify_list resp = [] ∧
    filter pdu_session_resource_modification_routine.is_peer_call tr = [].
Proof.
  intros Hne Hall routine. split.
  - eexists _, _. by apply (run_success_runs routine).
  - intros tr resp Hrun. apply (run_success_runs routine) in Hrun as [-> ->]; done.
Qed.

Lemma known_sessions_succeed_witness :
  ∃ tr resp,
    runs (pdu_session_resource_modification_routine.run
            (pdu_session_resource_modification_routine.make request_2 manager_2)) tr resp.
Proof.
  apply (known_sessions_succeed request_2 manager_2).
  - discriminate.
  - repeat constructor.
Defined.

(** X23.  [mark_all_sessions_as_failed] appends: the failed list of the
    response keeps the items it had and gains one item per item of the
    request, in request order; the list of modified sessions is not
    touched.  The helper is not idempotent: a second call lists every
    requested session once more. *)
Theorem mark_all_sessions_as_failed_appends
    (resp : pdu_session_resource_modification_routine.cu_cp_pdu_session_resource_modify_response)
    (req : pdu_session_resource_modification_routine.cu_cp_pdu_session_resource_modify_request) :
  let failed r :=
    pdu_session_resource_modification_routine.failed_pdu_session_id
      <$> pdu_session_resource_modification_routine.pdu_session_res_failed_to_modify_list r in
  let ids :=
    pdu_session_resource_modification_routine.pdu_session_id
      <$> pdu_session_resource_modification_routine.pdu_session_res_modify_items req in
  let once := pdu_session_resource_modification_routine.mark_all_sessions_as_failed resp req in
  let twice := pdu_session_resource_modification_routine.mark_all_sessions_as_failed once req in
  failed once = failed resp ++ ids ∧
  failed twice = failed resp ++ ids ++ ids ∧
  pdu_session_resource_modification_routine.pdu_session_res_modify_list once
    = pdu_session_resource_modification_routine.pdu_session_res_modify_list resp ∧
  pdu_session_resource_modification_routine.pdu_session_res_modify_list twice
    = pdu_session_resource_modification_routine.pdu_session_res_modify_list resp.
Proof.
  intros failed ids once twice. subst failed ids once twice. cbv beta.
  destruct (mark_all_sessions_as_failed_spec resp req) as [Hm Hf].
  destruct (mark_all_sessions_as_failed_spec
              (pdu_session_resource_modification_routine.mark_all_sessions_as_failed resp req)
              req) as [Hm2 Hf2].
  rewrite Hf2, Hm2, Hf, Hm, !fmap_app, <- !list_fmap_compose, <- app_assoc. done.
Qed.

(** ** More on the E2AP network adapter *)

Section adapter_gateway_facts.

Context {e2_message byte_buffer : Type}.

(** The packer exists exactly while a gateway controller is held. *)
Lemma setup_keeps_packer (a a' : e2ap_network_adapter.t)
    (s : e2ap_network_adapter.setup_step e2_message byte_buffer) :
  e2ap_network_adapter.setup a s = Done a' →
  (e2ap_network_adapter.packer a = None ↔ e2ap_network_adapter.gateway_ctrl_handler a = None) →
  (e2ap_network_adapter.packer a' = None ↔ e2ap_network_adapter.gateway_ctrl_handler a' = None).
Proof.
  intros Hs Hinv. destruct s as [ctrl data connected| | | |]; simpl in Hs.
  - unfold e2ap_network_adapter.connect_gateway in Hs.
    destruct data as [data|]; [|done]. destruct ctrl as [ctrl|]; [|done].
    destruct connected; [|done]. simpl in Hs. injection Hs as <-. simpl. done.
  - unfold e2ap_network_adapter.disconnect_gateway in Hs.
    destruct (e2ap_network_adapter.gateway_ctrl_handler a) as [ctrl|] eqn:Hc; [|done].
    simpl in Hs. injection Hs as <-. simpl. done.
  - unfold e2ap_network_adapter.on_new_message in Hs.
    destruct (e2ap_network_adapter.packer a) eqn:Hp; simpl in Hs;
      injection Hs as <-; by rewrite Hp.
  - unfold e2ap_network_adapter.on_new_pdu in Hs.
    destruct (e2ap_network_adapter.packer a) eqn:Hp; simpl in Hs;
      injection Hs as <-; by rewrite Hp.
  - by injection Hs as <-.
Qed.

Lemma setups_keep_packer (a a' : e2ap_network_adapter.t)
    (ss : list (e2ap_network_adapter.setup_step e2_message byte_buffer)) :
  e2ap_network_adapter.setups a ss = Done a' →
  (e2ap_network_adapter.packer a = None ↔ e2ap_network_adapter.gateway_ctrl_handler a = None) →
  (e2ap_network_adapter.packer a' = None ↔ e2ap_network_adapter.gateway_ctrl_handler a' = None).
Proof.
  revert a. induction ss as [|s ss IH]; intros a Hss Hinv; simpl in Hss.
  - by injection Hss as <-.
  - destruct (e2ap_network_adapter.setup a s) as [a1| |] eqn:Hs; [|done..].
    simpl in Hss. apply (IH a1 Hss). by apply (setup_keeps_packer a a1 s).
Qed.

End adapter_gateway_facts.

(** X24.  The adapter forwards exactly while a gateway is connected.  After
    any sequence of gateway connects and disconnects, outbound messages and
    inbound PDUs that returns, starting from a new adapter: when a gateway
    controller is held, messages and PDUs go to the packer and
    [disconnect_gateway] unregisters that controller and lets it go; when
    none is held, messages and PDUs are dropped with a debug line and
    [disconnect_gateway] is fatal. *)
Theorem gateway_forwarding_invariant {e2_message byte_buffer : Type}
    (ss : list (e2ap_network_adapter.setup_step e2_message byte_buffer))
    (a : e2ap_network_adapter.t) (msg : e2_message) (pdu : byte_buffer) :
  e2ap_network_adapter.setups e2ap_network_adapter.make ss = Done a →
  (e2ap_network_adapter.gateway_ctrl_handler a = None →
     @e2ap_network_adapter.on_new_message e2_message byte_buffer a msg
       = Done [e2ap_network_adapter.logger_debug
                 "E2AP ASN1 packer disconnected, dropping msg"] ∧
     @e2ap_network_adapter.on_new_pdu e2_message byte_buffer a pdu
       = Done [e2ap_network_adapter.logger_debug
                 "E2AP ASN1 packer disconnected, dropping pdu"] ∧
     @e2ap_network_adapter.disconnect_gateway e2_message byte_buffer a
       = Abort "Gateway handler not set.") ∧
  (∀ ctrl, e2ap_network_adapter.gateway_ctrl_handler a = Some ctrl →
     @e2ap_network_adapter.on_new_message e2_message byte_buffer a msg
       = Done [e2ap_network_adapter.packer_handle_message msg] ∧
     @e2ap_network_adapter.on_new_pdu e2_message byte_buffer a pdu
       = Done [e2ap_network_adapter.packer_handle_packed_pdu pdu] ∧
     ∃ a' : e2ap_network_adapter.t,
       @e2ap_network_adapter.disconnect_gateway e2_message byte_buffer a
         = Done (a', [e2ap_network_adapter.broker_unregister_fd ctrl]) ∧
       e2ap_network_adapter.gateway_ctrl_handler a' = None ∧
       e2ap_network_adapter.packer a' = None).
Proof.
  intros Hss. apply setups_keep_packer in Hss as Hinv; [|done].
  unfold e2ap_network_adapter.on_new_message, e2ap_network_adapter.on_new_pdu,
    e2ap_network_adapter.disconnect_gateway.
  split.
  - intros Hc. rewrite (proj2 Hinv Hc), Hc. done.
  - intros ctrl Hc. rewrite Hc.
    destruct (e2ap_network_adapter.packer a) as [p|] eqn:Hp.
    + split_and!; try done. eexists. split; [reflexivity|done].
    + rewrite (proj1 Hinv eq_refl) in Hc. done.
Qed.

Lemma gateway_forwarding_invariant_witness :
  ∃ a : e2ap_network_adapter.t,
    @e2ap_network_adapter.on_new_message nat nat a 42%nat
      = Done [e2ap_network_adapter.packer_handle_message 42%nat] ∧
    @e2ap_network_adapter.on_new_pdu nat nat a 43%nat
      = Done [e2ap_network_adapter.packer_handle_packed_pdu 43%nat].
Proof.
  eexists.
  destruct (proj2 (gateway_forwarding_invariant
                     [e2ap_network_adapter.do_connect_gateway (Some 7%nat) (Some 8%nat) true]
                     _ 42%nat 43%nat eq_refl) 7%nat eq_refl) as (Hm & Hp & _).
  split; [exact Hm|exact Hp].
Defined.

(** X25.  Once [connect_e2ap] has provided two handlers, whatever happens
    to the gateway afterwards - connects, disconnects, outbound messages,
    inbound PDUs - an unpacked message is delivered to that message handler
    and a connection loss to that event handler. *)
Theorem wired_handlers_survive_setup {e2_message byte_buffer : Type}
    (a a' : e2ap_network_adapter.t) (hm he : addr)
    (ss : list (e2ap_network_adapter.setup_step e2_message byte_buffer)) (msg : e2_message) :
  e2ap_network_adapter.setups
    (e2ap_network_adapter.connect_e2ap a (Some hm) (Some he)) ss = Done a' →
  @e2ap_network_adapter.handle_message e2_message byte_buffer a' msg
    = Done [e2ap_network_adapter.e2ap_handle_message hm msg] ∧
  @e2ap_network_adapter.on_connection_loss e2_message byte_buffer a'
    = Done [e2ap_network_adapter.event_handle_connection_loss he].
Proof.
  intros Hss. apply setups_keep_handlers in Hss as [Hm He]. simpl in Hm, He.
  unfold e2ap_network_adapter.handle_message, e2ap_network_adapter.on_connection_loss.
  rewrite Hm, He. done.
Qed.

Lemma wired_handlers_survive_setup_witness :
  ∃ a' : e2ap_network_adapter.t,
    @e2ap_network_adapter.handle_message nat nat a' 42%nat
      = Done [e2ap_network_adapter.e2ap_handle_message 3%nat 42%nat] ∧
    @e2ap_network_adapter.on_connection_loss nat nat a'
      = Done [e2ap_network_adapter.event_handle_connection_loss 4%nat].
Proof.
  eexists.
  apply (wired_handlers_survive_setup e2ap_network_adapter.make _ 3%nat 4%nat
           [e2ap_network_adapter.do_connect_gateway (Some 7%nat) (Some 8%nat) true;
            e2ap_network_adapter.do_on_new_message 1%nat;
            e2ap_network_adapter.do_disconnect_gateway]).
  reflexivity.
Defined.

(** ** The PSS sequence shift *)

(** X26.  For every [unsigned] argument, also one whose product with 43
    wraps around, [M(N_id_2)] is an index into the pregenerated PSS sequence
    of [SEQUENCE_LEN] entries; and different identifiers below
    [SEQUENCE_LEN] get different shifts. *)
Theorem pss_shift_in_range_and_distinct :
  (∀ N_id_2 : Z,
     0 ≤ pss_processor_impl.M N_id_2 < pss_processor_impl.SEQUENCE_LEN) ∧
  (∀ m n : Z,
     0 ≤ m < 127 → 0 ≤ n < 127 →
     (pss_processor_impl.M m = pss_processor_impl.M n ↔ m = n)).
Proof.
  assert (Hrange : ∀ k, 0 ≤ pss_processor_impl.M k < 127).
  { intros k. unfold pss_processor_impl.M, pss_processor_impl.SEQUENCE_LEN.
    pose proof (Z.mod_pos_bound (to_unsigned (43 * to_unsigned k)) 127 ltac:(lia)).
    rewrite to_unsigned_small by lia. lia. }
  split; [exact Hrange|]. intros m n Hm Hn.
  assert (HM : ∀ k, 0 ≤ k < 127 → pss_processor_impl.M k = (43 * k) mod 127).
  { intros k Hk. unfold pss_processor_impl.M, pss_processor_impl.SEQUENCE_LEN.
    rewrite (to_unsigned_small k) by lia.
    rewrite (to_unsigned_small (43 * k)) by lia.
    apply to_unsigned_small.
    pose proof (Z.mod_pos_bound (43 * k) 127). lia. }
  assert (Hinv : ∀ k, 0 ≤ k < 127 → (65 * pss_processor_impl.M k) mod 127 = k).
  { intros k Hk. rewrite HM by done. rewrite Z.mul_mod_idemp_r by lia.
    replace (65 * (43 * k)) with (k + (22 * k) * 127) by lia.
    rewrite Z.mod_add by lia. apply Z.mod_small. lia. }
  split; [|by intros ->].
  intros Heq. rewrite <- (Hinv m), <- (Hinv n) by done. by rewrite Heq.
Qed.

Lemma pss_shift_in_range_and_distinct_witness :
  0 ≤ pss_processor_impl.M (2 ^ 31) < pss_processor_impl.SEQUENCE_LEN ∧
  (pss_processor_impl.M 1 = pss_processor_impl.M 2 ↔ 1 = 2).
Proof.
  split.
  - apply (proj1 pss_shift_in_range_and_distinct).
  - apply (proj2 pss_shift_in_range_and_distinct 1 2); lia.
Defined.
